(** * Housekeeping: the expense settlement engine and the optimistic
      mutation layer of the household pages.

    The development embeds
    - [src/pages/app/EconomyPage.tsx]: [roundOre], [computeSettlements], the
      memoised [totalOre], [totalsByUser], [balances], [settlements], and
      the expense actions [loadExpenses], [addExpense], [removeExpense];
    - [src/pages/app/ShoppingPage.tsx]: [norm], [loadShopping],
      [loadPantry], [addShopping], [toggleShopping], [removeShopping],
      [clearChecked], [moveToPantry], [addPantry], [schedulePantryUpdate],
      [removePantry];
    - [src/pages/app/TasksEventsPage.tsx]: [scheduleEventPatch].

    Beyond these it embeds, of [EconomyPage.tsx], [memberById],
    [groupedExpenses], [meName] and [sharePerPersonOre]; of the component
    [TasksEventsPage], the counters [openTodosCount] and
    [upcomingEventsCount] and the actions [loadTodos], [loadEvents],
    [loadAll], [addTodo], [toggleTodo], [removeTodo], [clearDoneTodos],
    [addEvent], [removeEvent]; and, of the two components that the source
    file [TasksEventsPage.tsx] holds after it, [TodosPage] ([visibleTodos],
    [myName], [memberLabel], [labelForUserId], [loadTodos], [addTodo],
    [toggleTodo], [setAssigned], [removeTodo]) and the settlement card of
    [OverviewPage] ([roundOre], [computeSettlements], [totalOre],
    [totalsByUser], [balances], [settlements]).

    Conventions.

    Strings.  A [string] holds the UTF-8 encoding of the text.
    [String.prototype.trim] takes off the white space and the line
    terminators of ECMAScript, which are code points of one, two or three
    bytes.  [String.prototype.toLowerCase] follows the case tables of
    Unicode; it is a parameter of the functions that call it
    ([toLowerCase]), so that what is proved holds for those tables.  An id
    is a UUID, so [slice(0, 6)] is its first six bytes.

    Numbers.  A number that the user types is a double ([float], the
    binary64 numbers of the kernel): [Number(s)] is a parameter, and
    [Number.isNaN], [<=], [*] and [Math.round] are computed on doubles, so
    the amount of an expense of the page and the quantity of a pantry item
    can be any double, the infinite ones included.  In the settlement
    engine an amount in öre is an integer ([Z]), as the store holds it.
    Where the engine leaves the integers, in the equal share
    [totalOre / members.length], the number is an exact rational ([Q]),
    and [Math.round] is [floor (x + 1/2)].  This is what the doubles of
    the code give as long as the amounts times the number of members stay
    far below 2^53: a balance before rounding is a multiple of 1/N, so it
    is a half-integer, which the doubles hold exactly, or at least 1/(2N)
    away from one.

    Dates.  The start of an event is a timestamp string; [+new Date(s)]
    is an integer that the statements take as a parameter ([time_value]):
    the strings that reach the comparators come from the store or from
    [toISOString], so they are valid dates.  [fromLocalInputValue] is a
    parameter as well, with no result where [toISOString] throws.

    Objects.  [computeSettlements] is embedded twice: on arrays of values,
    and on a store of objects and arrays where the copies, the in-place
    sort and the assignments of the loop are explicit.

    React.  A state cell is a record field; [setX(v)] and
    [setX((prev) => f(prev))] replace it at once.  A handler reads the
    cells of the render it was created in, which is the state at the time
    of the call.  A [useRef] is a field as well.

    Async functions.  Every [await] splits a function in two: the part
    that runs at the call, which issues the remote call and leaves what the
    rest needs in a continuation, and the part that runs when the reply
    arrives.  Replies, timers and user actions arrive in any order, one at
    a time: the page is a step function over these events.  What the
    environment decides (the reply, [crypto.randomUUID()], [Number(s)],
    [new Date()], the case tables) is an argument. *)

From Stdlib Require Import ZArith QArith Qround Lia Ascii Floats.
From stdpp Require Import gmap strings list fin_maps sorting.

Open Scope Z_scope.

(** ** JavaScript builtins used by the pages *)

Module Js.

(** [WhiteSpace] and [LineTerminator] of ECMAScript, by the bytes of their
    UTF-8 encoding, written in decimal.  One byte: U+0009 to U+000D and
    U+0020.  Two bytes: U+00A0 (194 160).  Three bytes: U+1680
    (225 154 128), U+2000 to U+200A (226 128 128 to 226 128 138), U+2028
    and U+2029 (226 128 168 and 169), U+202F (226 128 175), U+205F
    (226 129 159), U+3000 (227 128 128) and U+FEFF (239 187 191). *)
Definition is_space1 (a : ascii) : bool :=
  match a with
  | "009" | "010" | "011" | "012" | "013" | " " => true
  | _ => false
  end%char.

Definition is_space2 (a b : ascii) : bool :=
  Ascii.eqb a "194" && Ascii.eqb b "160".

Definition is_space3 (a b c : ascii) : bool :=
  Ascii.eqb a "225" && Ascii.eqb b "154" && Ascii.eqb c "128"
  || Ascii.eqb a "226" && Ascii.eqb b "128"
     && match c with
        | "128" | "129" | "130" | "131" | "132" | "133" | "134" | "135"
        | "136" | "137" | "138" | "168" | "169" | "175" => true
        | _ => false
        end%char
  || Ascii.eqb a "226" && Ascii.eqb b "129" && Ascii.eqb c "159"
  || Ascii.eqb a "227" && Ascii.eqb b "128" && Ascii.eqb c "128"
  || Ascii.eqb a "239" && Ascii.eqb b "187" && Ascii.eqb c "191".

(** What is left when the code points at the front that [sp2] and [sp3]
    (and [is_space1]) accept are taken off. *)
Fixpoint strip (sp2 : ascii → ascii → bool)
    (sp3 : ascii → ascii → ascii → bool) (s : string) : string :=
  match s with
  | EmptyString => EmptyString
  | String a s1 =>
      if is_space1 a then strip sp2 sp3 s1
      else
        match s1 with
        | EmptyString => s
        | String b s2 =>
            if sp2 a b then strip sp2 sp3 s2
            else
              match s2 with
              | EmptyString => s
              | String c s3 => if sp3 a b c then strip sp2 sp3 s3 else s
              end
        end
  end.

Definition trimStart (s : string) : string := strip is_space2 is_space3 s.

(** At the end the bytes of a code point are met last byte first. *)
Definition trimEnd (s : string) : string :=
  String.rev (strip (λ b a, is_space2 a b) (λ c b a, is_space3 a b c)
                    (String.rev s)).

(** [String.prototype.trim] *)
Definition trim (s : string) : string := trimEnd (trimStart s).
Arguments trim : simpl never.

(** [s.slice(0, n)]. *)
Definition slice0 (n : nat) (s : string) : string := String.substring 0 n s.

(** [Number.isNaN(n)] *)
Definition isNaN (n : float) : bool := PrimFloat.is_nan n.

(** The empty string is the only falsy string: [a || b]. *)
Definition or_else (a b : string) : string :=
  match a with EmptyString => b | _ => a end.

(** [Math.round]: the nearest integer, halves towards plus infinity. *)
Definition round (n : Q) : Z := Qfloor (n + (1 # 2))%Q.

(** [Math.round] on a double.  A double [m * 2^e] with [0 <= e], an
    infinite one, a zero and [NaN] are returned as they are; otherwise the
    result is [floor (x + 1/2)], computed exactly (it is below 2^53), with
    the sign of [x] when it is zero. *)
Definition Math_round (x : float) : float :=
  match Prim2SF x with
  | S754_finite s m e =>
      if 0 <=? e then x
      else
        let d := 2 ^ (- e) in
        let n := if s then Z.neg m else Z.pos m in
        let r := (2 * n + d) / (2 * d) in
        if r =? 0 then (if s then neg_zero else zero)
        else if r <? 0 then (- of_uint63 (Uint63.of_Z (- r)))%float
        else of_uint63 (Uint63.of_Z r)
  | _ => x
  end.

(** [Array.prototype.sort(cmp)].  ECMAScript requires the builtin to be
    stable; for a comparator that is a consistent order the stable sorted
    arrangement is unique, so insertion from the right end models it:
    an element stays in front of the later elements it does not have to
    follow ([cmp x y <= 0]). *)
Fixpoint sort_insert {A} (cmp : A → A → Z) (x : A) (l : list A) : list A :=
  match l with
  | [] => [x]
  | y :: l' => if cmp x y <=? 0 then x :: l else y :: sort_insert cmp x l'
  end.

Definition sort {A} (cmp : A → A → Z) (l : list A) : list A :=
  foldr (sort_insert cmp) [] l.

End Js.

(** ** EconomyPage.tsx: the settlement engine *)

Module Economy.

Record Member := {
  user_id : string;
  role : string;
  display_name : string;
}.

Record Expense := {
  id : string;
  household_id : string;
  paid_by : string;
  title : string;
  amount_ore : Z;
  created_by : string;
  created_at : string;
}.

(** The element type of [balances]:
    [{ user_id; display_name; balance_ore }]. *)
Record Balance := {
  bal_user_id : string;
  bal_display_name : string;
  balance_ore : Z;
}.

(** The element type of [lines]: [{ from; to; amount_ore }]. *)
Record Line := {
  line_from : string;
  line_to : string;
  line_amount_ore : Z;
}.

Definition roundOre (n : Q) : Z := Js.round n.

(** [{ ...b, balance_ore: v }] *)
Definition with_balance (b : Balance) (v : Z) : Balance :=
  {| bal_user_id := bal_user_id b;
     bal_display_name := bal_display_name b;
     balance_ore := v |}.

(** The comparator of both sorts: [(a, b) => b.balance_ore - a.balance_ore]. *)
Definition by_balance_desc (a b : Balance) : Z :=
  balance_ore b - balance_ore a.

Definition creditors_of (balances : list Balance) : list Balance :=
  Js.sort by_balance_desc
    ((λ b, with_balance b (balance_ore b))
       <$> filter (λ b, 0 < balance_ore b) balances).

Definition debtors_of (balances : list Balance) : list Balance :=
  Js.sort by_balance_desc
    ((λ b, with_balance b (- balance_ore b))
       <$> filter (λ b, balance_ore b < 0) balances).

(** The variables of the [while] loop. *)
Record Loop := {
  debtors : list Balance;
  creditors : list Balance;
  lines : list Line;
  i : nat;
  j : nat;
}.

(** One pass through the loop; [None] when the loop condition
    [i < debtors.length && j < creditors.length] is false. *)
Definition loop_body (st : Loop) : option Loop :=
  match debtors st !! i st, creditors st !! j st with
  | Some d, Some c =>
      let x := Z.min (balance_ore d) (balance_ore c) in
      let d' := with_balance d (balance_ore d - x) in
      let c' := with_balance c (balance_ore c - x) in
      Some {|
        debtors := <[i st := d']> (debtors st);
        creditors := <[j st := c']> (creditors st);
        lines :=
          if 0 <? x
          then lines st ++ [ {| line_from := bal_display_name d;
                                line_to := bal_display_name c;
                                line_amount_ore := x |} ]
          else lines st;
        i := if balance_ore d' <=? 0 then S (i st) else i st;
        j := if balance_ore c' <=? 0 then S (j st) else j st;
      |}
  | _, _ => None
  end.

(** The [while] loop, run for at most [fuel] passes; [None] when the fuel
    does not reach the end of the loop. *)
Fixpoint while_loop (fuel : nat) (st : Loop) : option Loop :=
  match loop_body st with
  | None => Some st
  | Some st' =>
      match fuel with
      | O => None
      | S fuel' => while_loop fuel' st'
      end
  end.

Definition loop_init (balances : list Balance) : Loop :=
  {| debtors := debtors_of balances;
     creditors := creditors_of balances;
     lines := [];
     i := 0%nat;
     j := 0%nat |}.

Definition computeSettlements (fuel : nat) (balances : list Balance)
  : option (list Line) :=
  lines <$> while_loop fuel (loop_init balances).

(** *** The memoised values of the page *)

Definition totalOre (expenses : list Expense) : Z :=
  foldl (λ sum e, sum + amount_ore e) 0 expenses.

Definition totalsByUser (expenses : list Expense) : gmap string Z :=
  foldl (λ map e,
           <[paid_by e := default 0 (map !! paid_by e) + amount_ore e]> map)
        ∅ expenses.

(** [(m.display_name || "").trim() || m.user_id.slice(0, 6)] *)
Definition shown_name (m : Member) : string :=
  Js.or_else (Js.trim (display_name m)) (Js.slice0 6 (user_id m)).

Definition balances (members : list Member) (expenses : list Expense)
  : list Balance :=
  if (length members =? 0)%nat then []
  else
    let share :=
      (inject_Z (totalOre expenses) / inject_Z (Z.of_nat (length members)))%Q in
    (λ m,
       let paid := default 0 (totalsByUser expenses !! user_id m) in
       {| bal_user_id := user_id m;
          bal_display_name := shown_name m;
          balance_ore := roundOre (inject_Z paid - share)%Q |})
      <$> members.

(** [settlements = computeSettlements(balances)]; one pass per balance is
    enough fuel (see [computeSettlements_greedy]). *)
Definition settlements (members : list Member) (expenses : list Expense)
  : option (list Line) :=
  let bs := balances members expenses in
  computeSettlements (length bs) bs.


(** *** [computeSettlements] on the object store

    The function above works on arrays of values.  The source works on
    references: [filter] returns a new array holding the same objects,
    [map] allocates the copies [{ ...b }], [sort] reorders the array it is
    called on, and the loop assigns to [balance_ore] of the objects it
    reaches through [debtors[i]] and [creditors[j]].  This second embedding
    keeps objects and arrays in a store, so that what the function writes
    to is visible. *)

Module OnStore.

(** Addresses are indices; allocation appends. *)
Record Store := {
  objects : list Balance;
  arrays : list (list nat);
}.

(** A computation reads and writes the store; it is [None] when it
    follows a reference that the store does not hold. *)
Definition M (A : Type) : Type := Store → option (A * Store).

#[global] Instance M_ret : MRet M := λ A x s, Some (x, s).
#[global] Instance M_bind : MBind M := λ A B f m s,
  match m s with
  | Some (x, s') => f x s'
  | None => None
  end.

Definition new_object (b : Balance) : M nat := λ s,
  Some (length (objects s),
        {| objects := objects s ++ [b]; arrays := arrays s |}).

Definition get_object (l : nat) : M Balance := λ s,
  b ← objects s !! l; Some (b, s).

(** [o.balance_ore = f(o.balance_ore)] *)
Definition update_balance_ore (l : nat) (f : Z → Z) : M unit := λ s,
  b ← objects s !! l;
  Some (tt, {| objects := <[l := with_balance b (f (balance_ore b))]> (objects s);
               arrays := arrays s |}).

Definition new_array (a : list nat) : M nat := λ s,
  Some (length (arrays s),
        {| objects := objects s; arrays := arrays s ++ [a] |}).

Definition get_array (r : nat) : M (list nat) := λ s,
  a ← arrays s !! r; Some (a, s).

Definition set_array (r : nat) (a : list nat) : M unit := λ s,
  _ ← arrays s !! r;
  Some (tt, {| objects := objects s; arrays := <[r := a]> (arrays s) |}).

Fixpoint get_objects (a : list nat) : M (list Balance) :=
  match a with
  | [] => mret []
  | l :: a' => b ← get_object l; bs ← get_objects a'; mret (b :: bs)
  end.

Fixpoint new_objects (bs : list Balance) : M (list nat) :=
  match bs with
  | [] => mret []
  | b :: bs' => l ← new_object b; a ← new_objects bs'; mret (l :: a)
  end.

(** [arr.filter(p)]: a new array with the elements that pass. *)
Definition array_filter (p : Balance → bool) (r : nat) : M nat :=
  a ← get_array r;
  bs ← get_objects a;
  new_array ((filter (λ lb, p lb.2 = true) (zip a bs)).*1).

(** [arr.map(f)] for an [f] that builds a new object. *)
Definition array_map (f : Balance → Balance) (r : nat) : M nat :=
  a ← get_array r;
  bs ← get_objects a;
  a' ← new_objects (f <$> bs);
  new_array a'.

(** [arr.sort(cmp)]: sorts [arr] in place and returns it. *)
Definition array_sort (cmp : Balance → Balance → Z) (r : nat) : M nat :=
  a ← get_array r;
  bs ← get_objects a;
  set_array r ((Js.sort (λ p q, cmp p.2 q.2) (zip a bs)).*1);;
  mret r.

(** The locals [lines], [i], [j]; [debtors] and [creditors] are
    constant references. *)
Record Vars := {
  v_lines : list Line;
  v_i : nat;
  v_j : nat;
}.

Definition loop_body (debtors creditors : nat) (v : Vars)
  : M (option Vars) :=
  ds ← get_array debtors;
  cs ← get_array creditors;
  match ds !! v_i v, cs !! v_j v with
  | Some d, Some c =>
      d0 ← get_object d;
      c0 ← get_object c;
      let x := Z.min (balance_ore d0) (balance_ore c0) in
      let lines' :=
        if 0 <? x
        then v_lines v ++ [ {| line_from := bal_display_name d0;
                               line_to := bal_display_name c0;
                               line_amount_ore := x |} ]
        else v_lines v in
      update_balance_ore d (λ v, v - x);;
      update_balance_ore c (λ v, v - x);;
      d1 ← get_object d;
      c1 ← get_object c;
      mret (Some {|
        v_lines := lines';
        v_i := if balance_ore d1 <=? 0 then S (v_i v) else v_i v;
        v_j := if balance_ore c1 <=? 0 then S (v_j v) else v_j v |})
  | _, _ => mret None
  end.

(** The loop; the outer [option] of the result is the fuel. *)
Fixpoint while_loop (fuel : nat) (debtors creditors : nat) (v : Vars)
  : M (option Vars) :=
  r ← loop_body debtors creditors v;
  match r with
  | None => mret (Some v)
  | Some v' =>
      match fuel with
      | O => mret None
      | S fuel' => while_loop fuel' debtors creditors v'
      end
  end.

Definition computeSettlements (fuel : nat) (balances : nat)
  : M (option (list Line)) :=
  pos ← array_filter (λ b, bool_decide (0 < balance_ore b)) balances;
  copies ← array_map (λ b, with_balance b (balance_ore b)) pos;
  creditors ← array_sort by_balance_desc copies;
  neg ← array_filter (λ b, bool_decide (balance_ore b < 0)) balances;
  owed ← array_map (λ b, with_balance b (- balance_ore b)) neg;
  debtors ← array_sort by_balance_desc owed;
  r ← while_loop fuel debtors creditors
        {| v_lines := []; v_i := 0%nat; v_j := 0%nat |};
  mret (v_lines <$> r).

(** A store that holds [balances] in an array of its own. *)
Definition store_of (balances : list Balance) : Store :=
  {| objects := balances; arrays := [seq 0 (length balances)] |}.

End OnStore.

End Economy.

(** ** The environment of a page: the remote store and [window] timers *)

Module Env.

(** What an awaited remote call resolves to: [{ data, error }] with
    [error] set, or with the data. *)
Inductive Reply (A : Type) :=
| Failed (message : string)
| Succeeded (data : A).
Arguments Failed {A} message.
Arguments Succeeded {A} data.

Section Net.
Context {Call Cont : Type}.

(** The calls issued so far, in order, and the continuations of the
    async functions that are suspended at an [await]. *)
Record Net := {
  calls : list Call;
  awaiting : gmap nat Cont;
  next_request : nat;
}.

Definition idle : Net :=
  {| calls := []; awaiting := ∅; next_request := 0%nat |}.

(** [await call]: issue the call and suspend with continuation [k]. *)
Definition await (call : Call) (k : Cont) (n : Net) : Net :=
  {| calls := calls n ++ [call];
     awaiting := <[next_request n := k]> (awaiting n);
     next_request := S (next_request n) |}.

(** The reply to request [req] arrived. *)
Definition resume (req : nat) (n : Net) : Net :=
  {| calls := calls n;
     awaiting := delete req (awaiting n);
     next_request := next_request n |}.
End Net.
Arguments Net : clear implicits.

Section Timers.
Context {Callback : Type}.

(** [window.setTimeout] / [window.clearTimeout]: handles are positive
    and never reused.  The delay is not kept: a pending timer fires at
    some later step, or is cleared before. *)
Record Timers := {
  pending : gmap nat Callback;
  next_handle : nat;
}.

Definition no_timers : Timers := {| pending := ∅; next_handle := 1%nat |}.

Definition setTimeout (cb : Callback) (t : Timers) : nat * Timers :=
  (next_handle t,
   {| pending := <[next_handle t := cb]> (pending t);
      next_handle := S (next_handle t) |}).

Definition clearTimeout (h : nat) (t : Timers) : Timers :=
  {| pending := delete h (pending t); next_handle := next_handle t |}.

(** A timer that fires is no longer pending; its handle stays used. *)
Definition fired (h : nat) (t : Timers) : Timers :=
  {| pending := delete h (pending t); next_handle := next_handle t |}.

(** The debounce idiom shared by [schedulePantryUpdate] and
    [scheduleEventPatch]:
    [const prevTimer = timers.current[id];
     if (prevTimer) window.clearTimeout(prevTimer);
     timers.current[id] = window.setTimeout(cb, delay);] *)
Definition debounce (id : string) (cb : Callback)
    (registry : gmap string nat) (t : Timers) : gmap string nat * Timers :=
  let t1 :=
    match registry !! id with
    | Some prevTimer =>
        if (prevTimer =? 0)%nat then t else clearTimeout prevTimer t
    | None => t
    end in
  let '(h, t2) := setTimeout cb t1 in
  (<[id := h]> registry, t2).
End Timers.
Arguments Timers : clear implicits.
Arguments debounce : simpl never.

(** [!s] for [s : string | null]: [null] and the empty string. *)
Definition falsy (s : option string) : bool :=
  match s with
  | None | Some EmptyString => true
  | Some _ => false
  end.
Arguments falsy : simpl never.

End Env.

(** ** ShoppingPage.tsx *)

Module Shopping.
Import Env.

Record ShoppingItem := {
  id : string;
  text : string;
  checked : bool;
}.

Record PantryItem := {
  p_id : string;
  p_name : string;
  p_qty : option float;
  p_unit : option string;
}.

(** [Partial<PantryItem>]: the fields that are present. *)
Record PantryPatch := {
  set_id : option string;
  set_name : option string;
  set_qty : option (option float);
  set_unit : option (option string);
}.

(** [{ ...x, ...patch }] *)
Definition patched (x : PantryItem) (patch : PantryPatch) : PantryItem :=
  {| p_id := default (p_id x) (set_id patch);
     p_name := default (p_name x) (set_name patch);
     p_qty := default (p_qty x) (set_qty patch);
     p_unit := default (p_unit x) (set_unit patch) |}.

(** [{ ...x, checked: v }] *)
Definition with_checked (x : ShoppingItem) (v : bool) : ShoppingItem :=
  {| id := id x; text := text x; checked := v |}.


(** The state cells of the component and the [pantryTimers] ref. *)
Record Page := {
  householdId : option string;
  userId : option string;
  shopping : list ShoppingItem;
  shoppingText : string;
  pantry : list PantryItem;
  pantryName : string;
  pantryQty : string;
  pantryUnit : string;
  msg : option string;
  pantryTimers : gmap string nat;
}.

Inductive Call :=
| SelectShopping (hid : string)
| SelectPantry (hid : string)
| InsertShopping (household_id text created_by : string)
| UpdateShoppingChecked (item_id : string) (value : bool)
| DeleteShopping (item_id : string)
| DeleteShoppingIn (item_ids : list string)
| InsertPantry (household_id name : string) (qty : option float)
               (unit : option string) (created_by : string)
| UpdatePantry (item_id : string) (patch : PantryPatch)
| DeletePantry (item_id : string).

(** What each suspended function still holds in its closure. *)
Inductive Cont :=
| LoadShopping_k
| LoadPantry_k
| AddShopping_k (tempId : string)
| ToggleShopping_k (item : ShoppingItem)
| RemoveShopping_k (item : ShoppingItem) (snapshot : list ShoppingItem)
| ClearChecked_k (snapshot : list ShoppingItem)
| MoveInserted_k (item : ShoppingItem) (snapshot : list ShoppingItem)
| MoveDeleted_k (snapshot : list ShoppingItem)
| AddPantry_k (tempId : string)
| PantryUpdate_k
| RemovePantry_k (snapshot : list PantryItem).

Record World := {
  page : Page;
  net : Net Call Cont;
  timers : Timers (string * PantryPatch);
}.

Definition on_page (f : Page → Page) (w : World) : World :=
  {| page := f (page w); net := net w; timers := timers w |}.

Definition on_net (f : Net Call Cont → Net Call Cont) (w : World) : World :=
  {| page := page w; net := f (net w); timers := timers w |}.

Definition setMsg (m : option string) : World → World :=
  on_page (λ p,
    {| householdId := householdId p; userId := userId p;
       shopping := shopping p; shoppingText := shoppingText p;
       pantry := pantry p; pantryName := pantryName p;
       pantryQty := pantryQty p; pantryUnit := pantryUnit p;
       msg := m; pantryTimers := pantryTimers p |}).

(** [setShopping((prev) => f(prev))] *)
Definition setShopping (f : list ShoppingItem → list ShoppingItem)
  : World → World :=
  on_page (λ p,
    {| householdId := householdId p; userId := userId p;
       shopping := f (shopping p); shoppingText := shoppingText p;
       pantry := pantry p; pantryName := pantryName p;
       pantryQty := pantryQty p; pantryUnit := pantryUnit p;
       msg := msg p; pantryTimers := pantryTimers p |}).

Definition setShoppingText (s : string) : World → World :=
  on_page (λ p,
    {| householdId := householdId p; userId := userId p;
       shopping := shopping p; shoppingText := s;
       pantry := pantry p; pantryName := pantryName p;
       pantryQty := pantryQty p; pantryUnit := pantryUnit p;
       msg := msg p; pantryTimers := pantryTimers p |}).

Definition setPantry (f : list PantryItem → list PantryItem)
  : World → World :=
  on_page (λ p,
    {| householdId := householdId p; userId := userId p;
       shopping := shopping p; shoppingText := shoppingText p;
       pantry := f (pantry p); pantryName := pantryName p;
       pantryQty := pantryQty p; pantryUnit := pantryUnit p;
       msg := msg p; pantryTimers := pantryTimers p |}).

Definition setPantryName (s : string) : World → World :=
  on_page (λ p,
    {| householdId := householdId p; userId := userId p;
       shopping := shopping p; shoppingText := shoppingText p;
       pantry := pantry p; pantryName := s;
       pantryQty := pantryQty p; pantryUnit := pantryUnit p;
       msg := msg p; pantryTimers := pantryTimers p |}).

Definition setPantryQty (s : string) : World → World :=
  on_page (λ p,
    {| householdId := householdId p; userId := userId p;
       shopping := shopping p; shoppingText := shoppingText p;
       pantry := pantry p; pantryName := pantryName p;
       pantryQty := s; pantryUnit := pantryUnit p;
       msg := msg p; pantryTimers := pantryTimers p |}).

Definition setPantryUnit (s : string) : World → World :=
  on_page (λ p,
    {| householdId := householdId p; userId := userId p;
       shopping := shopping p; shoppingText := shoppingText p;
       pantry := pantry p; pantryName := pantryName p;
       pantryQty := pantryQty p; pantryUnit := s;
       msg := msg p; pantryTimers := pantryTimers p |}).

(** [pantryTimers.current = r] *)
Definition setPantryTimers (r : gmap string nat) : World → World :=
  on_page (λ p,
    {| householdId := householdId p; userId := userId p;
       shopping := shopping p; shoppingText := shoppingText p;
       pantry := pantry p; pantryName := pantryName p;
       pantryQty := pantryQty p; pantryUnit := pantryUnit p;
       msg := msg p; pantryTimers := r |}).

Definition setTimers (t : Timers (string * PantryPatch)) (w : World) : World :=
  {| page := page w; net := net w; timers := t |}.

Section WithLowerCase.
(** [String.prototype.toLowerCase], whatever the case tables are. *)
Variable toLowerCase : string → string.

(** [norm(s)]: [s.trim().toLowerCase()] *)
Definition norm (s : string) : string := toLowerCase (Js.trim s).

(** *** [loadShopping], [loadPantry] *)

Definition loadShopping (hid : string) : World → World :=
  on_net (await (SelectShopping hid) LoadShopping_k).

(** [if (error) setMsg(error.message); else setShopping(data ?? [])] *)
Definition loadShopping_resume (r : Reply (list ShoppingItem))
  : World → World :=
  match r with
  | Failed message => setMsg (Some message)
  | Succeeded data => setShopping (λ _, data)
  end.

Definition loadPantry (hid : string) : World → World :=
  on_net (await (SelectPantry hid) LoadPantry_k).

Definition loadPantry_resume (r : Reply (list PantryItem))
  : World → World :=
  match r with
  | Failed message => setMsg (Some message)
  | Succeeded data => setPantry (λ _, data)
  end.

(** *** [addShopping]; [uuid] is what [crypto.randomUUID()] returns *)

Definition addShopping (uuid : string) (w : World) : World :=
  let w := setMsg None w in
  let t := Js.trim (shoppingText (page w)) in
  if falsy (Some t) || falsy (householdId (page w)) || falsy (userId (page w))
  then w
  else
    let tempId := "temp-" +:+ uuid in
    let w :=
      setShopping
        (λ prev, prev ++ [ {| id := tempId; text := t; checked := false |} ])
        w in
    let w := setShoppingText "" w in
    on_net (await (InsertShopping (default "" (householdId (page w))) t
                                  (default "" (userId (page w))))
                  (AddShopping_k tempId)) w.

Definition addShopping_resume (tempId : string) (r : Reply ShoppingItem)
  : World → World :=
  match r with
  | Failed message => λ w,
      setShopping (filter (λ x, id x ≠ tempId)) (setMsg (Some message) w)
  | Succeeded data =>
      setShopping (fmap (λ x, if decide (id x = tempId) then data else x))
  end.

(** *** [toggleShopping] *)

Definition toggleShopping (item : ShoppingItem) (w : World) : World :=
  let w := setMsg None w in
  let w :=
    setShopping
      (fmap (λ x, if decide (id x = id item)
                  then with_checked x (negb (checked x)) else x))
      w in
  on_net (await (UpdateShoppingChecked (id item) (negb (checked item)))
                (ToggleShopping_k item)) w.

Definition toggleShopping_resume (item : ShoppingItem) (r : Reply ())
  : World → World :=
  match r with
  | Failed message => λ w,
      setShopping
        (fmap (λ x, if decide (id x = id item)
                    then with_checked x (checked item) else x))
        (setMsg (Some message) w)
  | Succeeded _ => λ w, w
  end.

(** *** [removeShopping]; [snapshot] is the [shopping] the handler sees *)

Definition removeShopping (item : ShoppingItem) (w : World) : World :=
  let w := setMsg None w in
  let snapshot := shopping (page w) in
  let w := setShopping (filter (λ x, id x ≠ id item)) w in
  on_net (await (DeleteShopping (id item)) (RemoveShopping_k item snapshot)) w.

(** [if (error) { setMsg(error.message); setShopping(snapshot); }], the
    end of [removeShopping] and of [clearChecked]. *)
Definition restore_shopping (snapshot : list ShoppingItem) (r : Reply ())
  : World → World :=
  match r with
  | Failed message => λ w,
      setShopping (λ _, snapshot) (setMsg (Some message) w)
  | Succeeded _ => λ w, w
  end.

Definition removeShopping_resume := restore_shopping.

(** *** [clearChecked] *)

Definition clearChecked (w : World) : World :=
  let w := setMsg None w in
  if falsy (householdId (page w)) then w
  else
    let checkedIds := id <$> filter (λ s, checked s = true) (shopping (page w)) in
    match checkedIds with
    | [] => w
    | _ :: _ =>
        let snapshot := shopping (page w) in
        let w := setShopping (filter (λ x, checked x = false)) w in
        on_net (await (DeleteShoppingIn checkedIds) (ClearChecked_k snapshot)) w
    end.

Definition clearChecked_resume := restore_shopping.

(** *** [moveToPantry]: the insert is skipped when the pantry has the name *)

Definition moveToPantry (item : ShoppingItem) (w : World) : World :=
  let w := setMsg None w in
  if falsy (householdId (page w)) || falsy (userId (page w)) then w
  else
    let name := Js.trim (text item) in
    if falsy (Some name) then w
    else
      let snapshot := shopping (page w) in
      let pantryNameSet := (λ p, norm (p_name p)) <$> pantry (page w) in
      let w := setShopping (filter (λ x, id x ≠ id item)) w in
      if bool_decide (norm name ∈ pantryNameSet)
      then on_net (await (DeleteShopping (id item)) (MoveDeleted_k snapshot)) w
      else
        on_net (await (InsertPantry (default "" (householdId (page w))) name
                                    None None (default "" (userId (page w))))
                      (MoveInserted_k item snapshot)) w.

(** After the insert: [if (insErr) throw ...], caught by
    [setMsg(e.message); setShopping(snapshot)]; else the delete. *)
Definition moveToPantry_inserted (item : ShoppingItem)
    (snapshot : list ShoppingItem) (r : Reply ()) : World → World :=
  match r with
  | Failed message => λ w,
      setShopping (λ _, snapshot) (setMsg (Some message) w)
  | Succeeded _ =>
      on_net (await (DeleteShopping (id item)) (MoveDeleted_k snapshot))
  end.

Definition moveToPantry_deleted := restore_shopping.

(** *** [addPantry]; [number] is [Number(pantryQty)] *)

Definition addPantry (uuid : string) (number : float) (w : World) : World :=
  let w := setMsg None w in
  let n := Js.trim (pantryName (page w)) in
  if falsy (Some n) || falsy (householdId (page w)) || falsy (userId (page w))
  then w
  else
    let blank := falsy (Some (Js.trim (pantryQty (page w)))) in
    let q := if blank then None else Some number in
    if negb blank && Js.isNaN number
    then setMsg (Some "Mängd måste vara ett nummer.") w
    else
      let tempId := "temp-" +:+ uuid in
      let unit_ :=
        let u := Js.trim (pantryUnit (page w)) in
        if falsy (Some u) then None else Some u in
      let optimistic :=
        {| p_id := tempId; p_name := n; p_qty := q; p_unit := unit_ |} in
      let hid := default "" (householdId (page w)) in
      let uid := default "" (userId (page w)) in
      let w := setPantry (λ prev, prev ++ [optimistic]) w in
      let w := setPantryName "" w in
      let w := setPantryQty "" w in
      let w := setPantryUnit "st" w in
      on_net (await (InsertPantry hid n q unit_ uid) (AddPantry_k tempId)) w.

Definition addPantry_resume (tempId : string) (r : Reply PantryItem)
  : World → World :=
  match r with
  | Failed message => λ w,
      setPantry (filter (λ x, p_id x ≠ tempId)) (setMsg (Some message) w)
  | Succeeded data =>
      setPantry (fmap (λ x, if decide (p_id x = tempId) then data else x))
  end.

(** *** [schedulePantryUpdate] and the callback it arms *)

Definition schedulePantryUpdate (id : string) (patch : PantryPatch)
    (w : World) : World :=
  let w :=
    setPantry
      (fmap (λ x, if decide (p_id x = id) then patched x patch else x)) w in
  let '(registry, t) :=
    debounce id (id, patch) (pantryTimers (page w)) (timers w) in
  setTimers t (setPantryTimers registry w).

(** The timer with handle [h] fires: its callback awaits the update. *)
Definition timeout (h : nat) (w : World) : World :=
  match pending (timers w) !! h with
  | Some (id, patch) =>
      on_net (await (UpdatePantry id patch) PantryUpdate_k)
             (setTimers (fired h (timers w)) w)
  | None => w
  end.

(** [if (error) setMsg(error.message)] *)
Definition pantryUpdate_resume (r : Reply ()) : World → World :=
  match r with
  | Failed message => setMsg (Some message)
  | Succeeded _ => λ w, w
  end.

(** *** [removePantry] *)

Definition removePantry (item : PantryItem) (w : World) : World :=
  let w := setMsg None w in
  let snapshot := pantry (page w) in
  let w := setPantry (filter (λ x, p_id x ≠ p_id item)) w in
  on_net (await (DeletePantry (p_id item)) (RemovePantry_k snapshot)) w.

Definition removePantry_resume (snapshot : list PantryItem) (r : Reply ())
  : World → World :=
  match r with
  | Failed message => λ w,
      setPantry (λ _, snapshot) (setMsg (Some message) w)
  | Succeeded _ => λ w, w
  end.

(** *** Everything that can happen to the page *)

Inductive Event :=
| TypeShoppingText (s : string)
| TypePantryName (s : string)
| TypePantryQty (s : string)
| TypePantryUnit (s : string)
| AddShopping (uuid : string)
| ToggleShopping (item : ShoppingItem)
| RemoveShopping (item : ShoppingItem)
| ClearChecked
| MoveToPantry (item : ShoppingItem)
| AddPantry (uuid : string) (number : float)
| SchedulePantryUpdate (id : string) (patch : PantryPatch)
| RemovePantry (item : PantryItem)
| LoadShopping (hid : string)
| LoadPantry (hid : string)
| Timeout (h : nat)
| Written (req : nat) (r : Reply ())
| Inserted (req : nat) (r : Reply ShoppingItem)
| PantryInserted (req : nat) (r : Reply PantryItem)
| ShoppingRead (req : nat) (r : Reply (list ShoppingItem))
| PantryRead (req : nat) (r : Reply (list PantryItem)).

(** The function that awaits a write, given what its closure holds. *)
Definition written (k : Cont) : option (Reply () → World → World) :=
  match k with
  | ToggleShopping_k item => Some (toggleShopping_resume item)
  | RemoveShopping_k _ snapshot => Some (removeShopping_resume snapshot)
  | ClearChecked_k snapshot => Some (clearChecked_resume snapshot)
  | MoveInserted_k item snapshot => Some (moveToPantry_inserted item snapshot)
  | MoveDeleted_k snapshot => Some (moveToPantry_deleted snapshot)
  | PantryUpdate_k => Some pantryUpdate_resume
  | RemovePantry_k snapshot => Some (removePantry_resume snapshot)
  | LoadShopping_k | LoadPantry_k | AddShopping_k _ | AddPantry_k _ => None
  end.

(** A reply resumes the function that awaits it; a reply nobody awaits,
    or of the wrong shape for its request, is not delivered. *)
Definition step (e : Event) (w : World) : World :=
  match e with
  | TypeShoppingText s => setShoppingText s w
  | TypePantryName s => setPantryName s w
  | TypePantryQty s => setPantryQty s w
  | TypePantryUnit s => setPantryUnit s w
  | AddShopping uuid => addShopping uuid w
  | ToggleShopping item => toggleShopping item w
  | RemoveShopping item => removeShopping item w
  | ClearChecked => clearChecked w
  | MoveToPantry item => moveToPantry item w
  | AddPantry uuid number => addPantry uuid number w
  | SchedulePantryUpdate id patch => schedulePantryUpdate id patch w
  | RemovePantry item => removePantry item w
  | LoadShopping hid => loadShopping hid w
  | LoadPantry hid => loadPantry hid w
  | Timeout h => timeout h w
  | Written req r =>
      match awaiting (net w) !! req ≫= written with
      | Some f => f r (on_net (resume req) w)
      | None => w
      end
  | Inserted req r =>
      match awaiting (net w) !! req with
      | Some (AddShopping_k tempId) =>
          addShopping_resume tempId r (on_net (resume req) w)
      | _ => w
      end
  | PantryInserted req r =>
      match awaiting (net w) !! req with
      | Some (AddPantry_k tempId) =>
          addPantry_resume tempId r (on_net (resume req) w)
      | _ => w
      end
  | ShoppingRead req r =>
      match awaiting (net w) !! req with
      | Some LoadShopping_k => loadShopping_resume r (on_net (resume req) w)
      | _ => w
      end
  | PantryRead req r =>
      match awaiting (net w) !! req with
      | Some LoadPantry_k => loadPantry_resume r (on_net (resume req) w)
      | _ => w
      end
  end.

Definition run (es : list Event) (w : World) : World :=
  foldl (λ w e, step e w) w es.

End WithLowerCase.

(** The page after [init] found the user and the household and before
    anything was loaded. *)
Definition mounted (hid uid : string) : World :=
  {| page := {| householdId := Some hid; userId := Some uid;
                shopping := []; shoppingText := "";
                pantry := []; pantryName := ""; pantryQty := "";
                pantryUnit := "st"; msg := None; pantryTimers := ∅ |};
     net := idle;
     timers := no_timers |}.

End Shopping.

(** ** TasksEventsPage.tsx: the debounced event edits *)

Module TasksEvents.
Import Env.

Record EventRow := {
  id : string;
  title : string;
  starts_at : string;
  notes : option string;
}.

(** [Partial<EventRow>] *)
Record EventPatch := {
  set_id : option string;
  set_title : option string;
  set_starts_at : option string;
  set_notes : option (option string);
}.

Definition patched (x : EventRow) (patch : EventPatch) : EventRow :=
  {| id := default (id x) (set_id patch);
     title := default (title x) (set_title patch);
     starts_at := default (starts_at x) (set_starts_at patch);
     notes := default (notes x) (set_notes patch) |}.

Inductive Call :=
| UpdateEvent (event_id : string) (patch : EventPatch).

Inductive Cont :=
| EventUpdate_k.

(** The cells of the component that the event edits touch. *)
Record World := {
  events : list EventRow;
  msg : option string;
  eventTimers : gmap string nat;
  net : Net Call Cont;
  timers : Timers (string * EventPatch);
}.

Section WithDate.
(** [+new Date(s)]: the time value of a timestamp string. *)
Variable time_value : string → Z.

(** [(a, b) => +new Date(a.starts_at) - +new Date(b.starts_at)] *)
Definition by_start (a b : EventRow) : Z :=
  time_value (starts_at a) - time_value (starts_at b).

Definition scheduleEventPatch (id_ : string) (patch : EventPatch)
    (w : World) : World :=
  let events' :=
    Js.sort by_start
      ((λ x, if decide (id x = id_) then patched x patch else x)
         <$> events w) in
  let '(registry, t) :=
    debounce id_ (id_, patch) (eventTimers w) (timers w) in
  {| events := events'; msg := msg w; eventTimers := registry;
     net := net w; timers := t |}.
End WithDate.

Definition timeout (h : nat) (w : World) : World :=
  match pending (timers w) !! h with
  | Some (id_, patch) =>
      {| events := events w; msg := msg w; eventTimers := eventTimers w;
         net := await (UpdateEvent id_ patch) EventUpdate_k (net w);
         timers := fired h (timers w) |}
  | None => w
  end.

(** [if (error) setMsg(error.message)] *)
Definition eventUpdate_resume (r : Reply ()) (w : World) : World :=
  match r with
  | Failed message =>
      {| events := events w; msg := Some message;
         eventTimers := eventTimers w; net := net w; timers := timers w |}
  | Succeeded _ => w
  end.

Inductive Event :=
| ScheduleEventPatch (id : string) (patch : EventPatch)
| Timeout (h : nat)
| Written (req : nat) (r : Reply ()).

Definition step (time_value : string → Z) (e : Event) (w : World) : World :=
  match e with
  | ScheduleEventPatch id_ patch => scheduleEventPatch time_value id_ patch w
  | Timeout h => timeout h w
  | Written req r =>
      match awaiting (net w) !! req with
      | Some EventUpdate_k =>
          eventUpdate_resume r
            {| events := events w; msg := msg w;
               eventTimers := eventTimers w; net := resume req (net w);
               timers := timers w |}
      | None => w
      end
  end.

Definition run (time_value : string → Z) (es : list Event) (w : World)
  : World :=
  foldl (λ w e, step time_value e w) w es.

(** The page once the events [rows] are loaded. *)
Definition mounted (rows : list EventRow) : World :=
  {| events := rows; msg := None; eventTimers := ∅;
     net := idle; timers := no_timers |}.

End TasksEvents.

(** ** EconomyPage.tsx: the expense actions *)

Module EconomyPage.
Import Env.

(** An expense as the page holds it.  The amount is a double: what
    [addExpense] puts in is [Math.round(num * 100)] for the number typed,
    which need not be an amount that the store holds as an integer. *)
Record Expense := {
  id : string;
  household_id : string;
  paid_by : string;
  title : string;
  amount_ore : float;
  created_by : string;
  created_at : string;
}.

Inductive Call :=
| SelectExpenses (hid : string)
| InsertExpense (household_id paid_by title : string) (amount_ore : float)
                (created_by : string)
| DeleteExpense (expense_id : string).

Inductive Cont :=
| LoadExpenses_k
| AddExpense_k (tempId : string)
| RemoveExpense_k (snapshot : list Expense).

Record World := {
  householdId : option string;
  userId : option string;
  expenses : list Expense;
  title_input : string;
  amountKr : string;
  msg : option string;
  net : Net Call Cont;
}.

Definition setMsg (m : option string) (w : World) : World :=
  {| householdId := householdId w; userId := userId w;
     expenses := expenses w; title_input := title_input w;
     amountKr := amountKr w; msg := m; net := net w |}.

Definition setExpenses (f : list Expense → list Expense) (w : World) : World :=
  {| householdId := householdId w; userId := userId w;
     expenses := f (expenses w); title_input := title_input w;
     amountKr := amountKr w; msg := msg w; net := net w |}.

Definition setInputs (t a : string) (w : World) : World :=
  {| householdId := householdId w; userId := userId w;
     expenses := expenses w; title_input := t;
     amountKr := a; msg := msg w; net := net w |}.

Definition on_net (f : Net Call Cont → Net Call Cont) (w : World) : World :=
  {| householdId := householdId w; userId := userId w;
     expenses := expenses w; title_input := title_input w;
     amountKr := amountKr w; msg := msg w; net := f (net w) |}.

(** [loadExpenses] as the realtime channel calls it. *)
Definition loadExpenses (hid : string) : World → World :=
  on_net (await (SelectExpenses hid) LoadExpenses_k).

(** [if (error) throw new Error(error.message); setExpenses(data ?? [])].
    The channel callback drops the rejected promise: nothing is set. *)
Definition loadExpenses_resume (r : Reply (list Expense)) : World → World :=
  match r with
  | Failed _ => λ w, w
  | Succeeded data => setExpenses (λ _, data)
  end.

(** [s.replace(",", ".")]: the first comma only. *)
Fixpoint replace_comma (s : string) : string :=
  match s with
  | EmptyString => EmptyString
  | String a s' =>
      if Ascii.eqb a ","%char then String "."%char s' else String a (replace_comma s')
  end.

Section WithNumber.
(** [Number(s)] *)
Variable Number : string → float.

(** [uuid] is [crypto.randomUUID()], [now] is [new Date().toISOString()]. *)
Definition addExpense (uuid now : string) (w : World) : World :=
  let w := setMsg None w in
  if falsy (householdId w) || falsy (userId w) then w
  else
    let hid := default "" (householdId w) in
    let uid := default "" (userId w) in
    let t := Js.trim (title_input w) in
    if falsy (Some t) then w
    else
      let cleaned := Js.trim (replace_comma (amountKr w)) in
      let num := Number cleaned in
      if falsy (Some cleaned) || Js.isNaN num || (num <=? 0)%float
      then setMsg (Some "Summa måste vara ett nummer > 0.") w
      else
        let ore := Js.Math_round (num * 100)%float in
        let tempId := "temp-" +:+ uuid in
        let optimistic :=
          {| id := tempId; household_id := hid; paid_by := uid;
             title := t; amount_ore := ore; created_by := uid;
             created_at := now |} in
        let w := setExpenses (λ prev, optimistic :: prev) w in
        let w := setInputs "" "" w in
        on_net (await (InsertExpense hid uid t ore uid)
                      (AddExpense_k tempId)) w.
End WithNumber.

Definition addExpense_resume (tempId : string) (r : Reply Expense)
  : World → World :=
  match r with
  | Failed message => λ w,
      setExpenses (filter (λ x, id x ≠ tempId)) (setMsg (Some message) w)
  | Succeeded data =>
      setExpenses (fmap (λ x, if decide (id x = tempId) then data else x))
  end.

Definition removeExpense (e : Expense) (w : World) : World :=
  let w := setMsg None w in
  let snapshot := expenses w in
  let w := setExpenses (filter (λ x, id x ≠ id e)) w in
  on_net (await (DeleteExpense (id e)) (RemoveExpense_k snapshot)) w.

Definition removeExpense_resume (snapshot : list Expense) (r : Reply ())
  : World → World :=
  match r with
  | Failed message => λ w,
      setExpenses (λ _, snapshot) (setMsg (Some message) w)
  | Succeeded _ => λ w, w
  end.

End EconomyPage.

(** ** EconomyPage.tsx: what the render derives from members and expenses *)

Module EconomyRender.
Import Env Economy.

(** [memberById]: [members.forEach((x) => m.set(x.user_id, x))] *)
Definition memberById (members : list Member) : gmap string Member :=
  foldl (λ m x, <[user_id x := x]> m) ∅ members.

(** The element type of [groupedExpenses]:
    [{ member; items; total_ore }]. *)
Record Group := {
  member : Member;
  items : list Expense;
  total_ore : Z;
}.

(** The local map [by] of [groupedExpenses]:
    [const arr = by.get(e.paid_by) ?? []; arr.push(e); by.set(e.paid_by, arr)]. *)
Definition by_payer (expenses : list Expense) : gmap string (list Expense) :=
  foldl (λ by_ e, <[paid_by e := default [] (by_ !! paid_by e) ++ [e]]> by_)
        ∅ expenses.

Definition groupedExpenses (members : list Member) (expenses : list Expense)
  : list Group :=
  (λ m, {| member := m;
           items := default [] (by_payer expenses !! user_id m);
           total_ore := default 0 (totalsByUser expenses !! user_id m) |})
    <$> members.

(** [userId ? (memberById.get(userId)?.display_name || "").trim() || "Jag"
            : "Jag"] *)
Definition meName (userId : option string) (members : list Member) : string :=
  if falsy userId then "Jag"
  else
    Js.or_else
      (Js.trim (from_option display_name ""
                            (memberById members !! default "" userId)))
      "Jag".

(** [Math.round(totalOre / Math.max(1, members.length))] *)
Definition sharePerPersonOre (members : list Member) (expenses : list Expense)
  : Z :=
  Js.round (inject_Z (totalOre expenses)
            / inject_Z (Z.max 1 (Z.of_nat (length members))))%Q.

End EconomyRender.

(** ** TasksEventsPage.tsx: the todos and the events *)

Module TasksPage.
Import Env.

Record Todo := {
  id : string;
  title : string;
  done : bool;
}.

(** [{ ...x, done: v }] *)
Definition with_done (x : Todo) (v : bool) : Todo :=
  {| id := id x; title := title x; done := v |}.

Inductive Call :=
| SelectTodos (hid : string)
| SelectEvents (hid : string)
| InsertTodo (household_id title created_by : string)
| UpdateTodo (todo_id : string) (done : bool) (done_at : option string)
| DeleteTodo (todo_id : string)
| DeleteTodosIn (todo_ids : list string)
| InsertEvent (household_id title starts_at : string) (notes : option string)
              (created_by : string)
| DeleteEvent (event_id : string).

Inductive Cont :=
| LoadTodos_k
| LoadEvents_k
| AddTodo_k (tempId : string)
| ToggleTodo_k (t : Todo)
| RemoveTodo_k (snapshot : list Todo)
| ClearDoneTodos_k (snapshot : list Todo)
| AddEvent_k (tempId : string)
| RemoveEvent_k (snapshot : list TasksEvents.EventRow).

(** The state cells of the component, the ones of the debounced edits
    (see [TasksEvents]) aside. *)
Record World := {
  householdId : option string;
  userId : option string;
  todos : list Todo;
  events : list TasksEvents.EventRow;
  todoTitle : string;
  eventTitle : string;
  eventStartsAt : string;
  eventNotes : string;
  msg : option string;
  net : Net Call Cont;
}.

Definition setMsg (m : option string) (w : World) : World :=
  {| householdId := householdId w; userId := userId w; todos := todos w;
     events := events w; todoTitle := todoTitle w; eventTitle := eventTitle w;
     eventStartsAt := eventStartsAt w; eventNotes := eventNotes w;
     msg := m; net := net w |}.

Definition setTodos (f : list Todo → list Todo) (w : World) : World :=
  {| householdId := householdId w; userId := userId w; todos := f (todos w);
     events := events w; todoTitle := todoTitle w; eventTitle := eventTitle w;
     eventStartsAt := eventStartsAt w; eventNotes := eventNotes w;
     msg := msg w; net := net w |}.

Definition setEvents
    (f : list TasksEvents.EventRow → list TasksEvents.EventRow) (w : World)
  : World :=
  {| householdId := householdId w; userId := userId w; todos := todos w;
     events := f (events w); todoTitle := todoTitle w;
     eventTitle := eventTitle w; eventStartsAt := eventStartsAt w;
     eventNotes := eventNotes w; msg := msg w; net := net w |}.

Definition setTodoTitle (s : string) (w : World) : World :=
  {| householdId := householdId w; userId := userId w; todos := todos w;
     events := events w; todoTitle := s; eventTitle := eventTitle w;
     eventStartsAt := eventStartsAt w; eventNotes := eventNotes w;
     msg := msg w; net := net w |}.

Definition setEventTitle (s : string) (w : World) : World :=
  {| householdId := householdId w; userId := userId w; todos := todos w;
     events := events w; todoTitle := todoTitle w; eventTitle := s;
     eventStartsAt := eventStartsAt w; eventNotes := eventNotes w;
     msg := msg w; net := net w |}.

Definition setEventStartsAt (s : string) (w : World) : World :=
  {| householdId := householdId w; userId := userId w; todos := todos w;
     events := events w; todoTitle := todoTitle w; eventTitle := eventTitle w;
     eventStartsAt := s; eventNotes := eventNotes w;
     msg := msg w; net := net w |}.

Definition setEventNotes (s : string) (w : World) : World :=
  {| householdId := householdId w; userId := userId w; todos := todos w;
     events := events w; todoTitle := todoTitle w; eventTitle := eventTitle w;
     eventStartsAt := eventStartsAt w; eventNotes := s;
     msg := msg w; net := net w |}.

Definition on_net (f : Net Call Cont → Net Call Cont) (w : World) : World :=
  {| householdId := householdId w; userId := userId w; todos := todos w;
     events := events w; todoTitle := todoTitle w; eventTitle := eventTitle w;
     eventStartsAt := eventStartsAt w; eventNotes := eventNotes w;
     msg := msg w; net := f (net w) |}.

(** *** The counters of the header *)

Definition openTodosCount (todos : list Todo) : nat :=
  length (filter (λ t, done t = false) todos).

(** [now] is [Date.now()]. *)
Definition upcomingEventsCount (time_value : string → Z) (now : Z)
    (events : list TasksEvents.EventRow) : nat :=
  length (filter (λ e, now <= time_value (TasksEvents.starts_at e)) events).

(** *** [loadTodos], [loadEvents], [loadAll] *)

Definition loadTodos (hid : string) : World → World :=
  on_net (await (SelectTodos hid) LoadTodos_k).

Definition loadTodos_resume (r : Reply (list Todo)) : World → World :=
  match r with
  | Failed message => setMsg (Some message)
  | Succeeded data => setTodos (λ _, data)
  end.

Definition loadEvents (hid : string) : World → World :=
  on_net (await (SelectEvents hid) LoadEvents_k).

Definition loadEvents_resume (r : Reply (list TasksEvents.EventRow))
  : World → World :=
  match r with
  | Failed message => setMsg (Some message)
  | Succeeded data => setEvents (λ _, data)
  end.

(** [Promise.all([loadTodos(hid), loadEvents(hid)])]: both reads are
    issued before either reply is awaited. *)
Definition loadAll (hid : string) (w : World) : World :=
  loadEvents hid (loadTodos hid w).

(** *** [addTodo]; [uuid] is what [crypto.randomUUID()] returns *)

Definition addTodo (uuid : string) (w : World) : World :=
  let w := setMsg None w in
  if falsy (householdId w) || falsy (userId w) then w
  else
    let title_ := Js.trim (todoTitle w) in
    if falsy (Some title_) then w
    else
      let tempId := "temp-" +:+ uuid in
      let w :=
        setTodos
          (λ prev, {| id := tempId; title := title_; done := false |} :: prev)
          w in
      let w := setTodoTitle "" w in
      on_net (await (InsertTodo (default "" (householdId w)) title_
                                (default "" (userId w)))
                    (AddTodo_k tempId)) w.

Definition addTodo_resume (tempId : string) (r : Reply Todo) : World → World :=
  match r with
  | Failed message => λ w,
      setTodos (filter (λ x, id x ≠ tempId)) (setMsg (Some message) w)
  | Succeeded data =>
      setTodos (fmap (λ x, if decide (id x = tempId) then data else x))
  end.

(** *** [toggleTodo]; [now] is [new Date().toISOString()] *)

Definition toggleTodo (now : string) (t : Todo) (w : World) : World :=
  let w := setMsg None w in
  let next := negb (done t) in
  let w :=
    setTodos
      (fmap (λ x, if decide (id x = id t) then with_done x next else x)) w in
  on_net (await (UpdateTodo (id t) next (if next then Some now else None))
                (ToggleTodo_k t)) w.

Definition toggleTodo_resume (t : Todo) (r : Reply ()) : World → World :=
  match r with
  | Failed message => λ w,
      setTodos
        (fmap (λ x, if decide (id x = id t) then with_done x (done t) else x))
        (setMsg (Some message) w)
  | Succeeded _ => λ w, w
  end.

(** *** [removeTodo], [clearDoneTodos] *)

Definition removeTodo (t : Todo) (w : World) : World :=
  let w := setMsg None w in
  let snapshot := todos w in
  let w := setTodos (filter (λ x, id x ≠ id t)) w in
  on_net (await (DeleteTodo (id t)) (RemoveTodo_k snapshot)) w.

(** [if (error) { setMsg(error.message); setTodos(snapshot); }] *)
Definition restore_todos (snapshot : list Todo) (r : Reply ())
  : World → World :=
  match r with
  | Failed message => λ w, setTodos (λ _, snapshot) (setMsg (Some message) w)
  | Succeeded _ => λ w, w
  end.

Definition removeTodo_resume := restore_todos.

Definition clearDoneTodos (w : World) : World :=
  let w := setMsg None w in
  let doneIds := id <$> filter (λ t, done t = true) (todos w) in
  match doneIds with
  | [] => w
  | _ :: _ =>
      let snapshot := todos w in
      let w := setTodos (filter (λ t, done t = false)) w in
      on_net (await (DeleteTodosIn doneIds) (ClearDoneTodos_k snapshot)) w
  end.

Definition clearDoneTodos_resume := restore_todos.

(** *** [addEvent], [removeEvent] *)

Section WithDate.
(** [+new Date(s)], and [fromLocalInputValue], which is
    [new Date(local).toISOString()]: [None] when the date is invalid and
    [toISOString] throws. *)
Variable time_value : string → Z.
Variable fromLocalInputValue : string → option string.

Definition addEvent (uuid : string) (w : World) : World :=
  let w := setMsg None w in
  if falsy (householdId w) || falsy (userId w) then w
  else
    let title_ := Js.trim (eventTitle w) in
    if falsy (Some title_) then w
    else if falsy (Some (Js.trim (eventStartsAt w)))
    then setMsg (Some "Välj datum & tid för evenemanget.") w
    else
      match fromLocalInputValue (eventStartsAt w) with
      | None => w
      | Some starts_at_ =>
          let notes_ :=
            if falsy (Some (Js.trim (eventNotes w))) then None
            else Some (Js.trim (eventNotes w)) in
          let tempId := "temp-" +:+ uuid in
          let optimistic :=
            {| TasksEvents.id := tempId; TasksEvents.title := title_;
               TasksEvents.starts_at := starts_at_;
               TasksEvents.notes := notes_ |} in
          let w :=
            setEvents
              (λ prev, Js.sort (TasksEvents.by_start time_value)
                               (prev ++ [optimistic])) w in
          let w := setEventNotes "" (setEventStartsAt "" (setEventTitle "" w)) in
          on_net (await (InsertEvent (default "" (householdId w)) title_
                                     starts_at_ notes_
                                     (default "" (userId w)))
                        (AddEvent_k tempId)) w
      end.

Definition addEvent_resume (tempId : string) (r : Reply TasksEvents.EventRow)
  : World → World :=
  match r with
  | Failed message => λ w,
      setEvents (filter (λ x, TasksEvents.id x ≠ tempId))
                (setMsg (Some message) w)
  | Succeeded data =>
      setEvents
        (λ prev,
           Js.sort (TasksEvents.by_start time_value)
                   ((λ x, if decide (TasksEvents.id x = tempId) then data else x)
                      <$> prev))
  end.
End WithDate.

Definition removeEvent (e : TasksEvents.EventRow) (w : World) : World :=
  let w := setMsg None w in
  let snapshot := events w in
  let w := setEvents (filter (λ x, TasksEvents.id x ≠ TasksEvents.id e)) w in
  on_net (await (DeleteEvent (TasksEvents.id e)) (RemoveEvent_k snapshot)) w.

Definition removeEvent_resume (snapshot : list TasksEvents.EventRow)
    (r : Reply ()) : World → World :=
  match r with
  | Failed message => λ w, setEvents (λ _, snapshot) (setMsg (Some message) w)
  | Succeeded _ => λ w, w
  end.

(** *** Everything that can happen to these cells *)

Inductive Event :=
| TypeTodoTitle (s : string)
| TypeEventTitle (s : string)
| TypeEventStartsAt (s : string)
| TypeEventNotes (s : string)
| AddTodo (uuid : string)
| ToggleTodo (now : string) (t : Todo)
| RemoveTodo (t : Todo)
| ClearDoneTodos
| AddEvent (uuid : string)
| RemoveEvent (e : TasksEvents.EventRow)
| LoadTodos (hid : string)
| LoadEvents (hid : string)
| LoadAll (hid : string)
| Written (req : nat) (r : Reply ())
| TodoInserted (req : nat) (r : Reply Todo)
| EventInserted (req : nat) (r : Reply TasksEvents.EventRow)
| TodosRead (req : nat) (r : Reply (list Todo))
| EventsRead (req : nat) (r : Reply (list TasksEvents.EventRow)).

(** The function that awaits a write, given what its closure holds. *)
Definition written (k : Cont) : option (Reply () → World → World) :=
  match k with
  | ToggleTodo_k t => Some (toggleTodo_resume t)
  | RemoveTodo_k snapshot => Some (removeTodo_resume snapshot)
  | ClearDoneTodos_k snapshot => Some (clearDoneTodos_resume snapshot)
  | RemoveEvent_k snapshot => Some (removeEvent_resume snapshot)
  | LoadTodos_k | LoadEvents_k | AddTodo_k _ | AddEvent_k _ => None
  end.

Section Step.
Variable time_value : string → Z.
Variable fromLocalInputValue : string → option string.

Definition step (e : Event) (w : World) : World :=
  match e with
  | TypeTodoTitle s => setTodoTitle s w
  | TypeEventTitle s => setEventTitle s w
  | TypeEventStartsAt s => setEventStartsAt s w
  | TypeEventNotes s => setEventNotes s w
  | AddTodo uuid => addTodo uuid w
  | ToggleTodo now t => toggleTodo now t w
  | RemoveTodo t => removeTodo t w
  | ClearDoneTodos => clearDoneTodos w
  | AddEvent uuid => addEvent time_value fromLocalInputValue uuid w
  | RemoveEvent e => removeEvent e w
  | LoadTodos hid => loadTodos hid w
  | LoadEvents hid => loadEvents hid w
  | LoadAll hid => loadAll hid w
  | Written req r =>
      match awaiting (net w) !! req ≫= written with
      | Some f => f r (on_net (resume req) w)
      | None => w
      end
  | TodoInserted req r =>
      match awaiting (net w) !! req with
      | Some (AddTodo_k tempId) =>
          addTodo_resume tempId r (on_net (resume req) w)
      | _ => w
      end
  | EventInserted req r =>
      match awaiting (net w) !! req with
      | Some (AddEvent_k tempId) =>
          addEvent_resume time_value tempId r (on_net (resume req) w)
      | _ => w
      end
  | TodosRead req r =>
      match awaiting (net w) !! req with
      | Some LoadTodos_k => loadTodos_resume r (on_net (resume req) w)
      | _ => w
      end
  | EventsRead req r =>
      match awaiting (net w) !! req with
      | Some LoadEvents_k => loadEvents_resume r (on_net (resume req) w)
      | _ => w
      end
  end.

Definition run (es : list Event) (w : World) : World :=
  foldl (λ w e, step e w) w es.
End Step.

(** The page after [init] found the user and the household and before
    anything was loaded. *)
Definition mounted (hid uid : string) : World :=
  {| householdId := Some hid; userId := Some uid; todos := []; events := [];
     todoTitle := ""; eventTitle := ""; eventStartsAt := ""; eventNotes := "";
     msg := None; net := idle |}.

End TasksPage.

(** ** TasksEventsPage.tsx, TodosPage: todos that are written, then read
       again *)

Module TodosPage.
Import Env.

Record Todo := {
  id : string;
  title : string;
  done : bool;
  assigned_to : option string;
}.

Inductive Filter := all | mine | unassigned.

(** [Array.prototype.find] *)
Fixpoint find {A} (p : A → bool) (l : list A) : option A :=
  match l with
  | [] => None
  | x :: l' => if p x then Some x else find p l'
  end.

Inductive Call :=
| SelectTodos (hid : string)
| InsertTodo (household_id title : string) (assigned_to : option string)
             (created_by : string)
| UpdateDone (todo_id : string) (done : bool) (done_at : option string)
| UpdateAssigned (todo_id : string) (assigned_to : option string)
| DeleteTodo (todo_id : string).

(** [toggleTodo], [setAssigned] and [removeTodo] end alike, with the
    [householdId] of the render they were called in. *)
Inductive Cont :=
| LoadTodos_k
| AddTodo_k (householdId : string)
| Write_k (householdId : option string).

Record World := {
  householdId : option string;
  userId : option string;
  members : list Economy.Member;
  todos : list Todo;
  title_input : string;
  assignee : string;
  filter_ : Filter;
  msg : option string;
  net : Net Call Cont;
}.

Definition setMsg (m : option string) (w : World) : World :=
  {| householdId := householdId w; userId := userId w; members := members w;
     todos := todos w; title_input := title_input w; assignee := assignee w;
     filter_ := filter_ w; msg := m; net := net w |}.

Definition setTodos (l : list Todo) (w : World) : World :=
  {| householdId := householdId w; userId := userId w; members := members w;
     todos := l; title_input := title_input w; assignee := assignee w;
     filter_ := filter_ w; msg := msg w; net := net w |}.

Definition setTitle (s : string) (w : World) : World :=
  {| householdId := householdId w; userId := userId w; members := members w;
     todos := todos w; title_input := s; assignee := assignee w;
     filter_ := filter_ w; msg := msg w; net := net w |}.

Definition setAssignee (s : string) (w : World) : World :=
  {| householdId := householdId w; userId := userId w; members := members w;
     todos := todos w; title_input := title_input w; assignee := s;
     filter_ := filter_ w; msg := msg w; net := net w |}.

Definition setFilter (f : Filter) (w : World) : World :=
  {| householdId := householdId w; userId := userId w; members := members w;
     todos := todos w; title_input := title_input w; assignee := assignee w;
     filter_ := f; msg := msg w; net := net w |}.

Definition on_net (f : Net Call Cont → Net Call Cont) (w : World) : World :=
  {| householdId := householdId w; userId := userId w; members := members w;
     todos := todos w; title_input := title_input w; assignee := assignee w;
     filter_ := filter_ w; msg := msg w; net := f (net w) |}.

(** *** [visibleTodos] and the labels *)

Definition visibleTodos (w : World) : list Todo :=
  if falsy (userId w) then todos w
  else
    match filter_ w with
    | all => todos w
    | mine => filter (λ t, assigned_to t = userId w) (todos w)
    | unassigned => filter (λ t, assigned_to t = None) (todos w)
    end.

(** [m.user_id === uid] for [uid : string | null] *)
Definition is_user (uid : option string) (m : Economy.Member) : bool :=
  bool_decide (Some (Economy.user_id m) = uid).

Definition myName (w : World) : string :=
  let me := find (is_user (userId w)) (members w) in
  let dn := Js.trim (from_option Economy.display_name "" me) in
  if falsy (Some dn) then "Jag" else dn.

Definition memberLabel (w : World) (m : Economy.Member) : string :=
  let dn := Js.trim (Economy.display_name m) in
  if is_user (userId w) m then myName w
  else if falsy (Some dn) then "Medlem " +:+ Js.slice0 6 (Economy.user_id m)
  else dn.

Definition labelForUserId (w : World) (uid : option string) : string :=
  if falsy uid then "Oassignad"
  else
    let m := find (is_user uid) (members w) in
    let dn := Js.trim (from_option Economy.display_name "" m) in
    if negb (falsy (Some dn)) then dn
    else if bool_decide (uid = userId w) then myName w
    else "Medlem " +:+ Js.slice0 6 (default "" uid).

(** *** [loadTodos] *)

Definition loadTodos (hid : string) : World → World :=
  on_net (await (SelectTodos hid) LoadTodos_k).

(** [if (error) setMsg(error.message);
     else { setMsg(null); setTodos(data ?? []); }] *)
Definition loadTodos_resume (r : Reply (list Todo)) (w : World) : World :=
  match r with
  | Failed message => setMsg (Some message) w
  | Succeeded data => setTodos data (setMsg None w)
  end.

(** *** [addTodo] *)

Definition addTodo (w : World) : World :=
  let w := setMsg None w in
  let t := Js.trim (title_input w) in
  if falsy (Some t) || falsy (householdId w) || falsy (userId w) then w
  else
    let hid := default "" (householdId w) in
    on_net (await (InsertTodo hid t
                     (if falsy (Some (assignee w)) then None
                      else Some (assignee w))
                     (default "" (userId w)))
                  (AddTodo_k hid)) w.

(** [if (error) return setMsg(error.message);
     setTitle(""); setAssignee(""); await loadTodos(householdId);] *)
Definition addTodo_resume (hid : string) (r : Reply ()) (w : World) : World :=
  match r with
  | Failed message => setMsg (Some message) w
  | Succeeded _ => loadTodos hid (setAssignee "" (setTitle "" w))
  end.

(** *** [toggleTodo], [setAssigned], [removeTodo];
        [now] is [new Date().toISOString()] *)

Definition toggleTodo (now : string) (todo : Todo) (w : World) : World :=
  let w := setMsg None w in
  let next := negb (done todo) in
  on_net (await (UpdateDone (id todo) next (if next then Some now else None))
                (Write_k (householdId w))) w.

Definition setAssigned (todo : Todo) (assigned : option string) (w : World)
  : World :=
  let w := setMsg None w in
  on_net (await (UpdateAssigned (id todo) assigned) (Write_k (householdId w))) w.

Definition removeTodo (todo : Todo) (w : World) : World :=
  let w := setMsg None w in
  on_net (await (DeleteTodo (id todo)) (Write_k (householdId w))) w.

(** [if (error) return setMsg(error.message);
     if (householdId) await loadTodos(householdId);] *)
Definition write_resume (hid : option string) (r : Reply ()) (w : World)
  : World :=
  match r with
  | Failed message => setMsg (Some message) w
  | Succeeded _ =>
      if falsy hid then w else loadTodos (default "" hid) w
  end.

(** *** Everything that can happen to the page *)

Inductive Event :=
| TypeTitle (s : string)
| PickAssignee (s : string)
| PickFilter (f : Filter)
| AddTodo
| ToggleTodo (now : string) (todo : Todo)
| SetAssigned (todo : Todo) (assigned : option string)
| RemoveTodo (todo : Todo)
| LoadTodos (hid : string)
| Written (req : nat) (r : Reply ())
| TodosRead (req : nat) (r : Reply (list Todo)).

Definition step (e : Event) (w : World) : World :=
  match e with
  | TypeTitle s => setTitle s w
  | PickAssignee s => setAssignee s w
  | PickFilter f => setFilter f w
  | AddTodo => addTodo w
  | ToggleTodo now todo => toggleTodo now todo w
  | SetAssigned todo assigned => setAssigned todo assigned w
  | RemoveTodo todo => removeTodo todo w
  | LoadTodos hid => loadTodos hid w
  | Written req r =>
      match awaiting (net w) !! req with
      | Some (AddTodo_k hid) => addTodo_resume hid r (on_net (resume req) w)
      | Some (Write_k hid) => write_resume hid r (on_net (resume req) w)
      | _ => w
      end
  | TodosRead req r =>
      match awaiting (net w) !! req with
      | Some LoadTodos_k => loadTodos_resume r (on_net (resume req) w)
      | _ => w
      end
  end.

Definition run (es : list Event) (w : World) : World :=
  foldl (λ w e, step e w) w es.

(** The page after [init] found the user, the household and the members
    and before the todos were loaded. *)
Definition mounted (hid uid : string) (ms : list Economy.Member) : World :=
  {| householdId := Some hid; userId := Some uid; members := ms; todos := [];
     title_input := ""; assignee := ""; filter_ := all; msg := None;
     net := idle |}.

End TodosPage.

(** ** TasksEventsPage.tsx, OverviewPage: the settlement card *)

Module Overview.

(** The element type of [balances]: [{ display_name; balance_ore }]. *)
Record Balance := {
  display_name : string;
  balance_ore : Z;
}.

(** The columns the page selects from [expenses]. *)
Record Expense := {
  id : string;
  paid_by : string;
  amount_ore : Z;
  title : string;
  created_at : string;
}.

Definition roundOre (n : Q) : Z := Js.round n.

(** [{ ...b, balance_ore: v }] *)
Definition with_balance (b : Balance) (v : Z) : Balance :=
  {| display_name := display_name b; balance_ore := v |}.

Definition by_balance_desc (a b : Balance) : Z :=
  balance_ore b - balance_ore a.

Definition creditors_of (balances : list Balance) : list Balance :=
  Js.sort by_balance_desc
    ((λ b, with_balance b (balance_ore b))
       <$> filter (λ b, 0 < balance_ore b) balances).

Definition debtors_of (balances : list Balance) : list Balance :=
  Js.sort by_balance_desc
    ((λ b, with_balance b (- balance_ore b))
       <$> filter (λ b, balance_ore b < 0) balances).

Record Loop := {
  debtors : list Balance;
  creditors : list Balance;
  lines : list Economy.Line;
  i : nat;
  j : nat;
}.

Definition loop_body (st : Loop) : option Loop :=
  match debtors st !! i st, creditors st !! j st with
  | Some d, Some c =>
      let x := Z.min (balance_ore d) (balance_ore c) in
      let d' := with_balance d (balance_ore d - x) in
      let c' := with_balance c (balance_ore c - x) in
      Some {|
        debtors := <[i st := d']> (debtors st);
        creditors := <[j st := c']> (creditors st);
        lines :=
          if 0 <? x
          then lines st ++ [ {| Economy.line_from := display_name d;
                                Economy.line_to := display_name c;
                                Economy.line_amount_ore := x |} ]
          else lines st;
        i := if balance_ore d' <=? 0 then S (i st) else i st;
        j := if balance_ore c' <=? 0 then S (j st) else j st;
      |}
  | _, _ => None
  end.

Fixpoint while_loop (fuel : nat) (st : Loop) : option Loop :=
  match loop_body st with
  | None => Some st
  | Some st' =>
      match fuel with
      | O => None
      | S fuel' => while_loop fuel' st'
      end
  end.

Definition loop_init (balances : list Balance) : Loop :=
  {| debtors := debtors_of balances;
     creditors := creditors_of balances;
     lines := [];
     i := 0%nat;
     j := 0%nat |}.

Definition computeSettlements (fuel : nat) (balances : list Balance)
  : option (list Economy.Line) :=
  lines <$> while_loop fuel (loop_init balances).

Definition totalOre (expenses : list Expense) : Z :=
  foldl (λ sum e, sum + amount_ore e) 0 expenses.

Definition totalsByUser (expenses : list Expense) : gmap string Z :=
  foldl (λ map e,
           <[paid_by e := default 0 (map !! paid_by e) + amount_ore e]> map)
        ∅ expenses.

(** [m.display_name || m.user_id.slice(0, 6)]: the name is not trimmed
    here. *)
Definition shown_name (m : Economy.Member) : string :=
  Js.or_else (Economy.display_name m) (Js.slice0 6 (Economy.user_id m)).

Definition balances (members : list Economy.Member) (expenses : list Expense)
  : list Balance :=
  if (length members =? 0)%nat then []
  else
    let share :=
      (inject_Z (totalOre expenses) / inject_Z (Z.of_nat (length members)))%Q in
    (λ m,
       let paid := default 0 (totalsByUser expenses !! Economy.user_id m) in
       {| display_name := shown_name m;
          balance_ore := roundOre (inject_Z paid - share)%Q |})
      <$> members.

(** [computeSettlements(balances).slice(0, 4)], with one pass of the loop
    per balance as fuel. *)
Definition settlements (members : list Economy.Member)
    (expenses : list Expense) : option (list Economy.Line) :=
  let bs := balances members expenses in
  take 4 <$> computeSettlements (length bs) bs.

End Overview.

(** * The notions of the statements *)

(** ** Settlement *)

Section SettlementNotions.
Import Economy.

(** Descending by balance. *)
Definition desc (a b : Balance) : Prop := balance_ore b <= balance_ore a.

(** [l'] is [l] sorted descending by balance, ties in the order of [l]. *)
Definition stable_desc_sort (l l' : list Balance) : Prop :=
  l' ≡ₚ l ∧ StronglySorted desc l' ∧
  ∀ v, filter (λ b, balance_ore b = v) l' = filter (λ b, balance_ore b = v) l.

(** The two groups, as the text of the specification has them: members
    with a positive balance, and members with a negative balance tracked
    by its magnitude. *)
Definition spec_creditors (balances : list Balance) : list Balance :=
  filter (λ b, balance_ore b > 0) balances.

Definition spec_debtors (balances : list Balance) : list Balance :=
  (λ b, with_balance b (Z.abs (balance_ore b)))
    <$> filter (λ b, balance_ore b < 0) balances.

(** The greedy match, as the specification words it.  While both groups
    have members left: take the first debtor [d] and the first creditor
    [c], let [x] be the smaller of what remains of the two, emit the line
    [d → c : x] only if [x > 0], subtract [x] from both, and move past
    whoever has nothing left. *)
Definition emit (d c : Balance) (x : Z) : list Line :=
  if decide (x > 0)
  then [ {| line_from := bal_display_name d;
            line_to := bal_display_name c;
            line_amount_ore := x |} ]
  else [].

Definition settle (p : Balance) (x : Z) (rest : list Balance) : list Balance :=
  if decide (balance_ore p - x = 0) then rest
  else with_balance p (balance_ore p - x) :: rest.

Inductive greedy : list Balance → list Balance → list Line → Prop :=
| greedy_no_debtor cs : greedy [] cs []
| greedy_no_creditor ds : greedy ds [] []
| greedy_transfer d ds c cs x plan :
    x = Z.min (balance_ore d) (balance_ore c) →
    greedy (settle d x ds) (settle c x cs) plan →
    greedy (d :: ds) (c :: cs) (emit d c x ++ plan).

(** What is still to be settled: the parties from the two pointers on. *)
Definition left_debtors (st : Loop) : list Balance := drop (i st) (debtors st).

Definition left_creditors (st : Loop) : list Balance := drop (j st) (creditors st).

Definition loop_inv (st : Loop) : Prop :=
  Forall (λ b, 0 < balance_ore b) (left_debtors st) ∧
  Forall (λ b, 0 < balance_ore b) (left_creditors st).

(** The states the loop of [computeSettlements balances] goes through. *)
Inductive visits (balances : list Balance) : Loop → Prop :=
| visits_init : visits balances (loop_init balances)
| visits_next st st' :
    visits balances st → loop_body st = Some st' → visits balances st'.

(** What [userId] paid, and the total, as sums over the ledger. *)
Definition paid_by_user (u : string) (expenses : list Expense) : Z :=
  foldr (λ e acc, (if decide (paid_by e = u) then amount_ore e else 0) + acc)
        0 expenses.

Definition ledger_total (expenses : list Expense) : Z :=
  foldr (λ e acc, amount_ore e + acc) 0 expenses.

Definition sum_balances (bs : list Balance) : Z :=
  foldr (λ b acc, balance_ore b + acc) 0 bs.

(** The equal share as [balances] rounds it: what a member who paid
    nothing owes, [-roundOre(0 - total / n)]. *)
Definition owed_share (total : Z) (n : nat) : Z :=
  - roundOre (inject_Z 0 - inject_Z total / inject_Z (Z.of_nat n))%Q.

(** What is left of the total when every member is charged the rounded
    share. *)
Definition rounding_remainder (total : Z) (n : nat) : Z :=
  total - Z.of_nat n * owed_share total n.

(** What a plan moves in all, what it takes from a name and what it
    brings to a name. *)
Definition plan_total (plan : list Line) : Z :=
  foldr (λ l acc, line_amount_ore l + acc) 0 plan.

Definition sent_by (name : string) (plan : list Line) : Z :=
  foldr (λ l acc,
           (if decide (line_from l = name) then line_amount_ore l else 0) + acc)
        0 plan.

Definition received_by (name : string) (plan : list Line) : Z :=
  foldr (λ l acc,
           (if decide (line_to l = name) then line_amount_ore l else 0) + acc)
        0 plan.

(** The line read backwards. *)
Definition swap_line (l : Line) : Line :=
  {| line_from := line_to l; line_to := line_from l;
     line_amount_ore := line_amount_ore l |}.

(** The debts and the credits among a list of balances. *)
Definition debt_total (bs : list Balance) : Z :=
  foldr (λ b acc, Z.max 0 (- balance_ore b) + acc) 0 bs.

Definition credit_total (bs : list Balance) : Z :=
  foldr (λ b acc, Z.max 0 (balance_ore b) + acc) 0 bs.

(** The sum of the entries of [totalsByUser]. *)
Definition map_total (m : gmap string Z) : Z :=
  map_fold (λ _ v acc, v + acc) 0 m.

(** The sum of the totals of the rows of [groupedExpenses]. *)
Definition group_totals (gs : list EconomyRender.Group) : Z :=
  foldr (λ g acc, EconomyRender.total_ore g + acc) 0 gs.

End SettlementNotions.

(** ** The object store *)

Section StoreNotions.
Import Economy Economy.OnStore.

Definition no_balance : Balance :=
  {| bal_user_id := ""; bal_display_name := ""; balance_ore := 0 |}.

(** The object behind a reference. *)
Definition obj (s : Store) (l : nat) : Balance :=
  default no_balance (objects s !! l).

(** Every reference of the array points into the store. *)
Definition valid (s : Store) (a : list nat) : Prop :=
  Forall (λ l, (l < length (objects s))%nat) a.

Section LoopNotions.
Variables (debtors creditors : nat) (dl cl : list nat).

(** The store [s] and the locals [v] stand for the loop state [st]. *)
Definition stands_for (s : Store) (v : Vars) (st : Loop) : Prop :=
  arrays s !! debtors = Some dl ∧ arrays s !! creditors = Some cl ∧
  valid s (dl ++ cl) ∧
  obj s <$> dl = Economy.debtors st ∧
  obj s <$> cl = Economy.creditors st ∧
  v_lines v = lines st ∧ v_i v = i st ∧ v_j v = j st.

(** Only the objects of the two arrays are written. *)
Definition writes_within (s s' : Store) : Prop :=
  arrays s' = arrays s ∧
  length (objects s') = length (objects s) ∧
  ∀ l, l ∉ dl ++ cl → objects s' !! l = objects s !! l.

End LoopNotions.

End StoreNotions.

(** ** Timers and messages *)

Section TimerNotions.
Import Env.
Context {P : Type}.

(** Every pending timer is the one the registry names for its key, and
    the registry names a handle for one key only. *)
Definition debounced (registry : gmap string nat) (t : Timers (string * P))
  : Prop :=
  (0 < next_handle t)%nat ∧
  (∀ id h, registry !! id = Some h → (0 < h < next_handle t)%nat) ∧
  (∀ id1 id2 h,
     registry !! id1 = Some h → registry !! id2 = Some h → id1 = id2) ∧
  (∀ h id p, pending t !! h = Some (id, p) → registry !! id = Some h).

End TimerNotions.

Definition timers_ok (w : Shopping.World) : Prop :=
  debounced (Shopping.pantryTimers (Shopping.page w)) (Shopping.timers w).

Definition event_timers_ok (w : TasksEvents.World) : Prop :=
  debounced (TasksEvents.eventTimers w) (TasksEvents.timers w).

Section MessageNotions.
Import Env.

(** The actions that start with [setMsg(null)]. *)
Definition clears_message (e : Shopping.Event) : bool :=
  match e with
  | Shopping.AddShopping _ | Shopping.ToggleShopping _
  | Shopping.RemoveShopping _ | Shopping.ClearChecked
  | Shopping.MoveToPantry _ | Shopping.AddPantry _ _
  | Shopping.RemovePantry _ => true
  | _ => false
  end.

(** The error message that an event can set: the one of a failing reply,
    and the one of [addPantry] for a quantity that is not a number. *)
Definition failure_of (e : Shopping.Event) : option string :=
  match e with
  | Shopping.Written _ (Failed m) | Shopping.Inserted _ (Failed m)
  | Shopping.PantryInserted _ (Failed m)
  | Shopping.ShoppingRead _ (Failed m) | Shopping.PantryRead _ (Failed m) =>
      Some m
  | Shopping.AddPantry _ number =>
      if Js.isNaN number then Some "Mängd måste vara ett nummer." else None
  | _ => None
  end.

(** The failing reply that the continuation [k] of request [req] takes. *)
Definition failing_reply (k : Shopping.Cont) (req : nat) (m : string)
  : Shopping.Event :=
  match k with
  | Shopping.LoadShopping_k => Shopping.ShoppingRead req (Failed m)
  | Shopping.LoadPantry_k => Shopping.PantryRead req (Failed m)
  | Shopping.AddShopping_k _ => Shopping.Inserted req (Failed m)
  | Shopping.AddPantry_k _ => Shopping.PantryInserted req (Failed m)
  | _ => Shopping.Written req (Failed m)
  end.

End MessageNotions.

(** ** The order of the events *)

Section EventNotions.

(** [a] starts no later than [b]; a list in the order of the start
    times. *)
Definition earlier (time_value : string → Z) (a b : TasksEvents.EventRow)
  : Prop :=
  time_value (TasksEvents.starts_at a) <= time_value (TasksEvents.starts_at b).

Definition chronological (time_value : string → Z)
    (l : list TasksEvents.EventRow) : Prop :=
  StronglySorted (earlier time_value) l.

(** A read of the events that succeeds returns them in the order of the
    start times, as the query asks. *)
Definition reads_chronological (time_value : string → Z)
    (e : TasksPage.Event) : Prop :=
  match e with
  | TasksPage.EventsRead _ (Env.Succeeded rows) => chronological time_value rows
  | _ => True
  end.

(** The events on the page and in the snapshots of the pending deletes. *)
Definition events_ok (time_value : string → Z) (w : TasksPage.World) : Prop :=
  chronological time_value (TasksPage.events w) ∧
  ∀ req snapshot,
    Env.awaiting (TasksPage.net w) !! req = Some (TasksPage.RemoveEvent_k snapshot) →
    chronological time_value snapshot.

End EventNotions.

(** ** The reads of the todos *)

Section TodoNotions.

(** The data of the last read of the todos that was delivered, [start] if
    there was none. *)
Definition last_read (start : list TodosPage.Todo)
    (delivered : list (list TodosPage.Todo)) : list TodosPage.Todo :=
  default start (last delivered).

(** The reads that the steps [es] deliver from [w] on: the successful
    replies to requests that a [loadTodos] awaits. *)
Fixpoint delivered_reads (es : list TodosPage.Event) (w : TodosPage.World)
  : list (list TodosPage.Todo) :=
  match es with
  | [] => []
  | e :: es' =>
      match e with
      | TodosPage.TodosRead req (Env.Succeeded data) =>
          match Env.awaiting (TodosPage.net w) !! req with
          | Some TodosPage.LoadTodos_k => [data]
          | _ => []
          end
      | _ => []
      end ++ delivered_reads es' (TodosPage.step e w)
  end.

End TodoNotions.

(** ** The two settlement cards *)

Section OverviewNotions.

(** A balance of the overview and a balance of the economy page, or two
    lines, that agree on the amount, and on the names up to [N]. *)
Definition balances_agree (N : string → string → Prop)
    (a : Overview.Balance) (b : Economy.Balance) : Prop :=
  N (Overview.display_name a) (Economy.bal_display_name b) ∧
  Overview.balance_ore a = Economy.balance_ore b.

Definition lines_agree (N : string → string → Prop) (l1 l2 : Economy.Line)
  : Prop :=
  N (Economy.line_from l1) (Economy.line_from l2) ∧
  N (Economy.line_to l1) (Economy.line_to l2) ∧
  Economy.line_amount_ore l1 = Economy.line_amount_ore l2.

Definition loops_agree (N : string → string → Prop)
    (st1 : Overview.Loop) (st2 : Economy.Loop) : Prop :=
  Forall2 (balances_agree N) (Overview.debtors st1) (Economy.debtors st2) ∧
  Forall2 (balances_agree N) (Overview.creditors st1) (Economy.creditors st2) ∧
  Forall2 (lines_agree N) (Overview.lines st1) (Economy.lines st2) ∧
  Overview.i st1 = Economy.i st2 ∧ Overview.j st1 = Economy.j st2.

(** The columns of an expense that the overview selects. *)
Definition selected (e : Economy.Expense) : Overview.Expense :=
  {| Overview.id := Economy.id e; Overview.paid_by := Economy.paid_by e;
     Overview.amount_ore := Economy.amount_ore e;
     Overview.title := Economy.title e;
     Overview.created_at := Economy.created_at e |}.

End OverviewNotions.

(** ** The households of the examples *)

Section Examples.
Import Env.

Definition member_X : Economy.Member :=
  {| Economy.user_id := "x-0000001"; Economy.role := "owner";
     Economy.display_name := " Xerxes " |}.

Definition member_Y : Economy.Member :=
  {| Economy.user_id := "y-0000002"; Economy.role := "member";
     Economy.display_name := "Ylva" |}.

Definition member_Z : Economy.Member :=
  {| Economy.user_id := "z-0000003"; Economy.role := "member";
     Economy.display_name := "" |}.

Definition expense_by (payer : Economy.Member) (amount : Z) : Economy.Expense :=
  {| Economy.id := "e1"; Economy.household_id := "h1";
     Economy.paid_by := Economy.user_id payer; Economy.title := "Ica";
     Economy.amount_ore := amount; Economy.created_by := Economy.user_id payer;
     Economy.created_at := "2026-01-01T10:00:00.000Z" |}.

(** [toLowerCase] for the examples, whose texts have no capital letter
    outside A to Z: the bytes of these letters are mapped, the others are
    kept. *)
Definition lower_ascii_byte (a : ascii) : ascii :=
  let n := nat_of_ascii a in
  if ((65 <=? n) && (n <=? 90))%nat then ascii_of_nat (n + 32) else a.

Fixpoint lower_ascii (s : string) : string :=
  match s with
  | String a s' => String (lower_ascii_byte a) (lower_ascii s')
  | EmptyString => EmptyString
  end.

(** The page with a household, a user and [" milk "] typed into the
    shopping input. *)
Definition milk_typed : Shopping.World :=
  Shopping.step lower_ascii (Shopping.TypeShoppingText " milk ")
                (Shopping.mounted "h1" "u1").

Definition item_A : Shopping.ShoppingItem :=
  {| Shopping.id := "a"; Shopping.text := "mjölk"; Shopping.checked := false |}.

Definition item_B : Shopping.ShoppingItem :=
  {| Shopping.id := "b"; Shopping.text := "bröd"; Shopping.checked := true |}.

Definition item_C : Shopping.ShoppingItem :=
  {| Shopping.id := "c"; Shopping.text := "ost"; Shopping.checked := false |}.

(** The page after a read of the shopping list returned [A; B; C]. *)
Definition listed_ABC : Shopping.World :=
  Shopping.run lower_ascii
    [ Shopping.LoadShopping "h1";
      Shopping.ShoppingRead 0 (Succeeded [item_A; item_B; item_C]) ]
    (Shopping.mounted "h1" "u1").

Definition pasta : Shopping.PantryItem :=
  {| Shopping.p_id := "p1"; Shopping.p_name := "Pasta";
     Shopping.p_qty := None; Shopping.p_unit := None |}.

(** [{ name: s }] *)
Definition name_patch (s : string) : Shopping.PantryPatch :=
  {| Shopping.set_id := None; Shopping.set_name := Some s;
     Shopping.set_qty := None; Shopping.set_unit := None |}.

(** The page after a read of the pantry returned [pasta]. *)
Definition pantry_listed : Shopping.World :=
  Shopping.run lower_ascii
    [ Shopping.LoadPantry "h1";
      Shopping.PantryRead 0 (Succeeded [pasta]) ]
    (Shopping.mounted "h1" "u1").

(** The page of [pantry_listed] with a name, a quantity and a blank unit
    typed into the pantry inputs. *)
Definition rice_typed : Shopping.World :=
  Shopping.run lower_ascii
    [ Shopping.TypePantryName " Ris ";
      Shopping.TypePantryQty "2 "; Shopping.TypePantryUnit " " ]
    pantry_listed.

Definition dentist : TasksEvents.EventRow :=
  {| TasksEvents.id := "e1"; TasksEvents.title := "Tandläkare";
     TasksEvents.starts_at := "2026-03-01T09:00:00.000Z";
     TasksEvents.notes := None |}.

Definition concert : TasksEvents.EventRow :=
  {| TasksEvents.id := "e2"; TasksEvents.title := "Konsert";
     TasksEvents.starts_at := "2026-04-01T18:00:00.000Z";
     TasksEvents.notes := Some "biljetter" |}.

(** A clock for the examples: the month and the day of a timestamp,
    [100 * month + day]. *)
Definition digit (a : ascii) : Z := Z.of_nat (nat_of_ascii a) - 48.

Definition month_day (s : string) : Z :=
  match String.substring 5 5 s with
  | String m1 (String m2 (String _ (String d1 (String d2 _)))) =>
      100 * (10 * digit m1 + digit m2) + (10 * digit d1 + digit d2)
  | _ => 0
  end.

(** [fromLocalInputValue] for the examples, in a zone one hour ahead. *)
Definition iso_of (s : string) : option string :=
  match s with
  | "2026-03-15T12:00" => Some "2026-03-15T11:00:00.000Z"
  | _ => None
  end.

(** The page of the examples: the two events loaded, and a title and a
    start typed into the event inputs. *)
Definition dinner_typed : TasksPage.World :=
  TasksPage.run month_day iso_of
    [ TasksPage.LoadEvents "h1";
      TasksPage.EventsRead 0 (Env.Succeeded [dentist; concert]);
      TasksPage.TypeEventTitle " Middag ";
      TasksPage.TypeEventStartsAt "2026-03-15T12:00" ]
    (TasksPage.mounted "h1" "u1").

Definition todo_A : TasksPage.Todo :=
  {| TasksPage.id := "t1"; TasksPage.title := "Diska"; TasksPage.done := false |}.

Definition todo_B : TasksPage.Todo :=
  {| TasksPage.id := "t2"; TasksPage.title := "Tvätta"; TasksPage.done := true |}.

(** The page after a read of the todos returned [A; B], with a title
    typed into the todo input. *)
Definition todos_listed : TasksPage.World :=
  TasksPage.run month_day iso_of
    [ TasksPage.LoadTodos "h1";
      TasksPage.TodosRead 0 (Env.Succeeded [todo_A; todo_B]);
      TasksPage.TypeTodoTitle " Handla " ]
    (TasksPage.mounted "h1" "u1").

End Examples.

(** * Properties *)

(** ** The builtins on examples *)

Section BuiltinFacts.

(** [trim] takes off a space, a tab, U+00A0, U+2028 and a line feed, and
    all of a text that is only U+00A0 or only U+FEFF; it keeps U+200B,
    which is no white space, and the spaces inside the text. *)
Lemma trim_white_space :
  Js.trim (" " +:+ String "009" (String "194" (String "160" "milk"))
           +:+ String "226" (String "128" (String "168" (String "010" ""))))
  = "milk" ∧
  Js.trim (String "194" (String "160" "")) = "" ∧
  Js.trim (String "239" (String "187" (String "191" ""))) = "" ∧
  Js.trim (String "226" (String "128" (String "139" "")))
  = String "226" (String "128" (String "139" "")) ∧
  Js.trim " a  b " = "a  b".
Proof. vm_compute. done. Qed.

(** [Math.round] on doubles: the doubles nearest to 0.015 and to 1.005
    times 100 (the products are 1.5 and 100.49999999999999), halves,
    a negative number that rounds to minus zero, and the values without
    an integer nearby. *)
Lemma Math_round_doubles :
  Js.Math_round (0x1.eb851eb851eb8p-7 * 100)%float = 2%float ∧
  Js.Math_round (0x1.0147ae147ae14p+0 * 100)%float = 100%float ∧
  Js.Math_round 2.5%float = 3%float ∧
  Js.Math_round (-2.5)%float = (-2)%float ∧
  Js.Math_round (-0.5)%float = neg_zero ∧
  Js.Math_round 0.25%float = zero ∧
  Js.Math_round (infinity * 100)%float = infinity ∧
  Js.isNaN (Js.Math_round nan) = true.
Proof. vm_compute. done. Qed.

End BuiltinFacts.

(** ** The builtin sort *)

Section SortFacts.
Context {A : Type} (cmp : A → A → Z).

Lemma sort_insert_perm x l : Js.sort_insert cmp x l ≡ₚ x :: l.
Proof.
  induction l as [|y l IH]; simpl; [done|].
  destruct (cmp x y <=? 0); [done|].
  rewrite IH. apply Permutation_swap.
Qed.

Lemma sort_perm l : Js.sort cmp l ≡ₚ l.
Proof.
  induction l as [|x l IH]; simpl; [done|].
  unfold Js.sort in *. simpl. rewrite sort_insert_perm. by constructor.
Qed.

Lemma sort_length l : length (Js.sort cmp l) = length l.
Proof. by rewrite sort_perm. Qed.

Lemma sort_cons x l : Js.sort cmp (x :: l) = Js.sort_insert cmp x (Js.sort cmp l).
Proof. done. Qed.

(** Sorting commutes with a map when the comparator looks through it. *)
Lemma sort_insert_fmap {B} (f : B → A) x l :
  f <$> Js.sort_insert (λ a b, cmp (f a) (f b)) x l
  = Js.sort_insert cmp (f x) (f <$> l).
Proof.
  induction l as [|y l IH]; csimpl; [done|].
  destruct (cmp (f x) (f y) <=? 0); csimpl; [done|]. by rewrite IH.
Qed.

Lemma sort_fmap {B} (f : B → A) l :
  f <$> Js.sort (λ a b, cmp (f a) (f b)) l = Js.sort cmp (f <$> l).
Proof.
  induction l as [|x l IH]; [done|].
  rewrite fmap_cons. rewrite (sort_cons (f x)), <- IH, <- sort_insert_fmap.
  done.
Qed.
End SortFacts.

Section SettlementFacts.
Import Economy.

Lemma sort_insert_desc x l :
  StronglySorted desc l →
  StronglySorted desc (Js.sort_insert by_balance_desc x l).
Proof.
  induction 1 as [|y l Hl IH Hy]; simpl.
  - repeat constructor.
  - unfold by_balance_desc at 1.
    destruct (Z.leb_spec (balance_ore y - balance_ore x) 0).
    + constructor; [by constructor|].
      constructor; [unfold desc; lia|].
      eapply Forall_impl; [exact Hy|]. unfold desc. intros; lia.
    + constructor; [done|].
      rewrite sort_insert_perm. constructor; [unfold desc; lia|done].
Qed.

Lemma sort_desc l : StronglySorted desc (Js.sort by_balance_desc l).
Proof.
  induction l as [|x l IH]; [constructor|].
  rewrite sort_cons. by apply sort_insert_desc.
Qed.

(** Stability: the members with one and the same balance keep the order
    they had before the sort. *)
Lemma sort_insert_stable v x l :
  filter (λ b, balance_ore b = v) (Js.sort_insert by_balance_desc x l)
  = filter (λ b, balance_ore b = v) (x :: l).
Proof.
  induction l as [|y l IH]; simpl; [done|].
  unfold by_balance_desc at 1.
  destruct (Z.leb_spec (balance_ore y - balance_ore x) 0); [done|].
  rewrite filter_cons, IH, !filter_cons.
  repeat case_decide; try done; lia.
Qed.

Lemma sort_stable v l :
  filter (λ b, balance_ore b = v) (Js.sort by_balance_desc l)
  = filter (λ b, balance_ore b = v) l.
Proof.
  induction l as [|x l IH]; [done|].
  rewrite sort_cons, sort_insert_stable, !filter_cons. by rewrite IH.
Qed.

Lemma sort_stable_desc l : stable_desc_sort l (Js.sort by_balance_desc l).
Proof. split; [apply sort_perm|]. split; [apply sort_desc|]. intros; apply sort_stable. Qed.

Lemma with_balance_id b : with_balance b (balance_ore b) = b.
Proof. by destruct b. Qed.

Lemma creditors_of_spec balances :
  creditors_of balances = Js.sort by_balance_desc (spec_creditors balances).
Proof.
  unfold creditors_of, spec_creditors. f_equal.
  induction balances as [|b l IH]; [done|].
  rewrite !filter_cons. repeat case_decide; try lia; rewrite ?fmap_cons, ?with_balance_id, IH; done.
Qed.

Lemma debtors_of_spec balances :
  debtors_of balances = Js.sort by_balance_desc (spec_debtors balances).
Proof.
  unfold debtors_of, spec_debtors. f_equal.
  induction balances as [|b l IH]; [done|].
  rewrite !filter_cons. case_decide; [|done].
  rewrite !fmap_cons, IH. f_equal. f_equal. lia.
Qed.

Lemma creditors_positive balances :
  Forall (λ b, 0 < balance_ore b) (creditors_of balances).
Proof.
  rewrite creditors_of_spec, sort_perm. unfold spec_creditors.
  apply Forall_forall. intros b [Hb _]%list_elem_of_filter. lia.
Qed.

Lemma debtors_positive balances :
  Forall (λ b, 0 < balance_ore b) (debtors_of balances).
Proof.
  rewrite debtors_of_spec, sort_perm. unfold spec_debtors.
  apply Forall_fmap, Forall_forall. intros b [Hb _]%list_elem_of_filter.
  simpl. lia.
Qed.

Lemma groups_length balances :
  (length (debtors_of balances) + length (creditors_of balances)
   ≤ length balances)%nat.
Proof.
  unfold debtors_of, creditors_of. rewrite !sort_length, !length_fmap.
  induction balances as [|b l IH]; [done|].
  rewrite !filter_cons. repeat case_decide; simpl; lia.
Qed.

(** *** The greedy match *)

Lemma greedy_functional ds cs plan1 plan2 :
  greedy ds cs plan1 → greedy ds cs plan2 → plan1 = plan2.
Proof.
  intros H1. revert plan2.
  induction H1 as [cs|ds|d ds c cs x plan Hx _ IH]; intros plan2 H2.
  - by inversion H2.
  - by inversion H2.
  - inversion H2 as [| |? ? ? ? x' plan' Hx' Hrest]; subst.
    f_equal. by apply IH.
Qed.

(** *** The loop *)

Lemma loop_init_inv balances : loop_inv (loop_init balances).
Proof.
  split; unfold left_debtors, left_creditors; simpl; rewrite drop_0.
  - apply debtors_positive.
  - apply creditors_positive.
Qed.

Lemma pointer_view (l : list Balance) k p v :
  l !! k = Some p →
  drop (if v <=? 0 then S k else k) (<[k := with_balance p v]> l)
  = if v <=? 0 then drop (S k) l else with_balance p v :: drop (S k) l.
Proof.
  intros Hk. destruct (v <=? 0).
  - apply drop_insert_lt. lia.
  - rewrite drop_insert_ge by lia. rewrite Nat.sub_diag.
    by rewrite (drop_S l p k Hk).
Qed.

Lemma pointer_settle p x rest :
  0 < balance_ore p → x <= balance_ore p →
  (if balance_ore p - x <=? 0 then rest
   else with_balance p (balance_ore p - x) :: rest)
  = settle p x rest.
Proof.
  intros Hp Hx. unfold settle.
  destruct (Z.leb_spec (balance_ore p - x) 0); case_decide; try done; lia.
Qed.

Lemma settle_positive p x rest :
  x <= balance_ore p →
  Forall (λ b, 0 < balance_ore b) rest →
  Forall (λ b, 0 < balance_ore b) (settle p x rest).
Proof.
  intros Hx Hrest. unfold settle. case_decide; [done|].
  constructor; [simpl; lia|done].
Qed.

Lemma settle_length p x rest :
  (length (settle p x rest) ≤ S (length rest))%nat.
Proof. unfold settle. case_decide; simpl; lia. Qed.

Lemma loop_body_None st :
  loop_body st = None ↔ left_debtors st = [] ∨ left_creditors st = [].
Proof.
  unfold loop_body, left_debtors, left_creditors.
  destruct (debtors st !! i st) as [d|] eqn:Hd.
  - destruct (creditors st !! j st) as [c|] eqn:Hc.
    + split; [done|].
      intros [H|H]; apply (f_equal length) in H;
        rewrite length_drop in H; simpl in H;
        [apply lookup_lt_Some in Hd|apply lookup_lt_Some in Hc]; lia.
    + split; [|done]. intros _. right.
      apply drop_ge. by apply lookup_ge_None.
  - split; [|done]. intros _. left.
    apply drop_ge. by apply lookup_ge_None.
Qed.

(** One pass, seen from the pointers. *)
Lemma loop_body_Some st st' :
  loop_inv st → loop_body st = Some st' →
  ∃ d ds c cs,
    debtors st !! i st = Some d ∧ creditors st !! j st = Some c ∧
    left_debtors st = d :: ds ∧ left_creditors st = c :: cs ∧
    let x := Z.min (balance_ore d) (balance_ore c) in
    0 < x ∧
    left_debtors st' = settle d x ds ∧
    left_creditors st' = settle c x cs ∧
    lines st' = lines st ++ emit d c x.
Proof.
  intros [Hds Hcs] Hbody. unfold loop_body in Hbody.
  destruct (debtors st !! i st) as [d|] eqn:Hd; [|done].
  destruct (creditors st !! j st) as [c|] eqn:Hc; [|done].
  injection Hbody as <-.
  exists d, (drop (S (i st)) (debtors st)), c, (drop (S (j st)) (creditors st)).
  unfold left_debtors, left_creditors in *.
  rewrite (drop_S _ _ _ Hd) in Hds |- *. rewrite (drop_S _ _ _ Hc) in Hcs |- *.
  apply Forall_cons_1 in Hds as [Hdpos _]. apply Forall_cons_1 in Hcs as [Hcpos _].
  repeat split; try done; simpl.
  - lia.
  - rewrite (pointer_view _ _ _ _ Hd). apply pointer_settle; lia.
  - rewrite (pointer_view _ _ _ _ Hc). apply pointer_settle; lia.
  - unfold emit. destruct (Z.ltb_spec 0 (balance_ore d `min` balance_ore c));
      case_decide; try done; lia.
Qed.

Lemma loop_body_inv st st' :
  loop_inv st → loop_body st = Some st' → loop_inv st'.
Proof.
  intros Hinv Hbody.
  destruct (loop_body_Some _ _ Hinv Hbody)
    as (d & ds & c & cs & _ & _ & Hd & Hc & _ & Hd' & Hc' & _).
  destruct Hinv as [Hds Hcs]. rewrite Hd in Hds. rewrite Hc in Hcs.
  apply Forall_cons_1 in Hds as [_ Hds]. apply Forall_cons_1 in Hcs as [_ Hcs].
  split.
  - rewrite Hd'. apply settle_positive; [lia|done].
  - rewrite Hc'. apply settle_positive; [lia|done].
Qed.

Lemma visits_inv balances st : visits balances st → loop_inv st.
Proof.
  induction 1 as [|st st' _ IH Hbody]; [apply loop_init_inv|].
  by eapply loop_body_inv.
Qed.

(** Every pass brings what remains of the debtor or of the creditor to
    zero and moves that pointer. *)
Lemma loop_body_progress st st' :
  loop_inv st → loop_body st = Some st' →
  ∃ d c,
    debtors st !! i st = Some d ∧ creditors st !! j st = Some c ∧
    0 < balance_ore d ∧ 0 < balance_ore c ∧
    let x := Z.min (balance_ore d) (balance_ore c) in
    0 < x ∧
    ((balance_ore d - x = 0 ∧ i st' = S (i st)) ∨
     (balance_ore c - x = 0 ∧ j st' = S (j st))) ∧
    (i st ≤ i st' ∧ j st ≤ j st')%nat.
Proof.
  intros [Hds Hcs] Hbody. unfold loop_body in Hbody.
  destruct (debtors st !! i st) as [d|] eqn:Hd; [|done].
  destruct (creditors st !! j st) as [c|] eqn:Hc; [|done].
  injection Hbody as <-. exists d, c.
  unfold left_debtors, left_creditors in *.
  rewrite (drop_S _ _ _ Hd) in Hds. rewrite (drop_S _ _ _ Hc) in Hcs.
  apply Forall_cons_1 in Hds as [Hdpos _]. apply Forall_cons_1 in Hcs as [Hcpos _].
  simpl.
  destruct (Z.leb_spec (balance_ore d - balance_ore d `min` balance_ore c) 0);
    destruct (Z.leb_spec (balance_ore c - balance_ore d `min` balance_ore c) 0);
    repeat split; try done; lia.
Qed.

(** The loop ends within as many passes as there are parties left, and
    what it appends to [lines] is the greedy plan for them. *)
Lemma while_loop_greedy fuel st :
  loop_inv st →
  (length (left_debtors st) + length (left_creditors st) ≤ fuel)%nat →
  ∃ st' plan,
    while_loop fuel st = Some st' ∧
    lines st' = lines st ++ plan ∧
    greedy (left_debtors st) (left_creditors st) plan ∧
    (length plan + 1 ≤ length (left_debtors st) + length (left_creditors st)
     ∨ (plan = [] ∧ (left_debtors st = [] ∨ left_creditors st = [])))%nat.
Proof.
  revert st. induction fuel as [|fuel IH]; intros st Hinv Hfuel.
  - assert (Hnone : loop_body st = None).
    { apply loop_body_None. left. apply length_zero_iff_nil. lia. }
    exists st, []. simpl. rewrite Hnone, app_nil_r.
    repeat split; try done.
    + apply loop_body_None in Hnone as [->| ->]; constructor.
    + right. split; [done|]. by apply loop_body_None.
  - simpl. destruct (loop_body st) as [st1|] eqn:Hbody.
    + destruct (loop_body_Some _ _ Hinv Hbody)
        as (d & ds & c & cs & _ & _ & Hd & Hc & Hx & Hd' & Hc' & Hlines).
      pose proof (settle_length d (Z.min (balance_ore d) (balance_ore c)) ds) as Hld.
      pose proof (settle_length c (Z.min (balance_ore d) (balance_ore c)) cs) as Hlc.
      assert (Hdec : (length (left_debtors st1) + length (left_creditors st1)
                      ≤ length ds + length cs + 1)%nat).
      { rewrite Hd', Hc'. unfold settle.
        repeat case_decide; simpl; lia. }
      rewrite Hd, Hc in Hfuel. simpl in Hfuel.
      destruct (IH st1) as (st' & plan & Hrun & Hplan & Hgreedy & Hcount).
      { by eapply loop_body_inv. }
      { lia. }
      exists st', (emit d c (Z.min (balance_ore d) (balance_ore c)) ++ plan).
      rewrite Hd, Hc. repeat split.
      * done.
      * by rewrite Hplan, Hlines, app_assoc.
      * constructor; [done|]. by rewrite <- Hd', <- Hc'.
      * left. rewrite length_app. unfold emit at 1. simpl.
        case_decide; [|lia]. simpl.
        destruct Hcount as [Hcount|[-> _]]; simpl; lia.
    + exists st, []. rewrite app_nil_r. repeat split; try done.
      * apply loop_body_None in Hbody as [->| ->]; constructor.
      * right. split; [done|]. by apply loop_body_None.
Qed.

Lemma greedy_amounts ds cs plan :
  greedy ds cs plan → Forall (λ l, line_amount_ore l > 0) plan.
Proof.
  induction 1 as [| |d ds c cs x plan _ _ IH]; [constructor..|].
  apply Forall_app. split; [|done].
  unfold emit. case_decide; repeat constructor. done.
Qed.

(** [computeSettlements] returns, and returns the greedy plan for the two
    sorted groups. *)
Lemma computeSettlements_greedy fuel balances :
  (length balances ≤ fuel)%nat →
  ∃ plan,
    computeSettlements fuel balances = Some plan ∧
    greedy (debtors_of balances) (creditors_of balances) plan ∧
    (length plan + 1
       ≤ length (debtors_of balances) + length (creditors_of balances)
     ∨ (plan = [] ∧ (debtors_of balances = [] ∨ creditors_of balances = [])))%nat.
Proof.
  intros Hfuel. pose proof (groups_length balances) as Hlen.
  destruct (while_loop_greedy fuel (loop_init balances))
    as (st' & plan & Hrun & Hlines & Hgreedy & Hcount).
  { apply loop_init_inv. }
  { unfold left_debtors, left_creditors. simpl. rewrite !drop_0. lia. }
  unfold left_debtors, left_creditors in *. simpl in *.
  rewrite !drop_0 in *.
  exists plan. unfold computeSettlements. rewrite Hrun. simpl.
  by rewrite Hlines.
Qed.

(** *** Balances *)

Lemma totalOre_from z expenses :
  foldl (λ sum e, sum + amount_ore e) z expenses = z + ledger_total expenses.
Proof.
  revert z. induction expenses as [|e es IH]; intros z; simpl; [lia|].
  rewrite IH. lia.
Qed.

Lemma totalOre_total expenses : totalOre expenses = ledger_total expenses.
Proof. unfold totalOre. by rewrite totalOre_from. Qed.

Lemma totalsByUser_from (m : gmap string Z) expenses u :
  default 0
    (foldl (λ map e,
              <[paid_by e := default 0 (map !! paid_by e) + amount_ore e]> map)
           m expenses !! u)
  = default 0 (m !! u) + paid_by_user u expenses.
Proof.
  revert m. induction expenses as [|e es IH]; intros m; simpl; [lia|].
  rewrite IH. case_decide as Hu.
  - subst u. rewrite lookup_insert_eq. simpl. lia.
  - rewrite lookup_insert_ne by done. lia.
Qed.

Lemma totalsByUser_paid expenses u :
  default 0 (totalsByUser expenses !! u) = paid_by_user u expenses.
Proof. unfold totalsByUser. by rewrite totalsByUser_from, lookup_empty. Qed.

(** [roundOre(paid - total / n)] in integer arithmetic. *)
Lemma roundOre_share (p t : Z) (n : nat) :
  n ≠ 0%nat →
  roundOre (inject_Z p - inject_Z t / inject_Z (Z.of_nat n))%Q
  = p + (Z.of_nat n - 2 * t) / (2 * Z.of_nat n).
Proof.
  intros Hn. destruct (Z.of_nat n) as [|k|k] eqn:Hk; [lia| |lia].
  unfold roundOre, Js.round.
  transitivity
    (Qfloor (inject_Z (p * (2 * Zpos k) + (Zpos k - 2 * t))
             / inject_Z (2 * Zpos k))%Q).
  - apply Qfloor_comp.
    unfold Qeq, Qdiv, Qminus, Qplus, Qmult, Qinv, Qopp, inject_Z. simpl. lia.
  - rewrite <- Zdiv_Qdiv. rewrite Z.div_add_l by lia. done.
Qed.

(** [roundOre(total / n)] in integer arithmetic. *)
Lemma roundOre_ratio (t : Z) (n : nat) :
  n ≠ 0%nat →
  roundOre (inject_Z t / inject_Z (Z.of_nat n))%Q
  = (2 * t + Z.of_nat n) / (2 * Z.of_nat n).
Proof.
  intros Hn. destruct (Z.of_nat n) as [|k|k] eqn:Hk; [lia| |lia].
  unfold roundOre, Js.round.
  transitivity
    (Qfloor (inject_Z (2 * t + Zpos k) / inject_Z (2 * Zpos k))%Q).
  - apply Qfloor_comp.
    unfold Qeq, Qdiv, Qminus, Qplus, Qmult, Qinv, Qopp, inject_Z. simpl. lia.
  - by rewrite <- Zdiv_Qdiv.
Qed.

(** Rounding the share half up or half down differs only on a tie. *)
Lemma tie_cases (t n : Z) :
  0 < n →
  let sum := t + n * ((n - 2 * t) / (2 * n)) in
  let r := (2 * t + n) / (2 * n) in
  (2 * (t `mod` n) ≠ n → sum = t - n * r) ∧
  (2 * (t `mod` n) = n → sum = t - n * r + n).
Proof.
  intros Hn sum r. unfold sum, r. clear sum r.
  pose proof (Z.div_mod t n ltac:(lia)) as Ht.
  pose proof (Z.mod_pos_bound t n Hn) as Hr.
  pose proof (Z.div_mod (n - 2 * t) (2 * n) ltac:(lia)) as H1.
  pose proof (Z.mod_pos_bound (n - 2 * t) (2 * n) ltac:(lia)) as Hm1.
  pose proof (Z.div_mod (2 * t + n) (2 * n) ltac:(lia)) as H2.
  pose proof (Z.mod_pos_bound (2 * t + n) (2 * n) ltac:(lia)) as Hm2.
  set (q := t / n) in *. set (m := t `mod` n) in *.
  set (k1 := (n - 2 * t) / (2 * n)) in *.
  set (m1 := (n - 2 * t) `mod` (2 * n)) in *.
  set (k2 := (2 * t + n) / (2 * n)) in *.
  set (m2 := (2 * t + n) `mod` (2 * n)) in *.
  assert (Hk : k1 + k2 = 0 ∨ k1 + k2 = 1) by nia.
  assert (Hq : k2 = q ∨ k2 = q + 1) by nia.
  split; intros Htie; nia.
Qed.

Lemma balances_nonempty members expenses :
  members ≠ [] →
  balances members expenses
  = (λ m, {| bal_user_id := user_id m;
             bal_display_name := shown_name m;
             balance_ore :=
               paid_by_user (user_id m) expenses
               + (Z.of_nat (length members) - 2 * ledger_total expenses)
                 / (2 * Z.of_nat (length members)) |}) <$> members.
Proof.
  intros Hne. unfold balances.
  destruct (Nat.eqb_spec (length members) 0) as [H0|H0].
  { by apply length_zero_iff_nil in H0. }
  apply list_fmap_ext. intros _ m _. simpl.
  rewrite roundOre_share by done.
  by rewrite totalsByUser_paid, totalOre_total.
Qed.

(** Each ledger entry is counted once over a roster that holds its payer
    once. *)
Lemma roster_indicator (members : list Member) u a :
  NoDup (user_id <$> members) → u ∈ user_id <$> members →
  foldr (λ m acc, (if decide (u = user_id m) then a else 0) + acc) 0 members = a.
Proof.
  induction members as [|m ms IH]; csimpl; intros Hnd Hin.
  { by apply elem_of_nil in Hin. }
  apply NoDup_cons in Hnd as [Hm Hnd].
  case_decide as Hu.
  - subst u.
    assert (foldr (λ m0 acc, (if decide (user_id m = user_id m0) then a else 0) + acc)
                  0 ms = 0) as ->; [|lia].
    clear IH Hin Hnd. induction ms as [|m' ms IH]; csimpl; [done|].
    apply not_elem_of_cons in Hm as [Hne Hm].
    case_decide; [done|]. rewrite IH by done. lia.
  - apply elem_of_cons in Hin as [Hin|Hin]; [done|].
    rewrite IH by done. lia.
Qed.

Lemma roster_sum_plus (members : list Member) (f g : Member → Z) :
  foldr (λ m acc, (f m + g m) + acc) 0 members
  = foldr (λ m acc, f m + acc) 0 members + foldr (λ m acc, g m + acc) 0 members.
Proof. induction members as [|m ms IH]; simpl; [done|]. rewrite IH. lia. Qed.

Lemma roster_paid (members : list Member) expenses :
  NoDup (user_id <$> members) →
  Forall (λ e, paid_by e ∈ user_id <$> members) expenses →
  foldr (λ m acc, paid_by_user (user_id m) expenses + acc) 0 members
  = ledger_total expenses.
Proof.
  intros Hnd. induction 1 as [|e es He _ IH]; simpl.
  - clear Hnd. induction members as [|m ms IHm]; simpl; [done|].
    by rewrite IHm.
  - rewrite (roster_sum_plus members
               (λ m, if decide (paid_by e = user_id m) then amount_ore e else 0)
               (λ m, paid_by_user (user_id m) es)).
    rewrite IH. f_equal. by apply roster_indicator.
Qed.

Lemma sum_balances_shifted (members : list Member) (paid : Member → Z) k
    (name : Member → string) :
  sum_balances
    ((λ m, {| bal_user_id := user_id m; bal_display_name := name m;
              balance_ore := paid m + k |}) <$> members)
  = foldr (λ m acc, paid m + acc) 0 members + Z.of_nat (length members) * k.
Proof.
  induction members as [|m ms IH]; csimpl; [lia|].
  unfold sum_balances in *. rewrite IH. lia.
Qed.

Lemma sum_balances_roster members expenses :
  members ≠ [] →
  NoDup (user_id <$> members) →
  Forall (λ e, paid_by e ∈ user_id <$> members) expenses →
  sum_balances (balances members expenses)
  = ledger_total expenses
    + Z.of_nat (length members)
      * ((Z.of_nat (length members) - 2 * ledger_total expenses)
         / (2 * Z.of_nat (length members))).
Proof.
  intros Hne Hnd Hpay. rewrite balances_nonempty by done.
  rewrite (sum_balances_shifted members
             (λ m, paid_by_user (user_id m) expenses)).
  by rewrite roster_paid.
Qed.

Lemma all_zero_no_groups bs :
  Forall (λ b, balance_ore b = 0) bs →
  debtors_of bs = [] ∧ creditors_of bs = [].
Proof.
  intros Hz. unfold debtors_of, creditors_of.
  assert (filter (λ b, balance_ore b < 0) bs = []) as ->.
  { induction Hz as [|b bs Hb _ IH]; [done|].
    rewrite filter_cons. case_decide; [lia|done]. }
  assert (filter (λ b, 0 < balance_ore b) bs = []) as ->; [|done].
  induction Hz as [|b bs Hb _ IH]; [done|].
  rewrite filter_cons. case_decide; [lia|done].
Qed.

Lemma no_group_no_plan fuel bs :
  debtors_of bs = [] ∨ creditors_of bs = [] →
  computeSettlements fuel bs = Some [].
Proof.
  intros Hnone. unfold computeSettlements.
  assert (loop_body (loop_init bs) = None) as Hbody.
  { apply loop_body_None. unfold left_debtors, left_creditors. simpl.
    by rewrite !drop_0. }
  destruct fuel; simpl; by rewrite Hbody.
Qed.

Lemma paid_by_user_bounds u expenses :
  Forall (λ e, 0 <= amount_ore e) expenses →
  0 <= paid_by_user u expenses <= ledger_total expenses.
Proof.
  induction 1 as [|e es He _ IH]; simpl; [lia|]. case_decide; lia.
Qed.

End SettlementFacts.

(** ** [computeSettlements] on the store *)

Section StoreFacts.
Import Economy Economy.OnStore.

Lemma bind_Some {A B} (m : M A) (f : A → M B) s x s' :
  m s = Some (x, s') → (m ≫= f) s = f x s'.
Proof. intros H. unfold mbind, M_bind. by rewrite H. Qed.

Lemma get_object_valid s l :
  (l < length (objects s))%nat → get_object l s = Some (obj s l, s).
Proof.
  intros Hl. unfold get_object, obj.
  destruct (lookup_lt_is_Some_2 _ _ Hl) as [b Hb]. by rewrite Hb.
Qed.

Lemma get_objects_valid s a :
  valid s a → get_objects a s = Some (obj s <$> a, s).
Proof.
  induction 1 as [|l a Hl _ IH]; [done|]. simpl.
  rewrite (bind_Some _ _ _ _ _ (get_object_valid s l Hl)).
  by rewrite (bind_Some _ _ _ _ _ IH).
Qed.

Lemma new_objects_spec bs s :
  new_objects bs s
  = Some (seq (length (objects s)) (length bs),
          {| objects := objects s ++ bs; arrays := arrays s |}).
Proof.
  revert s. induction bs as [|b bs IH]; intros s; simpl.
  - rewrite app_nil_r. by destruct s.
  - unfold mbind, M_bind, new_object. rewrite IH. simpl.
    rewrite length_app, Nat.add_1_r, <- app_assoc. done.
Qed.

Lemma zip_obj s (a : list nat) :
  zip a (obj s <$> a) = (λ l, (l, obj s l)) <$> a.
Proof. induction a as [|l a IH]; csimpl; [done|]. by rewrite IH. Qed.

Lemma filter_zip_obj s (p : Balance → bool) (a : list nat) :
  (filter (λ lb : nat * Balance, p lb.2 = true) ((λ l, (l, obj s l)) <$> a)).*1
  = filter (λ l, p (obj s l) = true) a.
Proof.
  induction a as [|l a IH]; [done|]. csimpl.
  rewrite !filter_cons. simpl. case_decide; csimpl; by rewrite IH.
Qed.

Lemma obj_filter s (p : Balance → bool) (a : list nat) :
  obj s <$> filter (λ l, p (obj s l) = true) a
  = filter (λ b, p b = true) (obj s <$> a).
Proof.
  induction a as [|l a IH]; [done|]. csimpl.
  rewrite !filter_cons. case_decide; csimpl; by rewrite IH.
Qed.

Lemma array_filter_spec p r s a :
  arrays s !! r = Some a → valid s a →
  array_filter p r s
  = Some (length (arrays s),
          {| objects := objects s;
             arrays := arrays s ++ [filter (λ l, p (obj s l) = true) a] |}).
Proof.
  intros Hr Ha. unfold array_filter.
  rewrite (bind_Some _ _ s a s) by (unfold get_array; by rewrite Hr).
  rewrite (bind_Some _ _ _ _ _ (get_objects_valid s a Ha)).
  unfold new_array. by rewrite zip_obj, filter_zip_obj.
Qed.

Lemma array_map_spec f r s a :
  arrays s !! r = Some a → valid s a →
  array_map f r s
  = Some (length (arrays s),
          {| objects := objects s ++ (f <$> (obj s <$> a));
             arrays := arrays s ++ [seq (length (objects s)) (length a)] |}).
Proof.
  intros Hr Ha. unfold array_map.
  rewrite (bind_Some _ _ s a s) by (unfold get_array; by rewrite Hr).
  rewrite (bind_Some _ _ _ _ _ (get_objects_valid s a Ha)).
  rewrite (bind_Some _ _ _ _ _ (new_objects_spec _ s)).
  unfold new_array. simpl. by rewrite !length_fmap.
Qed.

Lemma array_sort_spec cmp r s a :
  arrays s !! r = Some a → valid s a →
  array_sort cmp r s
  = Some (r,
          {| objects := objects s;
             arrays :=
               <[r := Js.sort (λ l1 l2, cmp (obj s l1) (obj s l2)) a]>
                 (arrays s) |}).
Proof.
  intros Hr Ha. unfold array_sort.
  rewrite (bind_Some _ _ s a s) by (unfold get_array; by rewrite Hr).
  rewrite (bind_Some _ _ _ _ _ (get_objects_valid s a Ha)).
  unfold mbind, M_bind, set_array, mret, M_ret. rewrite Hr. simpl.
  rewrite zip_obj.
  rewrite <- (sort_fmap (λ p q : nat * Balance, cmp p.2 q.2)
                        (λ l, (l, obj s l)) a).
  rewrite <- list_fmap_compose. simpl.
  change (fst ∘ (λ l, (l, obj s l))) with (@Datatypes.id nat).
  by rewrite list_fmap_id.
Qed.

(** *** The loop on the store follows the loop on values *)

Lemma objs_update_in (O : list Balance) (a : list nat) k l b :
  NoDup a → a !! k = Some l → (l < length O)%nat →
  (λ l', default no_balance (<[l := b]> O !! l')) <$> a
  = <[k := b]> ((λ l', default no_balance (O !! l')) <$> a).
Proof.
  intros Hnd Hk Hl. apply list_eq. intros k'.
  rewrite list_lookup_fmap.
  destruct (decide (k' = k)) as [->|Hne].
  - rewrite list_lookup_insert_eq
      by (rewrite length_fmap; by eapply lookup_lt_Some).
    rewrite Hk. simpl. by rewrite list_lookup_insert_eq.
  - rewrite list_lookup_insert_ne by done. rewrite list_lookup_fmap.
    destruct (a !! k') as [l'|] eqn:Hk'; [|done]. simpl.
    rewrite list_lookup_insert_ne; [done|].
    intros <-. apply Hne. by eapply NoDup_lookup.
Qed.

Lemma objs_update_notin (O : list Balance) (a : list nat) l b :
  l ∉ a →
  (λ l', default no_balance (<[l := b]> O !! l')) <$> a
  = (λ l', default no_balance (O !! l')) <$> a.
Proof.
  intros Hl. apply list_fmap_ext. intros k l' Hk.
  rewrite list_lookup_insert_ne; [done|].
  intros <-. apply Hl. by eapply list_elem_of_lookup_2.
Qed.

Section Loop.
Variables (debtors creditors : nat) (dl cl : list nat).
Hypothesis distinct : NoDup (dl ++ cl).

Lemma writes_within_refl s : writes_within dl cl s s.
Proof. done. Qed.

Lemma writes_within_trans s1 s2 s3 :
  writes_within dl cl s1 s2 → writes_within dl cl s2 s3 → writes_within dl cl s1 s3.
Proof.
  intros (Ha & Hl & Ho) (Ha' & Hl' & Ho'). split; [congruence|].
  split; [congruence|]. intros l Hlk. rewrite Ho', Ho; done.
Qed.

Lemma loop_body_sim s v st :
  stands_for debtors creditors dl cl s v st →
  match Economy.loop_body st with
  | None => OnStore.loop_body debtors creditors v s = Some (None, s)
  | Some st' =>
      ∃ v' s',
        OnStore.loop_body debtors creditors v s = Some (Some v', s') ∧
        stands_for debtors creditors dl cl s' v' st' ∧ writes_within dl cl s s'
  end.
Proof.
  intros (Hd & Hc & Hvalid & Hds & Hcs & Hlines & Hi & Hj).
  unfold Economy.loop_body, OnStore.loop_body.
  rewrite (bind_Some _ _ s dl s) by (unfold get_array; by rewrite Hd).
  rewrite (bind_Some _ _ s cl s) by (unfold get_array; by rewrite Hc).
  rewrite <- Hds, <- Hcs, <- Hi, <- Hj, !list_lookup_fmap.
  destruct (dl !! v_i v) as [d|] eqn:Hdi; simpl; [|done].
  destruct (cl !! v_j v) as [c|] eqn:Hcj; simpl; [|done].
  apply Forall_app in Hvalid as [Hvd Hvc].
  assert (Hdlt : (d < length (objects s))%nat).
  { eapply Forall_lookup_1 in Hvd; [|exact Hdi]. done. }
  assert (Hclt : (c < length (objects s))%nat).
  { eapply Forall_lookup_1 in Hvc; [|exact Hcj]. done. }
  apply NoDup_app in distinct as (Hnd_d & Hdisj & Hnd_c).
  assert (Hd_in : d ∈ dl) by (by eapply list_elem_of_lookup_2).
  assert (Hc_in : c ∈ cl) by (by eapply list_elem_of_lookup_2).
  assert (Hdc : d ≠ c) by (intros ->; by eapply Hdisj).
  assert (Hd_cl : d ∉ cl) by (by apply Hdisj).
  assert (Hc_dl : c ∉ dl) by (intros ?; by eapply Hdisj).
  rewrite (bind_Some _ _ _ _ _ (get_object_valid s d Hdlt)).
  rewrite (bind_Some _ _ _ _ _ (get_object_valid s c Hclt)).
  set (x := Z.min (balance_ore (obj s d)) (balance_ore (obj s c))).
  set (d' := with_balance (obj s d) (balance_ore (obj s d) - x)).
  set (c' := with_balance (obj s c) (balance_ore (obj s c) - x)).
  set (s1 := {| objects := <[d := d']> (objects s); arrays := arrays s |}).
  set (s2 := {| objects := <[c := c']> (objects s1); arrays := arrays s |}).
  assert (Hupd1 : update_balance_ore d (λ v, v - x) s = Some (tt, s1)).
  { unfold update_balance_ore.
    destruct (lookup_lt_is_Some_2 _ _ Hdlt) as [b Hb].
    unfold s1, d', obj. rewrite Hb. done. }
  assert (Hupd2 : update_balance_ore c (λ v, v - x) s1 = Some (tt, s2)).
  { unfold update_balance_ore. simpl.
    rewrite list_lookup_insert_ne by done.
    destruct (lookup_lt_is_Some_2 _ _ Hclt) as [b Hb].
    unfold s2, c', obj. rewrite Hb. done. }
  assert (Hd2 : obj s2 d = d').
  { unfold obj, s2, s1. simpl.
    rewrite list_lookup_insert_ne by done.
    by rewrite list_lookup_insert_eq. }
  assert (Hc2 : obj s2 c = c').
  { unfold obj, s2, s1. simpl.
    rewrite list_lookup_insert_eq; [done|]. by rewrite length_insert. }
  assert (Hlen2 : length (objects s2) = length (objects s)).
  { unfold s2, s1. simpl. by rewrite !length_insert. }
  eexists _, s2. split; [|split].
  - unfold mbind at 1. unfold M_bind. rewrite Hupd1.
    unfold mbind at 1. unfold M_bind. rewrite Hupd2.
    rewrite (bind_Some _ _ s2 (obj s2 d) s2)
      by (apply get_object_valid; lia).
    rewrite (bind_Some _ _ s2 (obj s2 c) s2)
      by (apply get_object_valid; lia).
    rewrite Hd2, Hc2. reflexivity.
  - unfold stands_for. simpl. repeat split; try done.
    + unfold valid. rewrite Hlen2. apply Forall_app. done.
    + unfold obj, s2, s1. simpl.
      rewrite (objs_update_notin _ dl c c' Hc_dl).
      by rewrite (objs_update_in _ dl (v_i v) d d' Hnd_d Hdi Hdlt).
    + unfold obj, s2, s1. simpl.
      rewrite (objs_update_in _ cl (v_j v) c c' Hnd_c Hcj)
        by (by rewrite length_insert).
      by rewrite (objs_update_notin _ cl d d' Hd_cl).
    + by rewrite Hlines.
  - split; [done|]. split; [done|].
    intros l Hl. apply not_elem_of_app in Hl as [Hl1 Hl2].
    unfold s2, s1. simpl.
    rewrite !list_lookup_insert_ne; [done| |]; intros <-; done.
Qed.

Lemma while_loop_sim fuel s v st :
  stands_for debtors creditors dl cl s v st →
  ∃ r s',
    OnStore.while_loop fuel debtors creditors v s = Some (r, s') ∧
    v_lines <$> r = lines <$> Economy.while_loop fuel st ∧
    writes_within dl cl s s'.
Proof.
  revert s v st. induction fuel as [|fuel IH]; intros s v st Hrel;
    pose proof (loop_body_sim s v st Hrel) as Hbody; simpl;
    destruct (Economy.loop_body st) as [st1|].
  - destruct Hbody as (v' & s' & Hrun & Hrel' & Hw).
    exists None, s'. by rewrite (bind_Some _ _ _ _ _ Hrun).
  - exists (Some v), s. rewrite (bind_Some _ _ _ _ _ Hbody).
    split; [done|]. split; [|done].
    simpl. f_equal. by destruct Hrel as (_ & _ & _ & _ & _ & ? & _).
  - destruct Hbody as (v' & s' & Hrun & Hrel' & Hw).
    destruct (IH s' v' st1 Hrel') as (r & s'' & Hrun' & Hr & Hw').
    exists r, s''. rewrite (bind_Some _ _ _ _ _ Hrun).
    split; [done|]. split; [done|]. by eapply writes_within_trans.
  - exists (Some v), s. rewrite (bind_Some _ _ _ _ _ Hbody).
    split; [done|]. split; [|done].
    simpl. f_equal. by destruct Hrel as (_ & _ & _ & _ & _ & ? & _).
Qed.
End Loop.

(** *** The arrays that [computeSettlements] builds *)

Lemma obj_app_l O X A A' l :
  (l < length O)%nat →
  obj {| objects := O ++ X; arrays := A |} l
  = obj {| objects := O; arrays := A' |} l.
Proof. intros Hl. unfold obj. simpl. by rewrite lookup_app_l. Qed.

Lemma objs_app_l O X A A' (a : list nat) :
  Forall (λ l, (l < length O)%nat) a →
  obj {| objects := O ++ X; arrays := A |} <$> a
  = obj {| objects := O; arrays := A' |} <$> a.
Proof.
  intros Ha. apply list_fmap_ext. intros k l Hk.
  apply obj_app_l. by eapply Forall_lookup_1 in Ha.
Qed.

Lemma objs_fresh O X A :
  obj {| objects := O ++ X; arrays := A |} <$> seq (length O) (length X) = X.
Proof.
  apply list_eq. intros k. rewrite list_lookup_fmap.
  destruct (decide (k < length X)%nat) as [Hk|Hk].
  - rewrite lookup_seq_lt by done. simpl. unfold obj. simpl.
    rewrite lookup_app_r by lia.
    replace (length O + k - length O)%nat with k by lia.
    destruct (lookup_lt_is_Some_2 _ _ Hk) as [b Hb]. by rewrite Hb.
  - rewrite lookup_seq_ge by lia. simpl.
    symmetry. apply lookup_ge_None. lia.
Qed.

Lemma sort_ext {A} (cmp1 cmp2 : A → A → Z) (l : list A) :
  (∀ x y, x ∈ l → y ∈ l → cmp1 x y = cmp2 x y) →
  Js.sort cmp1 l = Js.sort cmp2 l.
Proof.
  induction l as [|x l IH]; intros Hext; [done|].
  rewrite !sort_cons, <- IH
    by (intros; apply Hext; by apply list_elem_of_further).
  assert (Hsub : ∀ y, y ∈ Js.sort cmp1 l → y ∈ l).
  { intros y. by rewrite sort_perm. }
  revert Hsub. generalize (Js.sort cmp1 l) as k.
  induction k as [|y k IHk]; intros Hsub; simpl; [done|].
  rewrite (Hext x y), IHk.
  - done.
  - intros z Hz. apply Hsub. by apply list_elem_of_further.
  - apply list_elem_of_here.
  - apply list_elem_of_further, Hsub, list_elem_of_here.
Qed.

(** The values behind an array of fresh copies that was sorted in
    place. *)
Lemma objs_sorted_copies cmp O X A :
  let s := {| objects := O ++ X; arrays := A |} in
  obj s <$> Js.sort (λ l1 l2, cmp (obj s l1) (obj s l2))
                    (seq (length O) (length X))
  = Js.sort cmp X.
Proof.
  intros s. rewrite (sort_fmap cmp (obj s)). unfold s. by rewrite objs_fresh.
Qed.

Lemma filter_bool (p : Balance → bool) (P : Balance → Prop)
    `{!∀ b, Decision (P b)} (l : list Balance) :
  (∀ b, p b = true ↔ P b) →
  filter (λ b, p b = true) l = filter P l.
Proof.
  intros Hp. induction l as [|b l IH]; [done|].
  rewrite !filter_cons, IH.
  destruct (decide (P b)) as [Hb|Hb].
  - by rewrite decide_True by (by apply Hp).
  - by rewrite decide_False by (by rewrite Hp).
Qed.

Lemma valid_filter s (P : nat → Prop) `{!∀ l, Decision (P l)} (a : list nat) :
  valid s a → valid s (filter P a).
Proof.
  unfold valid. rewrite !Forall_forall.
  intros Ha l [_ Hl]%list_elem_of_filter. by apply Ha.
Qed.

Lemma valid_grow O X A A' (a : list nat) :
  valid {| objects := O; arrays := A |} a →
  valid {| objects := O ++ X; arrays := A' |} a.
Proof.
  unfold valid. simpl. rewrite length_app.
  intros Ha. eapply Forall_impl; [exact Ha|]. simpl. intros; lia.
Qed.

Lemma valid_fresh O X A :
  valid {| objects := O ++ X; arrays := A |} (seq (length O) (length X)).
Proof.
  unfold valid. simpl. rewrite length_app. apply Forall_seq. intros; lia.
Qed.

(** On the store, [computeSettlements] returns what it returns on the
    values of the array, and leaves every object and array that the store
    held where it was. *)
Lemma computeSettlements_on_store fuel s r a :
  arrays s !! r = Some a → valid s a →
  ∃ s',
    OnStore.computeSettlements fuel r s
    = Some (Economy.computeSettlements fuel (obj s <$> a), s') ∧
    objects s `prefix_of` objects s' ∧
    arrays s `prefix_of` arrays s'.
Proof.
  intros Hr Ha. destruct s as [O A]. simpl in Hr.
  unfold OnStore.computeSettlements.
  (* creditors *)
  set (s0 := {| objects := O; arrays := A |}) in *.
  rewrite (bind_Some _ _ _ _ _ (array_filter_spec _ r s0 a Hr Ha)). simpl.
  set (a_pos := filter _ a).
  set (s1 := {| objects := O; arrays := A ++ [a_pos] |}).
  assert (Hpos : arrays s1 !! length A = Some a_pos).
  { by apply list_lookup_middle. }
  assert (Hvpos : valid s1 a_pos).
  { by apply (valid_filter s0). }
  rewrite (bind_Some _ _ _ _ _ (array_map_spec _ _ s1 a_pos Hpos Hvpos)).
  simpl.
  set (C := (λ b, with_balance b (balance_ore b)) <$> (obj s1 <$> a_pos)).
  assert (HC : length a_pos = length C).
  { unfold C. by rewrite !length_fmap. }
  rewrite HC.
  set (s2 := {| objects := O ++ C;
                arrays := (A ++ [a_pos]) ++ [seq (length O) (length C)] |}).
  assert (Hcopies : arrays s2 !! length (A ++ [a_pos])
                    = Some (seq (length O) (length C))).
  { by apply list_lookup_middle. }
  rewrite (bind_Some _ _ _ _ _
             (array_sort_spec by_balance_desc _ s2 _ Hcopies
                              (valid_fresh O C _))).
  simpl.
  set (cl := Js.sort _ (seq (length O) (length C))).
  set (A3 := <[length (A ++ [a_pos]) := cl]>
               ((A ++ [a_pos]) ++ [seq (length O) (length C)])).
  set (s3 := {| objects := O ++ C; arrays := A3 |}).
  (* debtors *)
  assert (Hrlt : (r < length A)%nat) by (by eapply lookup_lt_Some).
  assert (Hr3 : arrays s3 !! r = Some a).
  { unfold s3, A3. simpl. rewrite list_lookup_insert_ne
      by (rewrite length_app; simpl; lia).
    rewrite <- app_assoc. by rewrite lookup_app_l. }
  assert (Ha3 : valid s3 a) by (by eapply valid_grow).
  rewrite (bind_Some _ _ _ _ _ (array_filter_spec _ r s3 a Hr3 Ha3)). simpl.
  set (a_neg := filter _ a).
  set (s4 := {| objects := O ++ C; arrays := A3 ++ [a_neg] |}).
  assert (Hneg : arrays s4 !! length A3 = Some a_neg).
  { by apply list_lookup_middle. }
  assert (Hvneg : valid s4 a_neg).
  { by apply (valid_filter s3). }
  rewrite (bind_Some _ _ _ _ _ (array_map_spec _ _ s4 a_neg Hneg Hvneg)).
  simpl.
  set (D := (λ b, with_balance b (- balance_ore b)) <$> (obj s4 <$> a_neg)).
  assert (HD : length a_neg = length D).
  { unfold D. by rewrite !length_fmap. }
  rewrite HD.
  set (s5 := {| objects := (O ++ C) ++ D;
                arrays := (A3 ++ [a_neg])
                          ++ [seq (length (O ++ C)) (length D)] |}).
  assert (Howed : arrays s5 !! length (A3 ++ [a_neg])
                  = Some (seq (length (O ++ C)) (length D))).
  { by apply list_lookup_middle. }
  rewrite (bind_Some _ _ _ _ _
             (array_sort_spec by_balance_desc _ s5 _ Howed
                              (valid_fresh (O ++ C) D _))).
  simpl.
  set (dl := Js.sort _ (seq (length (O ++ C)) (length D))).
  set (A6 := <[length (A3 ++ [a_neg]) := dl]>
               ((A3 ++ [a_neg]) ++ [seq (length (O ++ C)) (length D)])).
  set (s6 := {| objects := (O ++ C) ++ D; arrays := A6 |}).
  set (bs := obj s0 <$> a).
  assert (HlenA3 : length A3 = S (S (length A))).
  { unfold A3. rewrite length_insert, !length_app. simpl. lia. }
  assert (Hdl_arr : arrays s6 !! length (A3 ++ [a_neg]) = Some dl).
  { unfold s6, A6. simpl. apply list_lookup_insert_eq.
    rewrite !length_app. simpl. lia. }
  assert (Hcl_arr : arrays s6 !! length (A ++ [a_pos]) = Some cl).
  { unfold s6, A6. simpl.
    rewrite list_lookup_insert_ne by (rewrite !length_app, HlenA3; simpl; lia).
    rewrite <- app_assoc, lookup_app_l
      by (rewrite HlenA3, length_app; simpl; lia).
    unfold A3. apply list_lookup_insert_eq.
    rewrite !length_app. simpl. lia. }
  assert (Hcl_perm : cl ≡ₚ seq (length O) (length C)) by apply sort_perm.
  assert (Hdl_perm : dl ≡ₚ seq (length (O ++ C)) (length D)) by apply sort_perm.
  assert (Hcl_valid : valid s2 cl).
  { unfold valid. rewrite Hcl_perm. apply (valid_fresh O C (arrays s2)). }
  assert (Hdl_valid : valid s6 dl).
  { unfold valid. rewrite Hdl_perm. apply (valid_fresh (O ++ C) D A6). }
  assert (Hdl_vals : obj s6 <$> dl = debtors_of bs).
  { unfold dl. change (obj s6) with (obj s5). unfold s5.
    rewrite (objs_sorted_copies by_balance_desc (O ++ C) D).
    unfold debtors_of, D. do 2 f_equal.
    etrans; [exact (obj_filter s3 (λ b, bool_decide (balance_ore b < 0)) a)|].
    rewrite (filter_bool _ (λ b, balance_ore b < 0))
      by (intros; apply bool_decide_eq_true).
    f_equal. by apply objs_app_l. }
  assert (Hcl_vals : obj s6 <$> cl = creditors_of bs).
  { etrans; [exact (objs_app_l (O ++ C) D A6 (arrays s2) cl Hcl_valid)|].
    unfold cl, s2. simpl.
    rewrite (objs_sorted_copies by_balance_desc O C).
    unfold creditors_of, C. do 2 f_equal.
    etrans; [exact (obj_filter s0 (λ b, bool_decide (0 < balance_ore b)) a)|].
    by rewrite (filter_bool _ (λ b, 0 < balance_ore b))
      by (intros; apply bool_decide_eq_true). }
  assert (Hnd : NoDup (dl ++ cl)).
  { rewrite Hdl_perm, Hcl_perm, (comm (++)), length_app, <- seq_app.
    apply NoDup_seq. }
  assert (Hfresh : Forall (λ l, (length O ≤ l)%nat) (dl ++ cl)).
  { rewrite Hdl_perm, Hcl_perm. apply Forall_app. split.
    - apply Forall_seq. rewrite length_app. intros; lia.
    - apply Forall_seq. intros; lia. }
  destruct (while_loop_sim (length (A3 ++ [a_neg])) (length (A ++ [a_pos]))
              dl cl Hnd fuel s6
              {| v_lines := []; v_i := 0%nat; v_j := 0%nat |}
              (loop_init bs))
    as (r0 & s' & Hrun & Hr0 & Harr & Hlen & Hobj).
  { unfold stands_for. repeat split; try done.
    apply Forall_app. split; [done|].
    unfold valid in *. simpl in *. rewrite length_app.
    eapply Forall_impl; [exact Hcl_valid|]. simpl. intros; lia. }
  exists s'. rewrite (bind_Some _ _ _ _ _ Hrun). unfold mret, M_ret.
  split; [by rewrite Hr0|]. simpl. split.
  - assert (Htake : take (length O) (objects s') = O).
    { apply list_eq. intros k.
      destruct (decide (k < length O)%nat) as [Hk|Hk].
      - rewrite lookup_take_lt by done. rewrite Hobj.
        + unfold s6. simpl. rewrite <- app_assoc. by rewrite lookup_app_l.
        + intros Hin. eapply Forall_forall in Hfresh; [|exact Hin]. lia.
      - rewrite lookup_take_ge by lia. symmetry. apply lookup_ge_None. lia. }
    exists (drop (length O) (objects s')).
    rewrite <- Htake at 1. by rewrite take_drop.
  - assert (Htake : take (length A) A6 = A).
    { unfold A6. rewrite take_insert_ge
        by (rewrite length_app, HlenA3; lia).
      rewrite <- app_assoc, take_app_le by lia.
      unfold A3. rewrite take_insert_ge by (rewrite length_app; lia).
      rewrite <- app_assoc. by rewrite take_app_length. }
    rewrite Harr. exists (drop (length A) A6).
    rewrite <- Htake at 1. by rewrite take_drop.
Qed.

End StoreFacts.

Section SettlementClaims.
Import Economy.

(** C1.  [computeSettlements] splits the balances into creditors
    (balance > 0) and debtors (balance < 0, kept by magnitude), sorts both
    descending and stably, and returns the plan of the greedy two-pointer
    match over the sorted groups, every line of which has a positive
    amount.  For three members and one expense of 900 paid by the first,
    the plan has two lines of 300 each, from the second and from the
    third member to the first. *)
Theorem computeSettlements_greedy_match (balances : list Balance) (fuel : nat) :
  (length balances ≤ fuel)%nat →
  stable_desc_sort (spec_creditors balances) (creditors_of balances) ∧
  stable_desc_sort (spec_debtors balances) (debtors_of balances) ∧
  (∃ plan,
     computeSettlements fuel balances = Some plan ∧
     greedy (debtors_of balances) (creditors_of balances) plan ∧
     (∀ plan',
        greedy (debtors_of balances) (creditors_of balances) plan' →
        plan' = plan) ∧
     Forall (λ l, line_amount_ore l > 0) plan) ∧
  (∀ X Y Z e,
     NoDup [user_id X; user_id Y; user_id Z] →
     paid_by e = user_id X → amount_ore e = 900 →
     Economy.balances [X; Y; Z] [e]
     = [ {| bal_user_id := user_id X; bal_display_name := shown_name X;
            balance_ore := 600 |};
         {| bal_user_id := user_id Y; bal_display_name := shown_name Y;
            balance_ore := -300 |};
         {| bal_user_id := user_id Z; bal_display_name := shown_name Z;
            balance_ore := -300 |} ] ∧
     ∃ l1 l2,
       settlements [X; Y; Z] [e] = Some [l1; l2] ∧
       line_amount_ore l1 + line_amount_ore l2 = 600 ∧
       0 < line_amount_ore l1 <= 300 ∧ 0 < line_amount_ore l2 <= 300 ∧
       line_from l1 = shown_name Y ∧ line_to l1 = shown_name X ∧
       line_from l2 = shown_name Z ∧ line_to l2 = shown_name X).
Proof.
  intros Hfuel. split; [|split; [|split]].
  - rewrite creditors_of_spec. apply sort_stable_desc.
  - rewrite debtors_of_spec. apply sort_stable_desc.
  - destruct (computeSettlements_greedy fuel balances Hfuel)
      as (plan & Hrun & Hgreedy & _).
    exists plan. repeat split; [done|done| |by eapply greedy_amounts].
    intros plan' Hplan'. by eapply greedy_functional.
  - intros X Y Z e Hnd HX Hamount.
    apply NoDup_cons in Hnd as [HXYZ Hnd].
    apply not_elem_of_cons in HXYZ as [HXY HXZ].
    apply not_elem_of_cons in HXZ as [HXZ _].
    assert (Hbal : Economy.balances [X; Y; Z] [e]
      = [ {| bal_user_id := user_id X; bal_display_name := shown_name X;
             balance_ore := 600 |};
          {| bal_user_id := user_id Y; bal_display_name := shown_name Y;
             balance_ore := -300 |};
          {| bal_user_id := user_id Z; bal_display_name := shown_name Z;
             balance_ore := -300 |} ]).
    { rewrite balances_nonempty by done. csimpl.
      rewrite HX, Hamount.
      rewrite decide_True by done.
      rewrite !decide_False by done. done. }
    split; [done|].
    unfold settlements. rewrite Hbal.
    eexists _, _. split; [vm_compute; reflexivity|]. simpl.
    repeat split; lia.
Qed.

Lemma computeSettlements_greedy_match_witness :
  let bs := Economy.balances [member_X; member_Y; member_Z]
                             [expense_by member_X 900] in
  (length bs ≤ 3)%nat ∧
  (∃ plan, computeSettlements 3 bs = Some plan ∧
           greedy (debtors_of bs) (creditors_of bs) plan) ∧
  ∃ l1 l2,
    settlements [member_X; member_Y; member_Z] [expense_by member_X 900]
    = Some [l1; l2] ∧
    line_amount_ore l1 + line_amount_ore l2 = 600.
Proof.
  intros bs.
  assert (Hlen : (length bs ≤ 3)%nat) by (vm_compute; lia).
  destruct (computeSettlements_greedy_match bs 3 Hlen)
    as (_ & _ & (plan & Hrun & Hgreedy & _) & Hexample).
  split; [exact Hlen|]. split; [by exists plan|].
  destruct (Hexample member_X member_Y member_Z (expense_by member_X 900))
    as (_ & l1 & l2 & Hplan & Hsum & _).
  - apply (bool_decide_unpack _). vm_compute. exact I.
  - reflexivity.
  - reflexivity.
  - by exists l1, l2.
Defined.

(** C9.  Over a non-empty roster that holds every payer of the ledger
    once, the balances add up to the rounding remainder of total/N: the
    total less N times the share as the balances round it.  The sum is
    the remainder of the integer division total/N or that remainder less
    N, and its magnitude is at most N - 1.  It is also the total less N
    times [roundOre(total/N)], except on a tie (N even, total/N a
    half-integer), where [roundOre] rounds the share up and the balances
    round it down. *)
Theorem balances_sum_rounding_remainder members expenses :
  members ≠ [] →
  NoDup (user_id <$> members) →
  Forall (λ e, paid_by e ∈ user_id <$> members) expenses →
  let n := length members in
  let total := totalOre expenses in
  let sum := sum_balances (balances members expenses) in
  let share := (inject_Z total / inject_Z (Z.of_nat n))%Q in
  sum = rounding_remainder total n ∧
  Z.abs sum <= Z.of_nat n - 1 ∧
  (sum = total `mod` Z.of_nat n ∨ sum = total `mod` Z.of_nat n - Z.of_nat n) ∧
  (2 * (total `mod` Z.of_nat n) ≠ Z.of_nat n →
   sum = total - Z.of_nat n * roundOre share) ∧
  (2 * (total `mod` Z.of_nat n) = Z.of_nat n →
   sum = total - Z.of_nat n * roundOre share + Z.of_nat n).
Proof.
  intros Hne Hnd Hpay n total sum share.
  assert (Hn : n ≠ 0%nat).
  { unfold n. by destruct members. }
  assert (Hsum : sum = total + Z.of_nat n * ((Z.of_nat n - 2 * total)
                                             / (2 * Z.of_nat n))).
  { unfold sum, total. rewrite totalOre_total. by apply sum_balances_roster. }
  split.
  { rewrite Hsum. unfold rounding_remainder, owed_share.
    rewrite roundOre_share by done. lia. }
  assert (Hshare : roundOre share = (2 * total + Z.of_nat n) / (2 * Z.of_nat n)).
  { unfold share. by apply roundOre_ratio. }
  set (N := Z.of_nat n) in *.
  assert (HN : 0 < N) by (unfold N; lia).
  destruct (tie_cases total N HN) as [Hnotie Htie].
  set (k := (N - 2 * total) / (2 * N)) in *.
  pose proof (Z.div_mod (N - 2 * total) (2 * N) ltac:(lia)) as Hdiv.
  pose proof (Z.mod_pos_bound (N - 2 * total) (2 * N) ltac:(lia)) as Hmod.
  fold k in Hdiv.
  assert (Hrange : - N < 2 * sum <= N) by lia.
  split; [lia|].
  assert (Hcong : sum `mod` N = total `mod` N).
  { rewrite Hsum, (Z.mul_comm N k). apply Z_mod_plus_full. }
  split; [|split].
  - destruct (Z_le_gt_dec 0 sum) as [Hpos|Hneg].
    + left. rewrite <- Hcong. symmetry. apply Z.mod_small. lia.
    + right. rewrite <- Hcong.
      rewrite <- (Z_mod_plus_full sum 1 N).
      rewrite Z.mod_small by lia. lia.
  - intros Hnt. rewrite Hshare, Hsum. by apply Hnotie.
  - intros Ht. rewrite Hshare, Hsum. by apply Htie.
Qed.

Lemma balances_sum_rounding_remainder_witness :
  let members := [member_X; member_Y; member_Z] in
  let expenses := [expense_by member_X 200] in
  sum_balances (balances members expenses) = rounding_remainder 200 3 ∧
  sum_balances (balances members expenses) = -1 ∧
  Z.abs (sum_balances (balances members expenses)) <= 2.
Proof.
  intros members expenses.
  destruct (balances_sum_rounding_remainder members expenses)
    as (Hsum & Hbound & _).
  - done.
  - apply (bool_decide_unpack _). vm_compute. exact I.
  - apply (bool_decide_unpack _). vm_compute. exact I.
  - split; [exact Hsum|]. split; [vm_compute; reflexivity|exact Hbound].
Defined.

(** C8.  Without members there are no balances and no transfers; when
    the ledger adds up to zero (no entries, or none of a positive amount)
    every balance is zero and there are no transfers; a single member is
    never asked to transfer, and has balance zero when every entry of the
    ledger is theirs. *)
Theorem settlement_edge_cases :
  (∀ expenses,
     balances [] expenses = [] ∧ settlements [] expenses = Some []) ∧
  (∀ members,
     Forall (λ b, balance_ore b = 0) (balances members []) ∧
     settlements members [] = Some []) ∧
  (∀ members expenses,
     Forall (λ e, 0 <= amount_ore e) expenses → totalOre expenses = 0 →
     Forall (λ b, balance_ore b = 0) (balances members expenses) ∧
     settlements members expenses = Some []) ∧
  (∀ m expenses,
     settlements [m] expenses = Some [] ∧
     (Forall (λ e, paid_by e = user_id m) expenses →
      balances [m] expenses
      = [ {| bal_user_id := user_id m; bal_display_name := shown_name m;
             balance_ore := 0 |} ])).
Proof.
  assert (Hzero : ∀ members expenses,
     Forall (λ e, 0 <= amount_ore e) expenses → totalOre expenses = 0 →
     Forall (λ b, balance_ore b = 0) (balances members expenses) ∧
     settlements members expenses = Some []).
  { intros members expenses Hamounts Htotal.
    assert (Hbs : Forall (λ b, balance_ore b = 0) (balances members expenses)).
    { destruct members as [|m ms]; [constructor|].
      rewrite balances_nonempty by done.
      rewrite totalOre_total in Htotal. rewrite Htotal.
      apply Forall_fmap, Forall_forall. intros m' _. simpl.
      pose proof (paid_by_user_bounds (user_id m') expenses Hamounts) as Hp.
      rewrite Z.div_small by lia. lia. }
    split; [done|]. unfold settlements.
    apply no_group_no_plan. left. by apply all_zero_no_groups. }
  split; [|split; [|split]].
  - intros expenses. split; reflexivity.
  - intros members. apply Hzero; [constructor|reflexivity].
  - exact Hzero.
  - intros m expenses. split.
    + unfold settlements. apply no_group_no_plan.
      rewrite balances_nonempty by done. csimpl.
      unfold debtors_of, creditors_of. rewrite !filter_cons, !filter_nil.
      repeat case_decide; try lia; (by left) || (by right).
    + intros Hmine. rewrite balances_nonempty by done. csimpl.
      do 2 f_equal.
      assert (paid_by_user (user_id m) expenses = ledger_total expenses) as ->.
      { induction Hmine as [|e es He _ IH]; simpl; [done|].
        rewrite decide_True by done. by rewrite IH. }
      change (Z.of_nat 1) with 1. change (2 * 1) with 2.
      replace (1 - 2 * ledger_total expenses)
        with ((- ledger_total expenses) * 2 + 1) by lia.
      rewrite Z.div_add_l by lia. rewrite Z.div_small by lia. lia.
Qed.

Lemma settlement_edge_cases_witness :
  let ledger :=
    [ {| id := "e0"; household_id := "h1"; paid_by := "x-0000001";
         title := "Pant"; amount_ore := 0; created_by := "x-0000001";
         created_at := "2026-01-01T10:00:00.000Z" |} ] in
  settlements [member_X; member_Y] ledger = Some [] ∧
  balances [member_X] [expense_by member_X 900]
  = [ {| bal_user_id := "x-0000001"; bal_display_name := "Xerxes";
         balance_ore := 0 |} ].
Proof.
  intros ledger.
  destruct settlement_edge_cases as (_ & _ & Hzero & Hsingle).
  split.
  - apply (Hzero [member_X; member_Y] ledger).
    + repeat constructor. simpl. lia.
    + reflexivity.
  - apply (Hsingle member_X [expense_by member_X 900]).
    repeat constructor.
Defined.

(** C10.  With one pass of fuel per balance the loop of
    [computeSettlements] ends.  Every pass takes a positive amount, brings
    what remains of the current debtor or of the current creditor to zero
    and moves that pointer, so the plan has at most
    (debtors + creditors - 1) lines.  Run on a store, the function
    returns the same plan and leaves every object and every array that
    the store held before the call as it was: it writes to its own copies
    only. *)
Theorem computeSettlements_terminates (balances : list Balance) (fuel : nat) :
  (length balances ≤ fuel)%nat →
  let nd := length (spec_debtors balances) in
  let nc := length (spec_creditors balances) in
  (∃ plan,
     computeSettlements fuel balances = Some plan ∧
     (length plan ≤ nd + nc - 1)%nat ∧
     (0 < nd + nc → length plan + 1 ≤ nd + nc)%nat) ∧
  (∀ st st',
     visits balances st → loop_body st = Some st' →
     ∃ d c,
       debtors st !! i st = Some d ∧ creditors st !! j st = Some c ∧
       0 < balance_ore d ∧ 0 < balance_ore c ∧
       let x := Z.min (balance_ore d) (balance_ore c) in
       0 < x ∧
       ((balance_ore d - x = 0 ∧ i st' = S (i st)) ∨
        (balance_ore c - x = 0 ∧ j st' = S (j st))) ∧
       (i st ≤ i st' ∧ j st ≤ j st')%nat) ∧
  (∀ s r a,
     OnStore.arrays s !! r = Some a → valid s a → obj s <$> a = balances →
     ∃ s',
       OnStore.computeSettlements fuel r s
       = Some (computeSettlements fuel balances, s') ∧
       OnStore.objects s `prefix_of` OnStore.objects s' ∧
       OnStore.arrays s `prefix_of` OnStore.arrays s').
Proof.
  intros Hfuel nd nc. split; [|split].
  - destruct (computeSettlements_greedy fuel balances Hfuel)
      as (plan & Hrun & _ & Hcount).
    exists plan. split; [done|].
    assert (Hnd : length (debtors_of balances) = nd).
    { by rewrite debtors_of_spec, sort_length. }
    assert (Hnc : length (creditors_of balances) = nc).
    { by rewrite creditors_of_spec, sort_length. }
    rewrite Hnd, Hnc in Hcount.
    destruct Hcount as [Hcount|[-> _]]; simpl; lia.
  - intros st st' Hvisit Hbody.
    apply loop_body_progress; [|done]. by eapply visits_inv.
  - intros s r a Hr Ha <-. by apply computeSettlements_on_store.
Qed.

Lemma computeSettlements_terminates_witness :
  let bs := Economy.balances [member_X; member_Y; member_Z]
                             [expense_by member_X 900] in
  (length bs ≤ 3)%nat ∧
  (∃ plan, computeSettlements 3 bs = Some plan ∧ (length plan ≤ 2)%nat) ∧
  ∃ s',
    OnStore.computeSettlements 3 0 (OnStore.store_of bs)
    = Some (computeSettlements 3 bs, s') ∧
    bs `prefix_of` OnStore.objects s'.
Proof.
  intros bs.
  assert (Hlen : (length bs ≤ 3)%nat) by (vm_compute; lia).
  destruct (computeSettlements_terminates bs 3 Hlen)
    as ((plan & Hrun & Hcount & _) & _ & Hstore).
  split; [exact Hlen|]. split.
  - exists plan. split; [exact Hrun|]. exact Hcount.
  - destruct (Hstore (OnStore.store_of bs) 0%nat [0; 1; 2]%nat)
      as (s' & Hrun' & Hobjs & _).
    + reflexivity.
    + repeat constructor.
    + reflexivity.
    + by exists s'.
Defined.

End SettlementClaims.

(** ** The debounce idiom *)

Section DebounceFacts.
Import Env.
Context {P : Type}.
Implicit Types (registry : gmap string nat) (t : Timers (string * P)).

Lemma debounced_init : debounced ∅ (no_timers (Callback := string * P)).
Proof.
  split; [simpl; lia|]. split; [|split].
  - intros id h. by rewrite lookup_empty.
  - intros id1 id2 h. by rewrite lookup_empty.
  - intros h id p. simpl. by rewrite lookup_empty.
Qed.

(** At most one timer is pending under a key. *)
Lemma debounced_unique registry t h1 h2 id p1 p2 :
  debounced registry t →
  pending t !! h1 = Some (id, p1) → pending t !! h2 = Some (id, p2) →
  h1 = h2 ∧ p1 = p2.
Proof.
  intros (_ & _ & _ & Hinv) H1 H2.
  pose proof (Hinv _ _ _ H1) as Hr1. pose proof (Hinv _ _ _ H2) as Hr2.
  assert (h1 = h2) as -> by congruence. split; [done|]. congruence.
Qed.

Lemma debounce_eq id (cb : string * P) registry t :
  debounce id cb registry t
  = (<[id := next_handle t]> registry,
     {| pending :=
          <[next_handle t := cb]>
            (match registry !! id with
             | Some prevTimer =>
                 if (prevTimer =? 0)%nat then pending t
                 else delete prevTimer (pending t)
             | None => pending t
             end);
        next_handle := S (next_handle t) |}).
Proof.
  unfold debounce, setTimeout.
  destruct (registry !! id) as [prev|]; [|done].
  by destruct (prev =? 0)%nat.
Qed.

(** After [debounce id (id, p)] the new timer is the only one pending
    under [id], and the timers of the other keys are as before. *)
Lemma debounce_spec id p registry t :
  debounced registry t →
  let h := next_handle t in
  let registry' := (debounce id (id, p) registry t).1 in
  let t' := (debounce id (id, p) registry t).2 in
  debounced registry' t' ∧
  pending t' !! h = Some (id, p) ∧
  (∀ h' p', pending t' !! h' = Some (id, p') → h' = h ∧ p' = p) ∧
  (∀ h' id' p', id' ≠ id →
     pending t' !! h' = Some (id', p') ↔ pending t !! h' = Some (id', p')).
Proof.
  intros (Hpos & Hrange & Hinj & Hinv) h registry' t'.
  unfold registry', t'. rewrite debounce_eq. simpl. fold h.
  set (kept := match registry !! id with
               | Some prevTimer =>
                   if (prevTimer =? 0)%nat then pending t
                   else delete prevTimer (pending t)
               | None => pending t
               end).
  assert (Hkept : ∀ h' id' p',
            kept !! h' = Some (id', p') →
            pending t !! h' = Some (id', p') ∧ id' ≠ id).
  { intros h' id' p' Hk. unfold kept in Hk.
    destruct (registry !! id) as [prev|] eqn:Hreg.
    - destruct (Nat.eqb_spec prev 0) as [->|Hprev].
      + apply Hrange in Hreg. lia.
      + apply lookup_delete_Some in Hk as [Hne Hk]. split; [done|].
        intros ->. pose proof (Hinv _ _ _ Hk). congruence.
    - split; [done|]. intros ->.
      pose proof (Hinv _ _ _ Hk). congruence. }
  assert (Hkept' : ∀ h' id' p',
            id' ≠ id → pending t !! h' = Some (id', p') →
            kept !! h' = Some (id', p')).
  { intros h' id' p' Hne Hp. unfold kept.
    destruct (registry !! id) as [prev|] eqn:Hreg; [|done].
    destruct (prev =? 0)%nat; [done|].
    apply lookup_delete_Some. split; [|done].
    intros <-. apply Hne. eapply Hinj; [|exact Hreg]. by eapply Hinv. }
  assert (Hold : ∀ h' id' p', pending t !! h' = Some (id', p') → h' ≠ h).
  { intros h' id' p' Hp. apply Hinv, Hrange in Hp. unfold h. lia. }
  split; [|split; [|split]].
  - split; [simpl; lia|]. split; [|split]; simpl.
    + intros id' h'. rewrite lookup_insert.
      case_decide; [intros [= <-]; fold h; lia|].
      intros Hr. apply Hrange in Hr. lia.
    + intros id1 id2 h'. rewrite !lookup_insert.
      repeat case_decide; subst; try done.
      * intros [= <-] Hr. apply Hrange in Hr. lia.
      * intros Hr [= <-]. apply Hrange in Hr. lia.
      * apply Hinj.
    + intros h' id' p'. rewrite lookup_insert.
      case_decide as Hh.
      * intros [= <- <-]. subst h'. by rewrite lookup_insert_eq.
      * intros Hk. apply Hkept in Hk as [Hp Hne].
        rewrite lookup_insert_ne by done. by eapply Hinv.
  - apply lookup_insert_eq.
  - intros h' p'. rewrite lookup_insert. case_decide as Hh.
    + by intros [= <-].
    + intros Hk. by apply Hkept in Hk as [_ ?].
  - intros h' id' p' Hne. rewrite lookup_insert. case_decide as Hh.
    + split; [by intros [= <- _]|].
      intros Hp. exfalso. by eapply Hold.
    + split; [by intros [? _]%Hkept|by apply Hkept'].
Qed.

Lemma fired_debounced registry t h :
  debounced registry t → debounced registry (fired h t).
Proof.
  intros (Hpos & Hrange & Hinj & Hinv). split; [done|].
  split; [done|]. split; [done|].
  intros h' id p Hp. simpl in Hp.
  apply lookup_delete_Some in Hp as [_ Hp]. by eapply Hinv.
Qed.

End DebounceFacts.

(** ** The timers of the pantry and of the events *)

(** Case analysis on whatever a step branches on. *)
Ltac step_cases :=
  repeat match goal with
         | |- context [Env.awaiting ?n !! ?req] =>
             destruct (Env.awaiting n !! req) as [[]|]; simpl
         | |- context [Env.falsy ?x] => destruct (Env.falsy x); simpl
         | |- context [match ?x with _ => _ end] => destruct x; simpl
         | r : Env.Reply _ |- _ => destruct r; simpl
         end.

Section PantryTimerFacts.
Import Env Shopping.
Variable toLowerCase : string → string.
Local Abbreviation step := (Shopping.step toLowerCase).
Local Abbreviation run := (Shopping.run toLowerCase).

Lemma mounted_timers_ok hid uid : timers_ok (mounted hid uid).
Proof. apply debounced_init. Qed.

Lemma schedule_timers id patch w :
  pantryTimers (page (schedulePantryUpdate id patch w))
  = (debounce id (id, patch) (pantryTimers (page w)) (timers w)).1 ∧
  timers (schedulePantryUpdate id patch w)
  = (debounce id (id, patch) (pantryTimers (page w)) (timers w)).2 ∧
  net (schedulePantryUpdate id patch w) = net w ∧
  msg (page (schedulePantryUpdate id patch w)) = msg (page w) ∧
  shopping (page (schedulePantryUpdate id patch w)) = shopping (page w).
Proof.
  unfold schedulePantryUpdate. simpl.
  by destruct (debounce id (id, patch) (pantryTimers (page w)) (timers w)).
Qed.

(** Only [schedulePantryUpdate] and a firing timer touch the timers. *)
Lemma step_timers e w :
  match e with
  | SchedulePantryUpdate _ _ | Timeout _ => True
  | _ => pantryTimers (page (step e w)) = pantryTimers (page w) ∧
         timers (step e w) = timers w
  end.
Proof.
  destruct e; try done;
    unfold step, addShopping, clearChecked, moveToPantry, addPantry; simpl;
    step_cases; done.
Qed.

Lemma step_timers_ok e w : timers_ok w → timers_ok (step e w).
Proof.
  intros Hok. unfold timers_ok in *.
  pose proof (step_timers e w) as Hframe.
  destruct e as [| | | | | | | | | |key patch| | | |h| | | | |];
    try (match type of Hframe with
         | _ ∧ _ => destruct Hframe as [-> ->]; exact Hok
         end).
  - change (debounced
              (pantryTimers (page (schedulePantryUpdate key patch w)))
              (timers (schedulePantryUpdate key patch w))).
    destruct (schedule_timers key patch w) as (-> & -> & _).
    by apply debounce_spec.
  - simpl. unfold timeout.
    destruct (pending (timers w) !! h) as [[id_ patch]|]; [|done].
    simpl. by apply fired_debounced.
Qed.

Lemma run_timers_ok es w : timers_ok w → timers_ok (run es w).
Proof.
  revert w. induction es as [|e es IH]; intros w Hok; [done|].
  simpl. by apply IH, step_timers_ok.
Qed.

Lemma run_snoc es e w : run (es ++ [e]) w = step e (run es w).
Proof. unfold run. by rewrite foldl_app. Qed.

Lemma run_schedules_net id patches w :
  net (run (SchedulePantryUpdate id <$> patches) w) = net w.
Proof.
  revert w. induction patches as [|p ps IH]; intros w; [done|].
  csimpl. rewrite IH. by destruct (schedule_timers id p w) as (_ & _ & -> & _).
Qed.

(** [N] edits of one pantry item before any of its timers fires. *)
Lemma pantry_coalescing w id patches last :
  timers_ok w →
  let w' := run (SchedulePantryUpdate id <$> (patches ++ [last])) w in
  calls (net w') = calls (net w) ∧
  ∃ h,
    pending (timers w') !! h = Some (id, last) ∧
    (∀ h' p', pending (timers w') !! h' = Some (id, p') → h' = h ∧ p' = last) ∧
    let w'' := step (Timeout h) w' in
    calls (net w'') = calls (net w) ++ [UpdatePantry id last] ∧
    (∀ h' p', pending (timers w'') !! h' ≠ Some (id, p')).
Proof.
  intros Hok w'.
  set (w1 := run (SchedulePantryUpdate id <$> patches) w).
  assert (Hw' : w' = schedulePantryUpdate id last w1).
  { unfold w'. rewrite fmap_app. apply run_snoc. }
  assert (Hok1 : timers_ok w1) by (by apply run_timers_ok).
  assert (Hnet1 : net w1 = net w) by apply run_schedules_net.
  destruct (schedule_timers id last w1) as (Hreg & Htimers & Hnet & _).
  destruct (debounce_spec id last _ _ Hok1) as (_ & Hnew & Honly & _).
  rewrite <- Htimers, <- Hw' in Hnew, Honly.
  assert (Hcalls : calls (net w') = calls (net w)).
  { by rewrite Hw', Hnet, Hnet1. }
  split; [done|].
  exists (next_handle (timers w1)). split; [done|]. split; [done|].
  simpl. unfold timeout. rewrite Hnew. simpl. split.
  - by rewrite Hcalls.
  - intros h' p' Hp. apply lookup_delete_Some in Hp as [Hne Hp].
    by destruct (Honly _ _ Hp).
Qed.

End PantryTimerFacts.

Section EventTimerFacts.
Import Env TasksEvents.
Variable time_value : string → Z.

Lemma step_event_timers_ok e w :
  event_timers_ok w → event_timers_ok (step time_value e w).
Proof.
  intros Hok. unfold event_timers_ok in *. destruct e as [id_ patch|h|req r].
  - change (step time_value (ScheduleEventPatch id_ patch) w)
      with (scheduleEventPatch time_value id_ patch w).
    unfold scheduleEventPatch.
    pose proof (debounce_spec id_ patch _ _ Hok) as [Hok' _].
    destruct (debounce id_ (id_, patch) (eventTimers w) (timers w)).
    exact Hok'.
  - simpl. unfold timeout.
    destruct (pending (timers w) !! h) as [[id_ patch]|]; [|done].
    simpl. by apply fired_debounced.
  - simpl. destruct (awaiting (net w) !! req) as [[]|]; [|done].
    by destruct r.
Qed.

Lemma run_event_timers_ok es w :
  event_timers_ok w → event_timers_ok (run time_value es w).
Proof.
  revert w. induction es as [|e es IH]; intros w Hok; [done|].
  simpl. by apply IH, step_event_timers_ok.
Qed.

Lemma run_event_schedules_net id_ patches w :
  net (run time_value (ScheduleEventPatch id_ <$> patches) w) = net w.
Proof.
  revert w. induction patches as [|p ps IH]; intros w; [done|].
  csimpl. rewrite IH. unfold scheduleEventPatch.
  by destruct (debounce id_ (id_, p) (eventTimers w) (timers w)).
Qed.

Lemma event_coalescing w id_ patches last :
  event_timers_ok w →
  let w' := run time_value (ScheduleEventPatch id_ <$> (patches ++ [last])) w in
  calls (net w') = calls (net w) ∧
  ∃ h,
    pending (timers w') !! h = Some (id_, last) ∧
    (∀ h' p', pending (timers w') !! h' = Some (id_, p') → h' = h ∧ p' = last) ∧
    let w'' := step time_value (Timeout h) w' in
    calls (net w'') = calls (net w) ++ [UpdateEvent id_ last] ∧
    (∀ h' p', pending (timers w'') !! h' ≠ Some (id_, p')).
Proof.
  intros Hok w'.
  set (w1 := run time_value (ScheduleEventPatch id_ <$> patches) w).
  assert (Hw' : w' = scheduleEventPatch time_value id_ last w1).
  { unfold w', run. by rewrite fmap_app, foldl_app. }
  assert (Hok1 : event_timers_ok w1) by (by apply run_event_timers_ok).
  assert (Hnet1 : net w1 = net w) by apply run_event_schedules_net.
  destruct (debounce_spec id_ last _ _ Hok1) as (_ & Hnew & Honly & _).
  assert (Htimers : timers w'
                    = (debounce id_ (id_, last) (eventTimers w1) (timers w1)).2).
  { rewrite Hw'. unfold scheduleEventPatch.
    by destruct (debounce id_ (id_, last) (eventTimers w1) (timers w1)). }
  assert (Hnet : net w' = net w1).
  { rewrite Hw'. unfold scheduleEventPatch.
    by destruct (debounce id_ (id_, last) (eventTimers w1) (timers w1)). }
  rewrite <- Htimers in Hnew, Honly.
  assert (Hcalls : calls (net w') = calls (net w)).
  { by rewrite Hnet, Hnet1. }
  split; [done|].
  exists (next_handle (timers w1)). split; [done|]. split; [done|].
  simpl. unfold timeout. rewrite Hnew. simpl. split.
  - by rewrite Hcalls.
  - intros h' p' Hp. apply lookup_delete_Some in Hp as [Hne Hp].
    by destruct (Honly _ _ Hp).
Qed.

End EventTimerFacts.

(** ** The optimistic actions of the pages *)

Section MutationClaims.
Import Env.

(** C2.  Creating a record puts one record with a temporary id in the
    collection at once, while the insert is still awaited, and clears
    what was typed: the collection is the one before with the new record
    at its end ([addShopping]) or at its front ([addExpense]), so on an
    empty collection it has length 1.  Whenever the reply arrives,
    whatever the collection holds by then: when the insert succeeded,
    every record whose id is the temporary one, whatever its content, is
    replaced by the row the store returned, and every other record stays
    where it is; when the insert failed, the records with the temporary
    id are removed, the other ones stay in their order, the error message
    is set and what was typed is not put back.  So for a temporary id
    that no record of the collection has, success right after the create
    gives the collection before with the returned row added, and failure
    gives back the collection before; from the empty collection these are
    the one row and the empty collection. *)
Theorem optimistic_create (toLowerCase : string → string) :
  (∀ (w : Shopping.World) (uuid : string),
     falsy (Some (Js.trim (Shopping.shoppingText (Shopping.page w)))) = false →
     falsy (Shopping.householdId (Shopping.page w)) = false →
     falsy (Shopping.userId (Shopping.page w)) = false →
     let tempId := "temp-" +:+ uuid in
     let optimistic :=
       {| Shopping.id := tempId;
          Shopping.text := Js.trim (Shopping.shoppingText (Shopping.page w));
          Shopping.checked := false |} in
     let w1 := Shopping.addShopping uuid w in
     let req := next_request (Shopping.net w) in
     Shopping.shopping (Shopping.page w1)
     = Shopping.shopping (Shopping.page w) ++ [optimistic] ∧
     Shopping.shoppingText (Shopping.page w1) = "" ∧
     calls (Shopping.net w1)
     = calls (Shopping.net w)
       ++ [Shopping.InsertShopping
             (default "" (Shopping.householdId (Shopping.page w)))
             (Js.trim (Shopping.shoppingText (Shopping.page w)))
             (default "" (Shopping.userId (Shopping.page w)))] ∧
     awaiting (Shopping.net w1) !! req = Some (Shopping.AddShopping_k tempId) ∧
     (Forall (λ x, Shopping.id x ≠ tempId) (Shopping.shopping (Shopping.page w)) →
      (∀ data,
         Shopping.shopping
           (Shopping.page
              (Shopping.step toLowerCase
                 (Shopping.Inserted req (Succeeded data)) w1))
         = Shopping.shopping (Shopping.page w) ++ [data]) ∧
      (∀ message,
         let w2 := Shopping.step toLowerCase
                     (Shopping.Inserted req (Failed message)) w1 in
         Shopping.shopping (Shopping.page w2)
         = Shopping.shopping (Shopping.page w) ∧
         Shopping.msg (Shopping.page w2) = Some message)) ∧
     (Shopping.shopping (Shopping.page w) = [] →
      Shopping.shopping (Shopping.page w1) = [optimistic] ∧
      (∀ data,
         Shopping.shopping
           (Shopping.page
              (Shopping.step toLowerCase
                 (Shopping.Inserted req (Succeeded data)) w1))
         = [data]) ∧
      (∀ message,
         Shopping.shopping
           (Shopping.page
              (Shopping.step toLowerCase
                 (Shopping.Inserted req (Failed message)) w1))
         = []))) ∧
  (∀ (w' : Shopping.World) (req : nat) (tempId : string),
     awaiting (Shopping.net w') !! req = Some (Shopping.AddShopping_k tempId) →
     (∀ data,
        let w2 := Shopping.step toLowerCase
                    (Shopping.Inserted req (Succeeded data)) w' in
        Shopping.shopping (Shopping.page w2)
        = (λ x, if decide (Shopping.id x = tempId) then data else x)
            <$> Shopping.shopping (Shopping.page w') ∧
        Shopping.msg (Shopping.page w2) = Shopping.msg (Shopping.page w') ∧
        Shopping.shoppingText (Shopping.page w2)
        = Shopping.shoppingText (Shopping.page w') ∧
        awaiting (Shopping.net w2) !! req = None) ∧
     (∀ message,
        let w2 := Shopping.step toLowerCase
                    (Shopping.Inserted req (Failed message)) w' in
        Shopping.shopping (Shopping.page w2)
        = filter (λ x, Shopping.id x ≠ tempId)
                 (Shopping.shopping (Shopping.page w')) ∧
        Shopping.msg (Shopping.page w2) = Some message ∧
        Shopping.shoppingText (Shopping.page w2)
        = Shopping.shoppingText (Shopping.page w') ∧
        awaiting (Shopping.net w2) !! req = None)) ∧
  (∀ (Number : string → float) (w : EconomyPage.World) (uuid now : string),
     falsy (EconomyPage.householdId w) = false →
     falsy (EconomyPage.userId w) = false →
     falsy (Some (Js.trim (EconomyPage.title_input w))) = false →
     let cleaned := Js.trim (EconomyPage.replace_comma (EconomyPage.amountKr w)) in
     let num := Number cleaned in
     falsy (Some cleaned) = false →
     Js.isNaN num = false → (num <=? 0)%float = false →
     let tempId := "temp-" +:+ uuid in
     let hid := default "" (EconomyPage.householdId w) in
     let uid := default "" (EconomyPage.userId w) in
     let ore := Js.Math_round (num * 100)%float in
     let optimistic :=
       {| EconomyPage.id := tempId; EconomyPage.household_id := hid;
          EconomyPage.paid_by := uid;
          EconomyPage.title := Js.trim (EconomyPage.title_input w);
          EconomyPage.amount_ore := ore; EconomyPage.created_by := uid;
          EconomyPage.created_at := now |} in
     let w1 := EconomyPage.addExpense Number uuid now w in
     EconomyPage.expenses w1 = optimistic :: EconomyPage.expenses w ∧
     EconomyPage.title_input w1 = "" ∧ EconomyPage.amountKr w1 = "" ∧
     calls (EconomyPage.net w1)
     = calls (EconomyPage.net w)
       ++ [EconomyPage.InsertExpense hid uid
             (Js.trim (EconomyPage.title_input w)) ore uid] ∧
     awaiting (EconomyPage.net w1) !! next_request (EconomyPage.net w)
     = Some (EconomyPage.AddExpense_k tempId) ∧
     (Forall (λ x, EconomyPage.id x ≠ tempId) (EconomyPage.expenses w) →
      (∀ data,
         EconomyPage.expenses
           (EconomyPage.addExpense_resume tempId (Succeeded data) w1)
         = data :: EconomyPage.expenses w) ∧
      (∀ message,
         let w2 := EconomyPage.addExpense_resume tempId (Failed message) w1 in
         EconomyPage.expenses w2 = EconomyPage.expenses w ∧
         EconomyPage.msg w2 = Some message)) ∧
     (EconomyPage.expenses w = [] →
      EconomyPage.expenses w1 = [optimistic] ∧
      (∀ data,
         EconomyPage.expenses
           (EconomyPage.addExpense_resume tempId (Succeeded data) w1)
         = [data]) ∧
      (∀ message,
         EconomyPage.expenses
           (EconomyPage.addExpense_resume tempId (Failed message) w1)
         = []))) ∧
  (∀ (w' : EconomyPage.World) (tempId : string),
     (∀ data,
        let w2 := EconomyPage.addExpense_resume tempId (Succeeded data) w' in
        EconomyPage.expenses w2
        = (λ x, if decide (EconomyPage.id x = tempId) then data else x)
            <$> EconomyPage.expenses w' ∧
        EconomyPage.msg w2 = EconomyPage.msg w' ∧
        EconomyPage.title_input w2 = EconomyPage.title_input w' ∧
        EconomyPage.amountKr w2 = EconomyPage.amountKr w') ∧
     (∀ message,
        let w2 := EconomyPage.addExpense_resume tempId (Failed message) w' in
        EconomyPage.expenses w2
        = filter (λ x, EconomyPage.id x ≠ tempId) (EconomyPage.expenses w') ∧
        EconomyPage.msg w2 = Some message ∧
        EconomyPage.title_input w2 = EconomyPage.title_input w' ∧
        EconomyPage.amountKr w2 = EconomyPage.amountKr w')).
Proof.
  assert (Hmap : ∀ (A : Type) (f : A → string) (t : string) (d : A) (l : list A),
            Forall (λ x, f x ≠ t) l →
            (λ x, if decide (f x = t) then d else x) <$> l = l).
  { intros A f t d l Hl. induction Hl as [|x l Hx _ IH]; [done|].
    csimpl. by rewrite decide_False, IH. }
  assert (Hfilter : ∀ (A : Type) (f : A → string) (t : string) (l : list A),
            Forall (λ x, f x ≠ t) l → filter (λ x, f x ≠ t) l = l).
  { intros A f t l Hl. induction Hl as [|x l Hx _ IH]; [done|].
    by rewrite filter_cons, decide_True, IH. }
  split; [|split; [|split]].
  - intros w uuid Htext Hhid Huid tempId optimistic w1 req.
    assert (Hw1 : w1 =
      Shopping.on_net
        (await (Shopping.InsertShopping
                  (default "" (Shopping.householdId (Shopping.page w)))
                  (Js.trim (Shopping.shoppingText (Shopping.page w)))
                  (default "" (Shopping.userId (Shopping.page w))))
               (Shopping.AddShopping_k tempId))
        (Shopping.setShoppingText ""
           (Shopping.setShopping (λ prev, prev ++ [optimistic])
              (Shopping.setMsg None w)))).
    { unfold w1, Shopping.addShopping. simpl.
      rewrite Htext, Hhid, Huid. reflexivity. }
    assert (Hawait : awaiting (Shopping.net w1) !! req
                     = Some (Shopping.AddShopping_k tempId)).
    { rewrite Hw1. simpl. apply lookup_insert_eq. }
    assert (Hok : ∀ data,
      Shopping.shopping
        (Shopping.page
           (Shopping.step toLowerCase
              (Shopping.Inserted req (Succeeded data)) w1))
      = (λ x, if decide (Shopping.id x = tempId) then data else x)
          <$> (Shopping.shopping (Shopping.page w) ++ [optimistic])).
    { intros data. unfold Shopping.step. rewrite Hawait. by rewrite Hw1. }
    assert (Hfail : ∀ message,
      Shopping.page
        (Shopping.step toLowerCase (Shopping.Inserted req (Failed message)) w1)
      = Shopping.page
          (Shopping.setShopping (filter (λ x, Shopping.id x ≠ tempId))
             (Shopping.setMsg (Some message) w1))).
    { intros message. unfold Shopping.step. by rewrite Hawait. }
    split; [by rewrite Hw1|]. split; [by rewrite Hw1|].
    split; [by rewrite Hw1|]. split; [exact Hawait|]. split.
    + intros Hfresh. split.
      * intros data. rewrite Hok, fmap_app, Hmap by done. simpl.
        by rewrite decide_True.
      * intros message w2. unfold w2. rewrite Hfail, Hw1. simpl.
        rewrite filter_app, Hfilter by done.
        rewrite filter_cons, decide_False by (simpl; tauto).
        by rewrite filter_nil, app_nil_r.
    + intros Hempty. split; [by rewrite Hw1; simpl; rewrite Hempty|]. split.
      * intros data. rewrite Hok, Hempty. simpl. by rewrite decide_True.
      * intros message. rewrite Hfail, Hw1. simpl. rewrite Hempty. simpl.
        by rewrite filter_cons, decide_False by (simpl; tauto).
  - intros w' req tempId Hawait. split.
    + intros data w2. unfold w2, Shopping.step. rewrite Hawait. simpl.
      do 3 (split; [done|]). apply lookup_delete_eq.
    + intros message w2. unfold w2, Shopping.step. rewrite Hawait. simpl.
      do 3 (split; [done|]). apply lookup_delete_eq.
  - intros Number w uuid now Hhid Huid Htitle cleaned num Hcleaned Hnan Hpos
      tempId hid uid ore optimistic w1.
    assert (Hw1 : w1 =
      EconomyPage.on_net
        (await (EconomyPage.InsertExpense hid uid
                  (Js.trim (EconomyPage.title_input w)) ore uid)
               (EconomyPage.AddExpense_k tempId))
        (EconomyPage.setInputs "" ""
           (EconomyPage.setExpenses (λ prev, optimistic :: prev)
              (EconomyPage.setMsg None w)))).
    { unfold w1, EconomyPage.addExpense. simpl.
      rewrite Hhid, Huid, Htitle. simpl. fold cleaned. fold num.
      rewrite Hcleaned, Hnan, Hpos. reflexivity. }
    clearbody w1. subst w1. simpl.
    split; [done|]. split; [done|]. split; [done|]. split; [done|].
    split; [apply lookup_insert_eq|]. split.
    + intros Hfresh. split.
      * intros data. rewrite decide_True by done. by rewrite Hmap.
      * intros message.
        rewrite filter_cons, decide_False by (simpl; tauto).
        by rewrite Hfilter.
    + intros Hempty. rewrite Hempty. split; [done|]. split.
      * intros data. simpl. by rewrite decide_True.
      * intros message. simpl.
        by rewrite filter_cons, decide_False by (simpl; tauto).
  - intros w' tempId. split; [intros data|intros message]; done.
Qed.

Lemma optimistic_create_witness :
  let w1 := Shopping.addShopping "0001" milk_typed in
  let row := {| Shopping.id := "r1"; Shopping.text := "milk";
                Shopping.checked := false |} in
  Shopping.shopping (Shopping.page w1)
  = [ {| Shopping.id := "temp-0001"; Shopping.text := "milk";
         Shopping.checked := false |} ] ∧
  Shopping.shopping
    (Shopping.page
       (Shopping.step lower_ascii (Shopping.Inserted 0 (Succeeded row)) w1))
  = [row] ∧
  Shopping.shopping
    (Shopping.page
       (Shopping.step lower_ascii (Shopping.Inserted 0 (Failed "denied")) w1))
  = [].
Proof.
  intros w1 row.
  destruct (proj1 (optimistic_create lower_ascii) milk_typed "0001")
    as (_ & _ & _ & _ & _ & Hempty); try reflexivity.
  destruct (Hempty eq_refl) as (Hnow & Hok & Hfail).
  split; [exact Hnow|]. split.
  - exact (Hok row).
  - exact (Hfail "denied").
Defined.

(** C4.  [remove] takes the record out of the collection at once and
    keeps the collection as it was in the closure of the awaited delete;
    when the delete fails, the collection is set back to exactly that
    snapshot, in its order, whatever happened to the collection in
    between, and the error message is set.  This holds for
    [removeShopping] and for [removeExpense]. *)
Theorem rollback_on_delete_failure (toLowerCase : string → string) :
  (∀ (w : Shopping.World) (item : Shopping.ShoppingItem),
     let snapshot := Shopping.shopping (Shopping.page w) in
     let w1 := Shopping.removeShopping item w in
     let req := next_request (Shopping.net w) in
     Shopping.shopping (Shopping.page w1)
     = filter (λ x, Shopping.id x ≠ Shopping.id item) snapshot ∧
     awaiting (Shopping.net w1) !! req
     = Some (Shopping.RemoveShopping_k item snapshot) ∧
     (∀ message,
        let w2 := Shopping.step toLowerCase
                    (Shopping.Written req (Failed message)) w1 in
        Shopping.shopping (Shopping.page w2) = snapshot ∧
        Shopping.msg (Shopping.page w2) = Some message) ∧
     (∀ w' message,
        let w2 := Shopping.removeShopping_resume snapshot (Failed message) w' in
        Shopping.shopping (Shopping.page w2) = snapshot ∧
        Shopping.msg (Shopping.page w2) = Some message)) ∧
  (∀ (w : EconomyPage.World) (e : EconomyPage.Expense),
     let snapshot := EconomyPage.expenses w in
     let w1 := EconomyPage.removeExpense e w in
     EconomyPage.expenses w1
     = filter (λ x, EconomyPage.id x ≠ EconomyPage.id e) snapshot ∧
     awaiting (EconomyPage.net w1) !! next_request (EconomyPage.net w)
     = Some (EconomyPage.RemoveExpense_k snapshot) ∧
     (∀ w' message,
        let w2 := EconomyPage.removeExpense_resume snapshot (Failed message) w' in
        EconomyPage.expenses w2 = snapshot ∧
        EconomyPage.msg w2 = Some message)).
Proof.
  split.
  - intros w item snapshot w1 req.
    assert (Hawait : awaiting (Shopping.net w1) !! req
                     = Some (Shopping.RemoveShopping_k item snapshot)).
    { apply lookup_insert_eq. }
    split; [done|]. split; [done|]. split; [|done].
    intros message w2. unfold w2, Shopping.step. by rewrite Hawait.
  - intros w e snapshot w1. split; [done|]. split; [|done].
    apply lookup_insert_eq.
Qed.

Lemma rollback_on_delete_failure_witness :
  let w1 := Shopping.step lower_ascii
              (Shopping.RemoveShopping item_B) listed_ABC in
  let w2 := Shopping.step lower_ascii
              (Shopping.Written 1 (Failed "denied")) w1 in
  Shopping.shopping (Shopping.page w1) = [item_A; item_C] ∧
  Shopping.shopping (Shopping.page w2) = [item_A; item_B; item_C] ∧
  Shopping.msg (Shopping.page w2) = Some "denied".
Proof.
  intros w1 w2.
  destruct (proj1 (rollback_on_delete_failure lower_ascii) listed_ABC item_B)
    as (Hnow & _ & Hfail & _).
  split; [exact Hnow|]. exact (Hfail "denied").
Defined.

(** C5, as the code has it.  A read that succeeds replaces the whole
    collection by the rows read: a record is in the collection
    afterwards exactly when the read returned it, so a temporary record
    that the read does not return is gone.  A read that fails leaves the
    collection as it is ([loadShopping] sets the error message; the
    rejected [loadExpenses] of the realtime channel sets nothing). *)
Theorem reload_replaces_collection (toLowerCase : string → string) :
  (∀ (w : Shopping.World) (hid : string),
     let w1 := Shopping.loadShopping hid w in
     let req := next_request (Shopping.net w) in
     Shopping.shopping (Shopping.page w1) = Shopping.shopping (Shopping.page w) ∧
     (∀ rows,
        let w2 := Shopping.step toLowerCase
                    (Shopping.ShoppingRead req (Succeeded rows)) w1 in
        Shopping.shopping (Shopping.page w2) = rows ∧
        ∀ x, x ∈ Shopping.shopping (Shopping.page w2) ↔ x ∈ rows) ∧
     (∀ message,
        let w2 := Shopping.step toLowerCase
                    (Shopping.ShoppingRead req (Failed message)) w1 in
        Shopping.shopping (Shopping.page w2) = Shopping.shopping (Shopping.page w) ∧
        Shopping.msg (Shopping.page w2) = Some message)) ∧
  (∀ (w : EconomyPage.World) rows message,
     EconomyPage.expenses (EconomyPage.loadExpenses_resume (Succeeded rows) w)
     = rows ∧
     EconomyPage.loadExpenses_resume (Failed message) w = w).
Proof.
  split; [|done].
  intros w hid w1 req.
  assert (Hawait : awaiting (Shopping.net w1) !! req = Some Shopping.LoadShopping_k).
  { apply lookup_insert_eq. }
  split; [done|]. split.
  - intros rows w2. unfold w2, Shopping.step. rewrite Hawait. done.
  - intros message w2. unfold w2, Shopping.step. rewrite Hawait. done.
Qed.

(** C5, as it is stated, fails: the temporary record of a pending
    [addShopping] does not stay in place when a reload resolves. *)
Lemma reload_drops_temporary_record :
  let temp := {| Shopping.id := "temp-0001"; Shopping.text := "milk";
                 Shopping.checked := false |} in
  let w1 := Shopping.addShopping "0001" milk_typed in
  let w2 := Shopping.run lower_ascii
              [ Shopping.LoadShopping "h1";
                Shopping.ShoppingRead 1 (Succeeded [item_A]) ] w1 in
  temp ∈ Shopping.shopping (Shopping.page w1) ∧
  awaiting (Shopping.net w2) !! 0%nat = Some (Shopping.AddShopping_k "temp-0001") ∧
  ¬ (temp ∈ Shopping.shopping (Shopping.page w2)).
Proof.
  intros temp w1 w2. split; [|split].
  - vm_compute. apply list_elem_of_here.
  - vm_compute. reflexivity.
  - assert (Hw2 : Shopping.shopping (Shopping.page w2) = [item_A])
      by (vm_compute; reflexivity).
    rewrite Hw2. intros Hin. apply list_elem_of_singleton in Hin.
    discriminate Hin.
Qed.

(** C3.  In every state the page reaches, at most one timer is pending
    under a key.  When an item is edited N times before a timer of the
    item fires, the edits issue no remote call, one timer is left pending
    for the item, and it carries the patch of the last edit; when it
    fires, one update with that patch is issued and no timer of the item
    is pending any more.  This holds for [schedulePantryUpdate] and for
    [scheduleEventPatch]. *)
Theorem debounce_coalescing (toLowerCase : string → string) :
  (∀ (es : list Shopping.Event) (hid uid : string),
     let w := Shopping.run toLowerCase es (Shopping.mounted hid uid) in
     (∀ id h1 h2 p1 p2,
        pending (Shopping.timers w) !! h1 = Some (id, p1) →
        pending (Shopping.timers w) !! h2 = Some (id, p2) →
        h1 = h2 ∧ p1 = p2) ∧
     (∀ id patches last,
        let w' := Shopping.run toLowerCase
                    (Shopping.SchedulePantryUpdate id <$> (patches ++ [last]))
                    w in
        calls (Shopping.net w') = calls (Shopping.net w) ∧
        ∃ h,
          pending (Shopping.timers w') !! h = Some (id, last) ∧
          (∀ h' p', pending (Shopping.timers w') !! h' = Some (id, p') →
                    h' = h ∧ p' = last) ∧
          let w'' := Shopping.step toLowerCase (Shopping.Timeout h) w' in
          calls (Shopping.net w'')
          = calls (Shopping.net w) ++ [Shopping.UpdatePantry id last] ∧
          (∀ h' p', pending (Shopping.timers w'') !! h' ≠ Some (id, p')))) ∧
  (∀ (time_value : string → Z) (es : list TasksEvents.Event)
     (rows : list TasksEvents.EventRow),
     let w := TasksEvents.run time_value es (TasksEvents.mounted rows) in
     (∀ id h1 h2 p1 p2,
        pending (TasksEvents.timers w) !! h1 = Some (id, p1) →
        pending (TasksEvents.timers w) !! h2 = Some (id, p2) →
        h1 = h2 ∧ p1 = p2) ∧
     (∀ id patches last,
        let w' := TasksEvents.run time_value
                    (TasksEvents.ScheduleEventPatch id <$> (patches ++ [last]))
                    w in
        calls (TasksEvents.net w') = calls (TasksEvents.net w) ∧
        ∃ h,
          pending (TasksEvents.timers w') !! h = Some (id, last) ∧
          (∀ h' p', pending (TasksEvents.timers w') !! h' = Some (id, p') →
                    h' = h ∧ p' = last) ∧
          let w'' := TasksEvents.step time_value (TasksEvents.Timeout h) w' in
          calls (TasksEvents.net w'')
          = calls (TasksEvents.net w) ++ [TasksEvents.UpdateEvent id last] ∧
          (∀ h' p', pending (TasksEvents.timers w'') !! h' ≠ Some (id, p')))).
Proof.
  split.
  - intros es hid uid w.
    assert (Hok : timers_ok w).
    { apply run_timers_ok, mounted_timers_ok. }
    split.
    + intros id h1 h2 p1 p2 H1 H2.
      exact (debounced_unique _ _ _ _ _ _ _ Hok H1 H2).
    + intros id patches last. by apply pantry_coalescing.
  - intros time_value es rows w.
    assert (Hok : event_timers_ok w).
    { apply run_event_timers_ok, debounced_init. }
    split.
    + intros id h1 h2 p1 p2 H1 H2.
      exact (debounced_unique _ _ _ _ _ _ _ Hok H1 H2).
    + intros id patches last. by apply event_coalescing.
Qed.

Lemma debounce_coalescing_witness :
  let w' := Shopping.run lower_ascii
              [ Shopping.SchedulePantryUpdate "p1" (name_patch "a");
                Shopping.SchedulePantryUpdate "p1" (name_patch "ab");
                Shopping.SchedulePantryUpdate "p1" (name_patch "abc") ]
              pantry_listed in
  ∃ h,
    pending (Shopping.timers w') !! h = Some ("p1", name_patch "abc") ∧
    calls (Shopping.net (Shopping.step lower_ascii (Shopping.Timeout h) w'))
    = [ Shopping.SelectPantry "h1";
        Shopping.UpdatePantry "p1" (name_patch "abc") ].
Proof.
  intros w'.
  destruct (proj1 (debounce_coalescing lower_ascii)
              [ Shopping.LoadPantry "h1";
                Shopping.PantryRead 0 (Succeeded [pasta]) ] "h1" "u1")
    as [_ Hcoalesce].
  destruct (Hcoalesce "p1" [name_patch "a"; name_patch "ab"] (name_patch "abc"))
    as (_ & h & Hpending & _ & Hfire & _).
  exists h. split; [exact Hpending|exact Hfire].
Defined.

(** C6, as the code has it.  [toggleShopping] flips the box of the item
    in the collection at once and issues the update at once; when that
    update fails, the box of the records with the id of the item is set
    to what the item had, nothing else changes, so a collection with
    distinct ids that held the item is as it was, and the error message is
    set.  [schedulePantryUpdate] applies the patch to the item at once,
    issues no call and arms a timer under the id of the item; when the
    update that the timer issues fails, the error message is set and the
    collections stay as they are: the patch is not reverted. *)
Theorem update_apply_and_revert (toLowerCase : string → string) :
  (∀ (w : Shopping.World) (item : Shopping.ShoppingItem),
     let w1 := Shopping.toggleShopping item w in
     let req := next_request (Shopping.net w) in
     Shopping.shopping (Shopping.page w1)
     = (λ x, if decide (Shopping.id x = Shopping.id item)
             then Shopping.with_checked x (negb (Shopping.checked x)) else x)
         <$> Shopping.shopping (Shopping.page w) ∧
     Shopping.pantry (Shopping.page w1) = Shopping.pantry (Shopping.page w) ∧
     calls (Shopping.net w1)
     = calls (Shopping.net w)
       ++ [Shopping.UpdateShoppingChecked (Shopping.id item)
                                          (negb (Shopping.checked item))] ∧
     ∀ message,
       let w2 := Shopping.step toLowerCase
                   (Shopping.Written req (Failed message)) w1 in
       Shopping.msg (Shopping.page w2) = Some message ∧
       Shopping.pantry (Shopping.page w2) = Shopping.pantry (Shopping.page w) ∧
       Shopping.shopping (Shopping.page w2)
       = (λ x, if decide (Shopping.id x = Shopping.id item)
               then Shopping.with_checked x (Shopping.checked item) else x)
           <$> Shopping.shopping (Shopping.page w) ∧
       (item ∈ Shopping.shopping (Shopping.page w) →
        NoDup (Shopping.id <$> Shopping.shopping (Shopping.page w)) →
        Shopping.shopping (Shopping.page w2)
        = Shopping.shopping (Shopping.page w))) ∧
  (∀ (w : Shopping.World) (id : string) (patch : Shopping.PantryPatch),
     let w1 := Shopping.schedulePantryUpdate id patch w in
     Shopping.pantry (Shopping.page w1)
     = (λ x, if decide (Shopping.p_id x = id)
             then Shopping.patched x patch else x)
         <$> Shopping.pantry (Shopping.page w) ∧
     Shopping.shopping (Shopping.page w1) = Shopping.shopping (Shopping.page w) ∧
     calls (Shopping.net w1) = calls (Shopping.net w) ∧
     pending (Shopping.timers w1) !! next_handle (Shopping.timers w)
     = Some (id, patch) ∧
     ∀ w' req message,
       awaiting (Shopping.net w') !! req = Some Shopping.PantryUpdate_k →
       let w2 := Shopping.step toLowerCase
                   (Shopping.Written req (Failed message)) w' in
       Shopping.msg (Shopping.page w2) = Some message ∧
       Shopping.pantry (Shopping.page w2) = Shopping.pantry (Shopping.page w') ∧
       Shopping.shopping (Shopping.page w2)
       = Shopping.shopping (Shopping.page w')).
Proof.
  split.
  - intros w item w1 req.
    assert (Hawait : awaiting (Shopping.net w1) !! req
                     = Some (Shopping.ToggleShopping_k item)).
    { apply lookup_insert_eq. }
    split; [done|]. split; [done|]. split; [done|].
    intros message w2.
    assert (Hw2 : Shopping.shopping (Shopping.page w2)
       = (λ x, if decide (Shopping.id x = Shopping.id item)
               then Shopping.with_checked x (Shopping.checked item) else x)
           <$> Shopping.shopping (Shopping.page w)).
    { unfold w2, Shopping.step. rewrite Hawait. simpl.
      rewrite <- list_fmap_compose. apply list_fmap_ext.
      intros _ x _. simpl.
      destruct (decide (Shopping.id x = Shopping.id item)) as [Hx|Hx]; simpl.
      - by rewrite decide_True by done.
      - by rewrite decide_False by done. }
    split; [|split; [|split]].
    + unfold w2, Shopping.step. by rewrite Hawait.
    + unfold w2, Shopping.step. by rewrite Hawait.
    + exact Hw2.
    + intros Hin Hnd. rewrite Hw2.
      rewrite <- (list_fmap_id (Shopping.shopping (Shopping.page w))) at 2.
      apply list_fmap_ext. intros k x Hk. simpl.
      case_decide as Hx; [|done].
      apply list_elem_of_lookup in Hin as [k' Hk'].
      assert (k = k') as <-.
      { eapply NoDup_lookup; [exact Hnd| |].
        - rewrite list_lookup_fmap, Hk. simpl. reflexivity.
        - rewrite list_lookup_fmap, Hk'. simpl. by rewrite Hx. }
      assert (x = item) as -> by congruence. by destruct item.
  - intros w id patch w1.
    destruct (schedule_timers id patch w) as (_ & Htimers & Hnet & _ & Hshop).
    split; [|split; [|split; [|split]]].
    + unfold w1, Shopping.schedulePantryUpdate. simpl.
      by destruct (debounce id (id, patch) _ _).
    + exact Hshop.
    + unfold w1. by rewrite Hnet.
    + unfold w1. rewrite Htimers, debounce_eq. simpl. apply lookup_insert_eq.
    + intros w' req message Hawait w2.
      unfold w2, Shopping.step. by rewrite Hawait.
Qed.

Lemma update_apply_and_revert_witness :
  let w1 := Shopping.toggleShopping item_B listed_ABC in
  let w2 := Shopping.step lower_ascii
              (Shopping.Written 1 (Failed "denied")) w1 in
  Shopping.shopping (Shopping.page w1)
  = [item_A; Shopping.with_checked item_B false; item_C] ∧
  Shopping.shopping (Shopping.page w2) = [item_A; item_B; item_C] ∧
  Shopping.msg (Shopping.page w2) = Some "denied".
Proof.
  intros w1 w2.
  destruct (proj1 (update_apply_and_revert lower_ascii) listed_ABC item_B)
    as (Hnow & _ & _ & Hfail).
  destruct (Hfail "denied") as (Hmsg & _ & _ & Hback).
  split; [exact Hnow|]. split; [|exact Hmsg].
  apply Hback.
  - vm_compute. apply list_elem_of_further, list_elem_of_here.
  - apply (bool_decide_unpack _). vm_compute. exact I.
Defined.

(** C6, as it is stated, fails on the debounced path: when the deferred
    update of the pantry item fails, the name stays as it was typed. *)
Lemma debounced_failure_not_reverted :
  let w' := Shopping.run lower_ascii
              [ Shopping.SchedulePantryUpdate "p1" (name_patch "Past");
                Shopping.Timeout 1;
                Shopping.Written 1 (Failed "denied") ]
              pantry_listed in
  Shopping.pantry (Shopping.page pantry_listed) = [pasta] ∧
  calls (Shopping.net w')
  = [ Shopping.SelectPantry "h1";
      Shopping.UpdatePantry "p1" (name_patch "Past") ] ∧
  Shopping.msg (Shopping.page w') = Some "denied" ∧
  Shopping.pantry (Shopping.page w')
  = [ {| Shopping.p_id := "p1"; Shopping.p_name := "Past";
         Shopping.p_qty := None; Shopping.p_unit := None |} ] ∧
  Shopping.pantry (Shopping.page w') ≠ Shopping.pantry (Shopping.page pantry_listed).
Proof.
  intros w'.
  assert (Hw' : Shopping.pantry (Shopping.page w')
                = [ {| Shopping.p_id := "p1"; Shopping.p_name := "Past";
                       Shopping.p_qty := None; Shopping.p_unit := None |} ])
    by (vm_compute; reflexivity).
  split; [vm_compute; reflexivity|].
  split; [vm_compute; reflexivity|].
  split; [vm_compute; reflexivity|].
  split; [exact Hw'|].
  rewrite Hw'. intros Heq. vm_compute in Heq. discriminate Heq.
Qed.

Lemma step_message (toLowerCase : string → string) e w :
  let before := Shopping.msg (Shopping.page w) in
  let after := Shopping.msg (Shopping.page (Shopping.step toLowerCase e w)) in
  (clears_message e = true →
   after = None ∨ failure_of e = after) ∧
  (clears_message e = false → failure_of e = None → after = before) ∧
  (clears_message e = false →
   ∀ m, failure_of e = Some m → after = Some m ∨ after = before).
Proof.
  intros before after. unfold before, after. clear before after.
  destruct e;
    try (change (Shopping.step toLowerCase
                   (Shopping.SchedulePantryUpdate id patch) w)
           with (Shopping.schedulePantryUpdate id patch w);
         destruct (schedule_timers id patch w) as (_ & _ & _ & -> & _); done);
    unfold Shopping.step, Shopping.addShopping, Shopping.clearChecked,
      Shopping.moveToPantry, Shopping.addPantry, Shopping.timeout; simpl;
    (split; [|split]); try done; intros;
    step_cases; simplify_eq/=; auto.
Qed.

(** C7, as the code has it.  The message is set by a failing reply to the
    message of that reply (and by [addPantry] when the quantity is not a
    number), cleared by the start of a create, toggle, remove, clear or
    move, and left alone by everything else: after a sequence of
    operations it is the message of a failure of the sequence (or the one
    from before), and after a toggle or remove that succeeds it is null.
    A debounced edit leaves the message alone at the call, when its timer
    fires and when its update succeeds. *)
Theorem last_error_message (toLowerCase : string → string) :
  (∀ (w : Shopping.World) (e : Shopping.Event),
     let before := Shopping.msg (Shopping.page w) in
     let after :=
       Shopping.msg (Shopping.page (Shopping.step toLowerCase e w)) in
     (clears_message e = true → after = None ∨ failure_of e = after) ∧
     (clears_message e = false → failure_of e = None → after = before) ∧
     (clears_message e = false →
      ∀ m, failure_of e = Some m → after = Some m ∨ after = before)) ∧
  (∀ (w : Shopping.World) req k m,
     awaiting (Shopping.net w) !! req = Some k →
     Shopping.msg
       (Shopping.page (Shopping.step toLowerCase (failing_reply k req m) w))
     = Some m) ∧
  (∀ (es : list Shopping.Event) (w : Shopping.World) m,
     Shopping.msg (Shopping.page (Shopping.run toLowerCase es w)) = Some m →
     Shopping.msg (Shopping.page w) = Some m ∨
     ∃ e, e ∈ es ∧ failure_of e = Some m) ∧
  (∀ (w : Shopping.World) (item : Shopping.ShoppingItem),
     let req := next_request (Shopping.net w) in
     Shopping.msg
       (Shopping.page
          (Shopping.run toLowerCase
             [ Shopping.ToggleShopping item;
               Shopping.Written req (Succeeded ()) ] w)) = None ∧
     Shopping.msg
       (Shopping.page
          (Shopping.run toLowerCase
             [ Shopping.RemoveShopping item;
               Shopping.Written req (Succeeded ()) ] w)) = None) ∧
  (∀ (w : Shopping.World) id patch h req,
     Shopping.msg
       (Shopping.page
          (Shopping.run toLowerCase
             [ Shopping.SchedulePantryUpdate id patch;
               Shopping.Timeout h;
               Shopping.Written req (Succeeded ()) ] w))
     = Shopping.msg (Shopping.page w)).
Proof.
  split; [exact (λ w e, step_message toLowerCase e w)|].
  split; [|split; [|split]].
  - intros w req k m Hawait.
    destruct k; simpl; by rewrite Hawait.
  - intros es. induction es as [|e es IH]; intros w m Hm; [by left|].
    simpl in Hm. apply IH in Hm as [Hm|(e' & He' & Hf)].
    + destruct (step_message toLowerCase e w) as (Hclear & Hquiet & Hfail).
      destruct (clears_message e) eqn:Hc.
      { destruct (Hclear eq_refl) as [Hnone|Hsome].
        - rewrite Hnone in Hm. discriminate Hm.
        - right. exists e. split; [apply list_elem_of_here|]. congruence. }
      destruct (failure_of e) as [m'|] eqn:Hf.
      * destruct (Hfail eq_refl m' eq_refl) as [Hset|Hkeep].
        -- right. exists e. split; [apply list_elem_of_here|]. congruence.
        -- left. congruence.
      * left. rewrite <- Hquiet by done. exact Hm.
    + right. exists e'. split; [by apply list_elem_of_further|done].
  - intros w item req. split.
    + simpl. rewrite lookup_insert_eq. done.
    + simpl. rewrite lookup_insert_eq. done.
  - intros w id patch h req.
    unfold Shopping.run. simpl foldl.
    set (w1 := Shopping.schedulePantryUpdate id patch w).
    set (w2 := Shopping.timeout h w1).
    pose proof (proj1 (proj2 (step_message toLowerCase
                  (Shopping.Written req (Succeeded ())) w2)) eq_refl eq_refl) as H3.
    pose proof (proj1 (proj2 (step_message toLowerCase
                  (Shopping.Timeout h) w1)) eq_refl eq_refl) as H2.
    pose proof (proj1 (proj2 (step_message toLowerCase
                  (Shopping.SchedulePantryUpdate id patch) w)) eq_refl eq_refl) as H1.
    simpl in H1, H2, H3. fold w1 in H1. fold w2 in H2.
    etrans; [exact H3|]. etrans; [exact H2|]. exact H1.
Qed.

Lemma last_error_message_witness :
  let w := Shopping.run lower_ascii
             [ Shopping.ToggleShopping item_A;
               Shopping.Written 1 (Failed "denied") ] listed_ABC in
  Shopping.msg (Shopping.page w) = Some "denied" ∧
  Shopping.msg
    (Shopping.page
       (Shopping.step lower_ascii (Shopping.RemoveShopping item_C) w))
  = None.
Proof.
  intros w.
  destruct (last_error_message lower_ascii) as (Hstep & Hfail & _).
  split.
  - apply (Hfail (Shopping.step lower_ascii (Shopping.ToggleShopping item_A)
                                 listed_ABC)
                 1%nat (Shopping.ToggleShopping_k item_A) "denied").
    vm_compute. reflexivity.
  - destruct (Hstep w (Shopping.RemoveShopping item_C)) as (Hclear & _).
    destruct (Hclear eq_refl) as [Hnone|Hnone]; [exact Hnone|].
    symmetry. exact Hnone.
Defined.

(** C7, as it is stated, fails on the debounced path: an edit of a
    pantry item whose update succeeds leaves the message of an earlier
    failure in place. *)
Lemma debounced_success_keeps_error :
  let w := Shopping.run lower_ascii
             [ Shopping.ToggleShopping item_A;
               Shopping.Written 2 (Failed "denied") ]
             (Shopping.run lower_ascii
                [ Shopping.LoadPantry "h1";
                  Shopping.PantryRead 1 (Succeeded [pasta]) ]
                listed_ABC) in
  let w' := Shopping.run lower_ascii
              [ Shopping.SchedulePantryUpdate "p1" (name_patch "Penne");
                Shopping.Timeout 1;
                Shopping.Written 3 (Succeeded ()) ] w in
  Shopping.msg (Shopping.page w) = Some "denied" ∧
  calls (Shopping.net w')
  = calls (Shopping.net w) ++ [Shopping.UpdatePantry "p1" (name_patch "Penne")] ∧
  awaiting (Shopping.net w') = ∅ ∧
  Shopping.msg (Shopping.page w') ≠ None.
Proof.
  intros w w'. split; [vm_compute; reflexivity|].
  split; [vm_compute; reflexivity|].
  split; [apply map_eq; intros k; vm_compute; by destruct k as [|[|[|[|]]]]|].
  assert (Hw' : Shopping.msg (Shopping.page w') = Some "denied")
    by (vm_compute; reflexivity).
  rewrite Hw'. discriminate.
Qed.

End MutationClaims.

(** * Further properties of the pages *)

(** ** What a settlement plan moves *)

Section PlanFacts.
Import Economy.

Lemma sum_balances_perm l1 l2 :
  l1 ≡ₚ l2 → sum_balances l1 = sum_balances l2.
Proof.
  induction 1; simpl; lia.
Qed.

Lemma sum_balances_settle p x rest :
  sum_balances (settle p x rest) = sum_balances (p :: rest) - x.
Proof.
  unfold settle. case_decide; simpl; lia.
Qed.

Lemma sum_balances_positive l :
  Forall (λ b, 0 < balance_ore b) l → 0 <= sum_balances l.
Proof.
  induction 1; simpl; lia.
Qed.

Lemma plan_total_app p1 p2 :
  plan_total (p1 ++ p2) = plan_total p1 + plan_total p2.
Proof.
  induction p1; simpl; lia.
Qed.

Lemma plan_total_emit d c x : 0 < x → plan_total (emit d c x) = x.
Proof.
  intros Hx. unfold emit. case_decide; simpl; lia.
Qed.

Lemma greedy_total ds cs plan :
  greedy ds cs plan →
  Forall (λ b, 0 < balance_ore b) ds → Forall (λ b, 0 < balance_ore b) cs →
  plan_total plan = Z.min (sum_balances ds) (sum_balances cs).
Proof.
  induction 1 as [cs|ds|d ds c cs x plan Hx _ IH]; intros Hd Hc.
  - pose proof (sum_balances_positive _ Hc). simpl. lia.
  - pose proof (sum_balances_positive _ Hd). simpl. lia.
  - inversion Hd as [|? ? Hd0 Hds]; inversion Hc as [|? ? Hc0 Hcs]; subst.
    rewrite plan_total_app, plan_total_emit by lia.
    rewrite IH by (apply settle_positive; [lia|done]).
    rewrite !sum_balances_settle. simpl. lia.
Qed.

Lemma debtors_of_sum balances :
  sum_balances (debtors_of balances) = debt_total balances.
Proof.
  unfold debtors_of. rewrite (sum_balances_perm _ _ (sort_perm _ _)).
  induction balances as [|b bs IH]; [done|].
  rewrite filter_cons. case_decide; csimpl; rewrite IH; lia.
Qed.

Lemma creditors_of_sum balances :
  sum_balances (creditors_of balances) = credit_total balances.
Proof.
  unfold creditors_of. rewrite (sum_balances_perm _ _ (sort_perm _ _)).
  induction balances as [|b bs IH]; [done|].
  rewrite filter_cons. case_decide; csimpl; rewrite IH; lia.
Qed.

Lemma sum_balances_split bs :
  sum_balances bs = credit_total bs - debt_total bs.
Proof.
  induction bs; simpl; lia.
Qed.

Lemma greedy_swap ds cs plan :
  greedy ds cs plan → greedy cs ds (swap_line <$> plan).
Proof.
  induction 1 as [cs|ds|d ds c cs x plan Hx _ IH]; csimpl; try constructor.
  rewrite fmap_app.
  replace (swap_line <$> emit d c x) with (emit c d x)
    by (unfold emit; case_decide; done).
  apply greedy_transfer; [lia|done].
Qed.

Lemma received_by_swap name plan :
  received_by name plan = sent_by name (swap_line <$> plan).
Proof.
  induction plan as [|l plan IH]; [done|]. csimpl. rewrite IH. done.
Qed.

Lemma sent_by_app name p1 p2 :
  sent_by name (p1 ++ p2) = sent_by name p1 + sent_by name p2.
Proof.
  induction p1; simpl; lia.
Qed.

Lemma sent_by_none name plan :
  (∀ l, l ∈ plan → line_from l ≠ name) → sent_by name plan = 0.
Proof.
  induction plan as [|l plan IH]; intros H; [done|]. simpl.
  rewrite IH by (intros; apply H; by right).
  case_decide as Hl; [|done]. destruct (H l); [by left|done].
Qed.

Lemma settle_elem b p x rest :
  b ∈ settle p x rest → b = with_balance p (balance_ore p - x) ∨ b ∈ rest.
Proof.
  unfold settle. case_decide; [by right|].
  intros [->|?]%elem_of_cons; auto.
Qed.

(** Every line of a greedy plan goes from a debtor of the list to a
    creditor of the list and is no more than what either has left. *)
Lemma greedy_lines ds cs plan :
  greedy ds cs plan →
  Forall (λ b, 0 < balance_ore b) ds → Forall (λ b, 0 < balance_ore b) cs →
  ∀ l, l ∈ plan →
    ∃ d c, d ∈ ds ∧ c ∈ cs ∧
      line_from l = bal_display_name d ∧ line_to l = bal_display_name c ∧
      0 < line_amount_ore l ∧
      line_amount_ore l <= balance_ore d ∧ line_amount_ore l <= balance_ore c.
Proof.
  induction 1 as [cs|ds|d ds c cs x plan Hx _ IH]; intros Hd Hc l Hl.
  - by apply elem_of_nil in Hl.
  - by apply elem_of_nil in Hl.
  - inversion Hd as [|? ? Hd0 Hds]; inversion Hc as [|? ? Hc0 Hcs]; subst.
    apply elem_of_app in Hl as [Hl|Hl].
    + unfold emit in Hl. case_decide; [|by apply elem_of_nil in Hl].
      apply list_elem_of_singleton in Hl as ->. simpl.
      exists d, c. repeat split; try lia; by left.
    + destruct IH with (l := l)
        as (d' & c' & Hd' & Hc' & Hf & Ht & H0 & H1 & H2);
        [apply settle_positive; [lia|done]..|done|].
      apply settle_elem in Hd' as [->|Hd']; apply settle_elem in Hc' as [->|Hc'];
        simpl in *.
      * exists d, c. repeat split; try done; try lia; by left.
      * exists d, c'. repeat split; try done; try lia; [by left|by right].
      * exists d', c. repeat split; try done; try lia; [by right|by left].
      * exists d', c'. repeat split; try done; by right.
Qed.

Lemma sum_balances_elem b l :
  Forall (λ b, 0 < balance_ore b) l → b ∈ l → balance_ore b <= sum_balances l.
Proof.
  induction 1 as [|a l Ha Hl IH]; intros Hb; [by apply elem_of_nil in Hb|].
  pose proof (sum_balances_positive _ Hl).
  apply elem_of_cons in Hb as [->|Hb]; simpl; [lia|].
  specialize (IH Hb). lia.
Qed.

(** When the credits cover the debts, the lines that leave a debtor add
    up to the debt. *)
Lemma greedy_sent ds cs plan :
  greedy ds cs plan →
  Forall (λ b, 0 < balance_ore b) ds → Forall (λ b, 0 < balance_ore b) cs →
  NoDup (bal_display_name <$> ds) →
  sum_balances ds <= sum_balances cs →
  ∀ d, d ∈ ds → sent_by (bal_display_name d) plan = balance_ore d.
Proof.
  induction 1 as [cs|ds|d ds c cs x plan Hx Hg IH]; intros Hd Hc Hnd Hsum b Hb.
  - by apply elem_of_nil in Hb.
  - pose proof (sum_balances_elem _ _ Hd Hb) as Hle.
    rewrite Forall_forall in Hd. specialize (Hd b Hb). simpl in *. lia.
  - inversion Hd as [|? ? Hd0 Hds]; inversion Hc as [|? ? Hc0 Hcs]; subst.
    rewrite fmap_cons in Hnd. apply NoDup_cons in Hnd as [Hfresh Hnd].
    set (x := Z.min (balance_ore d) (balance_ore c)) in *.
    assert (Hpd : Forall (λ b, 0 < balance_ore b) (settle d x ds))
      by (apply settle_positive; [lia|done]).
    assert (Hpc : Forall (λ b, 0 < balance_ore b) (settle c x cs))
      by (apply settle_positive; [lia|done]).
    assert (Hle : sum_balances (settle d x ds) <= sum_balances (settle c x cs))
      by (rewrite !sum_balances_settle; simpl in *; lia).
    assert (Hnd' : NoDup (bal_display_name <$> settle d x ds)).
    { unfold settle. case_decide; [done|].
      rewrite fmap_cons. apply NoDup_cons. done. }
    specialize (IH Hpd Hpc Hnd' Hle).
    rewrite sent_by_app.
    apply elem_of_cons in Hb as [->|Hb].
    + replace (sent_by (bal_display_name d) (emit d c x)) with x
        by (unfold emit; case_decide; simpl; [case_decide; [lia|done]|lia]).
      destruct (decide (balance_ore d - x = 0)) as [Hz|Hz].
      * rewrite sent_by_none; [lia|].
        intros l Hl Hname.
        destruct (greedy_lines _ _ _ Hg Hpd Hpc l Hl)
          as (d' & _ & Hd' & _ & Hf & _).
        unfold settle in Hd'. rewrite decide_True in Hd' by done.
        apply Hfresh. rewrite <- Hname, Hf.
        apply list_elem_of_fmap. by exists d'.
      * specialize (IH (with_balance d (balance_ore d - x))).
        simpl in IH. rewrite IH; [lia|].
        unfold settle. rewrite decide_False by done. by left.
    + assert (bal_display_name b ≠ bal_display_name d) as Hne.
      { intros Heq. apply Hfresh. rewrite <- Heq.
        apply list_elem_of_fmap. by exists b. }
      replace (sent_by (bal_display_name b) (emit d c x)) with 0
        by (unfold emit; case_decide; simpl; [case_decide; [congruence|done]|done]).
      rewrite IH; [lia|].
      unfold settle. case_decide; [done|by right].
Qed.

Lemma computeSettlements_plan fuel balances plan :
  (length balances ≤ fuel)%nat →
  computeSettlements fuel balances = Some plan →
  greedy (debtors_of balances) (creditors_of balances) plan.
Proof.
  intros Hfuel Hplan.
  destruct (computeSettlements_greedy fuel balances Hfuel) as (plan' & Heq & Hg & _).
  congruence.
Qed.

Lemma debtors_of_elem balances d :
  d ∈ debtors_of balances ↔
  ∃ b, b ∈ balances ∧ balance_ore b < 0 ∧ d = with_balance b (- balance_ore b).
Proof.
  unfold debtors_of. rewrite (sort_perm _ _), list_elem_of_fmap.
  split.
  - intros (b & -> & [Hneg Hb]%list_elem_of_filter). by exists b.
  - intros (b & Hb & Hneg & ->). exists b. split; [done|].
    by apply list_elem_of_filter.
Qed.

Lemma creditors_of_elem balances c :
  c ∈ creditors_of balances ↔ c ∈ balances ∧ 0 < balance_ore c.
Proof.
  unfold creditors_of. rewrite (sort_perm _ _), list_elem_of_fmap.
  split.
  - intros (b & -> & [Hpos Hb]%list_elem_of_filter). by rewrite with_balance_id.
  - intros [Hc Hpos]. exists c. rewrite with_balance_id. split; [done|].
    by apply list_elem_of_filter.
Qed.

Lemma names_filter_NoDup (P : Balance → Prop) `{!∀ b, Decision (P b)}
    (f : Balance → Balance) (l : list Balance) :
  (∀ b, bal_display_name (f b) = bal_display_name b) →
  NoDup (bal_display_name <$> l) →
  NoDup (bal_display_name <$> (f <$> filter P l)).
Proof.
  intros Hf. rewrite <- list_fmap_compose.
  induction l as [|b l IH]; [done|].
  rewrite fmap_cons. intros [Hb Hl]%NoDup_cons.
  rewrite filter_cons. case_decide; [|by apply IH].
  rewrite fmap_cons. apply NoDup_cons. split; [|by apply IH].
  simpl. rewrite Hf. intros (b' & Heq & [_ Hb']%list_elem_of_filter)%list_elem_of_fmap.
  apply Hb. apply list_elem_of_fmap. exists b'. split; [|done].
  simpl in Heq. by rewrite Hf in Heq.
Qed.

Lemma debtors_of_names balances :
  NoDup (bal_display_name <$> balances) →
  NoDup (bal_display_name <$> debtors_of balances).
Proof.
  intros Hnd. unfold debtors_of. rewrite (sort_perm _ _).
  by apply names_filter_NoDup.
Qed.

Lemma creditors_of_names balances :
  NoDup (bal_display_name <$> balances) →
  NoDup (bal_display_name <$> creditors_of balances).
Proof.
  intros Hnd. unfold creditors_of. rewrite (sort_perm _ _).
  by apply names_filter_NoDup.
Qed.

Lemma names_inj (l : list Balance) a b :
  NoDup (bal_display_name <$> l) → a ∈ l → b ∈ l →
  bal_display_name a = bal_display_name b → a = b.
Proof.
  induction l as [|c l IH]; intros Hnd Ha Hb Heq; [by apply elem_of_nil in Ha|].
  rewrite fmap_cons in Hnd. apply NoDup_cons in Hnd as [Hc Hnd].
  apply elem_of_cons in Ha as [->|Ha]; apply elem_of_cons in Hb as [->|Hb];
    [done| | |by apply IH].
  - destruct Hc. rewrite Heq. apply list_elem_of_fmap. by exists b.
  - destruct Hc. rewrite <- Heq. apply list_elem_of_fmap. by exists a.
Qed.

(** When the credits cover the debts, what the plan takes from a member
    is the debt of the member. *)
Lemma computeSettlements_sent fuel balances plan :
  (length balances ≤ fuel)%nat →
  computeSettlements fuel balances = Some plan →
  NoDup (bal_display_name <$> balances) →
  debt_total balances <= credit_total balances →
  ∀ b, b ∈ balances →
    sent_by (bal_display_name b) plan = Z.max 0 (- balance_ore b).
Proof.
  intros Hfuel Hplan Hnd Hle b Hb.
  pose proof (computeSettlements_plan _ _ _ Hfuel Hplan) as Hg.
  pose proof (debtors_positive balances) as Hpd.
  pose proof (creditors_positive balances) as Hpc.
  destruct (decide (balance_ore b < 0)) as [Hneg|Hpos].
  - rewrite <- debtors_of_sum, <- creditors_of_sum in Hle.
    pose proof (greedy_sent _ _ _ Hg Hpd Hpc (debtors_of_names _ Hnd) Hle
                  (with_balance b (- balance_ore b))) as Hs.
    simpl in Hs. rewrite Hs; [lia|].
    apply debtors_of_elem. by exists b.
  - rewrite sent_by_none; [lia|].
    intros l Hl Hname.
    destruct (greedy_lines _ _ _ Hg Hpd Hpc l Hl) as (d & _ & Hd & _ & Hf & _).
    apply debtors_of_elem in Hd as (b' & Hb' & Hneg & ->). simpl in Hf.
    assert (b' = b) as -> by (apply (names_inj balances); congruence).
    done.
Qed.

(** When the debts cover the credits, what the plan brings to a member is
    the credit of the member. *)
Lemma computeSettlements_received fuel balances plan :
  (length balances ≤ fuel)%nat →
  computeSettlements fuel balances = Some plan →
  NoDup (bal_display_name <$> balances) →
  credit_total balances <= debt_total balances →
  ∀ b, b ∈ balances →
    received_by (bal_display_name b) plan = Z.max 0 (balance_ore b).
Proof.
  intros Hfuel Hplan Hnd Hle b Hb.
  pose proof (greedy_swap _ _ _ (computeSettlements_plan _ _ _ Hfuel Hplan)) as Hg.
  pose proof (debtors_positive balances) as Hpd.
  pose proof (creditors_positive balances) as Hpc.
  rewrite received_by_swap.
  destruct (decide (0 < balance_ore b)) as [Hpos|Hneg].
  - rewrite <- debtors_of_sum, <- creditors_of_sum in Hle.
    rewrite (greedy_sent _ _ _ Hg Hpc Hpd (creditors_of_names _ Hnd) Hle b); [lia|].
    by apply creditors_of_elem.
  - rewrite sent_by_none; [lia|].
    intros l Hl Hname.
    destruct (greedy_lines _ _ _ Hg Hpc Hpd l Hl) as (c & _ & Hc & _ & Hf & _).
    apply creditors_of_elem in Hc as [Hc Hpos].
    assert (c = b) as -> by (apply (names_inj balances); congruence).
    done.
Qed.

(** X1 (computeSettlements): with enough fuel for the loop, the amounts of
    the plan add up to the smaller of the two sides, the sum of the debts
    or the sum of the credits; when the balances sum to zero the plan moves
    all of both. *)
Theorem settlement_moves_smaller_side (balances : list Balance) (fuel : nat) :
  (length balances ≤ fuel)%nat →
  ∃ plan,
    computeSettlements fuel balances = Some plan ∧
    plan_total plan = Z.min (debt_total balances) (credit_total balances) ∧
    (sum_balances balances = 0 →
     plan_total plan = debt_total balances ∧
     plan_total plan = credit_total balances).
Proof.
  intros Hfuel.
  destruct (computeSettlements_greedy fuel balances Hfuel) as (plan & Heq & Hg & _).
  exists plan. split; [done|].
  assert (plan_total plan = Z.min (debt_total balances) (credit_total balances))
    as Htotal.
  { rewrite <- debtors_of_sum, <- creditors_of_sum.
    apply greedy_total; [done|apply debtors_positive|apply creditors_positive]. }
  split; [done|].
  rewrite sum_balances_split. lia.
Qed.

Lemma settlement_moves_smaller_side_witness :
  let bs := Economy.balances [member_X; member_Y; member_Z]
                             [expense_by member_X 900] in
  (length bs ≤ 3)%nat ∧
  ∃ plan, computeSettlements 3 bs = Some plan ∧ plan_total plan = 600.
Proof.
  split; [vm_compute; lia|].
  destruct (settlement_moves_smaller_side
              (Economy.balances [member_X; member_Y; member_Z]
                                [expense_by member_X 900]) 3)
    as (plan & Heq & Htotal & _); [vm_compute; lia|].
  exists plan. split; [exact Heq|]. rewrite Htotal. reflexivity.
Defined.

(** X2 (computeSettlements): every line of the plan goes from a member
    with a negative balance to a member with a positive balance, and its
    amount is positive and no more than the debt of the one and the credit
    of the other. *)
Theorem settlement_lines_between_parties (balances : list Balance) (fuel : nat) :
  (length balances ≤ fuel)%nat →
  ∃ plan,
    computeSettlements fuel balances = Some plan ∧
    ∀ l, l ∈ plan →
      ∃ d c, d ∈ balances ∧ c ∈ balances ∧
        balance_ore d < 0 ∧ 0 < balance_ore c ∧
        line_from l = bal_display_name d ∧ line_to l = bal_display_name c ∧
        0 < line_amount_ore l ∧
        line_amount_ore l <= - balance_ore d ∧
        line_amount_ore l <= balance_ore c.
Proof.
  intros Hfuel.
  destruct (computeSettlements_greedy fuel balances Hfuel) as (plan & Heq & Hg & _).
  exists plan. split; [done|]. intros l Hl.
  destruct (greedy_lines _ _ _ Hg (debtors_positive _) (creditors_positive _) l Hl)
    as (d & c & Hd & Hc & Hf & Ht & H0 & H1 & H2).
  apply debtors_of_elem in Hd as (b & Hb & Hneg & ->).
  apply creditors_of_elem in Hc as [Hc Hpos].
  exists b, c. simpl in *. repeat split; done.
Qed.

Lemma settlement_lines_between_parties_witness :
  let bs := Economy.balances [member_X; member_Y; member_Z]
                             [expense_by member_X 900] in
  (length bs ≤ 3)%nat ∧
  ∃ plan, computeSettlements 3 bs = Some plan ∧
          ∀ l, l ∈ plan → 0 < line_amount_ore l.
Proof.
  split; [vm_compute; lia|].
  destruct (settlement_lines_between_parties
              (Economy.balances [member_X; member_Y; member_Z]
                                [expense_by member_X 900]) 3)
    as (plan & Heq & Hlines); [vm_compute; lia|].
  exists plan. split; [exact Heq|]. intros l Hl.
  destruct (Hlines l Hl) as (d & c & _ & _ & _ & _ & _ & _ & H0 & _).
  exact H0.
Defined.

(** X3 (computeSettlements): when the members are shown under distinct
    names, the plan clears the smaller side.  If the credits cover the
    debts, the lines that leave a member add up to the debt of the member
    (nothing for a member without a debt); if the debts cover the credits,
    the lines that reach a member add up to the credit of the member. *)
Theorem settlement_clears_smaller_side (balances : list Balance) (fuel : nat) :
  (length balances ≤ fuel)%nat →
  NoDup (bal_display_name <$> balances) →
  ∃ plan,
    computeSettlements fuel balances = Some plan ∧
    (debt_total balances <= credit_total balances →
     ∀ b, b ∈ balances →
       sent_by (bal_display_name b) plan = Z.max 0 (- balance_ore b)) ∧
    (credit_total balances <= debt_total balances →
     ∀ b, b ∈ balances →
       received_by (bal_display_name b) plan = Z.max 0 (balance_ore b)).
Proof.
  intros Hfuel Hnd.
  destruct (computeSettlements_greedy fuel balances Hfuel) as (plan & Heq & _).
  exists plan. split; [done|]. split.
  - intros Hle b Hb. by apply (computeSettlements_sent fuel balances).
  - intros Hle b Hb. by apply (computeSettlements_received fuel balances).
Qed.

Lemma settlement_clears_smaller_side_witness :
  let bs := Economy.balances [member_X; member_Y; member_Z]
                             [expense_by member_X 900] in
  (length bs ≤ 3)%nat ∧ NoDup (bal_display_name <$> bs) ∧
  ∃ plan, computeSettlements 3 bs = Some plan ∧
          sent_by "Ylva" plan = 300 ∧ received_by "Xerxes" plan = 600.
Proof.
  assert (NoDup (bal_display_name
                   <$> Economy.balances [member_X; member_Y; member_Z]
                                        [expense_by member_X 900])) as Hnd.
  { vm_compute. apply (bool_decide_unpack _). vm_compute. exact I. }
  split; [vm_compute; lia|]. split; [exact Hnd|].
  destruct (settlement_clears_smaller_side
              (Economy.balances [member_X; member_Y; member_Z]
                                [expense_by member_X 900]) 3)
    as (plan & Heq & Hs & Hr); [vm_compute; lia|exact Hnd|].
  exists plan. split; [exact Heq|]. split.
  - apply (Hs ltac:(vm_compute; discriminate)
              {| bal_user_id := "y-0000002"; bal_display_name := "Ylva";
                 balance_ore := -300 |}).
    vm_compute. apply list_elem_of_further, list_elem_of_here.
  - apply (Hr ltac:(vm_compute; discriminate)
              {| bal_user_id := "x-0000001"; bal_display_name := "Xerxes";
                 balance_ore := 600 |}).
    vm_compute. apply list_elem_of_here.
Defined.

End PlanFacts.

(** ** What the economy page derives from its two lists *)

Section RenderFacts.
Import Economy EconomyRender.

(** X4 (balances, settlements): when the number of members divides the
    total, the roster has no duplicate and holds every payer, and the
    members are shown under distinct names, the balances sum to zero and
    the net flow of the plan to each member is the balance of the member:
    the plan settles the household. *)
Theorem even_split_settles (members : list Member) (expenses : list Expense) :
  members ≠ [] →
  NoDup (user_id <$> members) →
  Forall (λ e, paid_by e ∈ user_id <$> members) expenses →
  NoDup (shown_name <$> members) →
  (Z.of_nat (length members) | totalOre expenses) →
  sum_balances (balances members expenses) = 0 ∧
  ∃ plan,
    settlements members expenses = Some plan ∧
    ∀ b, b ∈ balances members expenses →
      received_by (bal_display_name b) plan - sent_by (bal_display_name b) plan
      = balance_ore b.
Proof.
  intros Hne Hids Hpayers Hnames [q Hq].
  assert (Hsum : sum_balances (balances members expenses) = 0).
  { rewrite sum_balances_roster by done.
    rewrite totalOre_total in Hq. rewrite Hq.
    assert (0 < Z.of_nat (length members)) as Hn
      by (destruct members; [done|simpl; lia]).
    set (n := Z.of_nat (length members)) in *.
    assert ((n - 2 * (q * n)) / (2 * n) = - q) as ->; [|lia].
    symmetry. apply (Z.div_unique_pos _ _ _ n); lia. }
  split; [done|].
  assert (Hnd : NoDup (bal_display_name <$> balances members expenses)).
  { rewrite balances_nonempty by done. by rewrite <- list_fmap_compose. }
  destruct (computeSettlements_greedy (length (balances members expenses))
              (balances members expenses) ltac:(done)) as (plan & Heq & _).
  exists plan. split; [done|]. intros b Hb.
  rewrite sum_balances_split in Hsum.
  rewrite (computeSettlements_sent _ _ _ (le_n _) Heq Hnd) by (done || lia).
  rewrite (computeSettlements_received _ _ _ (le_n _) Heq Hnd) by (done || lia).
  lia.
Qed.

Lemma even_split_settles_witness :
  let members := [member_X; member_Y; member_Z] in
  let expenses := [expense_by member_X 900] in
  (Z.of_nat (length members) | totalOre expenses) ∧
  sum_balances (balances members expenses) = 0 ∧
  ∃ plan, settlements members expenses = Some plan.
Proof.
  assert (Z.of_nat (length [member_X; member_Y; member_Z])
          | totalOre [expense_by member_X 900]) as Hdiv by (by exists 300).
  split; [exact Hdiv|].
  destruct (even_split_settles [member_X; member_Y; member_Z]
                               [expense_by member_X 900])
    as (Hsum & plan & Heq & _).
  - discriminate.
  - vm_compute. apply (bool_decide_unpack _). vm_compute. exact I.
  - apply Forall_cons. split; [|apply Forall_nil; exact I].
    apply list_elem_of_here.
  - vm_compute. apply (bool_decide_unpack _). vm_compute. exact I.
  - exact Hdiv.
  - split; [exact Hsum|]. exists plan. exact Heq.
Defined.

(** The two roundings of the share: [roundOre(paid - share)] of [balances]
    and [Math.round(totalOre / n)] of the header. *)
Lemma share_roundings (t n : Z) :
  0 < n →
  (n - 2 * t) / (2 * n)
  = - ((2 * t + n) / (2 * n)) + (if decide (2 * (t `mod` n) = n) then 1 else 0).
Proof.
  intros Hn.
  pose proof (tie_cases t n Hn) as [H1 H2]. simpl in H1, H2.
  case_decide as Htie; [specialize (H2 Htie)|specialize (H1 Htie)]; nia.
Qed.

Lemma sharePerPersonOre_ratio members expenses :
  let n := Z.max 1 (Z.of_nat (length members)) in
  sharePerPersonOre members expenses = (2 * totalOre expenses + n) / (2 * n).
Proof.
  unfold sharePerPersonOre. destruct members as [|m0 ms].
  - change (Z.max 1 (Z.of_nat (length (@nil Member)))) with (Z.of_nat 1).
    exact (roundOre_ratio _ 1 ltac:(done)).
  - simpl. rewrite Z.max_r by (simpl; lia).
    exact (roundOre_ratio _ (length (m0 :: ms)) ltac:(done)).
Qed.

Lemma balance_by_share members expenses k m :
  members !! k = Some m →
  let n := Z.of_nat (length members) in
  ∃ b, balances members expenses !! k = Some b ∧
    bal_user_id b = user_id m ∧
    balance_ore b
    = paid_by_user (user_id m) expenses - sharePerPersonOre members expenses
      + (if decide (2 * (totalOre expenses `mod` n) = n) then 1 else 0).
Proof.
  intros Hk n.
  assert (members ≠ []) as Hne by (intros ->; done).
  assert (Z.max 1 (Z.of_nat (length members)) = n) as Hlen.
  { unfold n. destruct members; [done|]. simpl length. lia. }
  assert (0 < n) as Hn by lia.
  rewrite balances_nonempty by done.
  rewrite list_lookup_fmap, Hk. simpl. eexists. split; [done|]. simpl.
  split; [done|].
  rewrite sharePerPersonOre_ratio, Hlen, <- totalOre_total.
  fold n. rewrite share_roundings by done. lia.
Qed.

(** X5 (sharePerPersonOre, balances): the share of the header is within
    half an öre per member of the exact share, and the balance of every
    member is what the member paid minus the share of the header, plus one
    öre when the exact share ends in half an öre. *)
Theorem share_shown_and_share_charged (members : list Member)
    (expenses : list Expense) :
  let n := Z.max 1 (Z.of_nat (length members)) in
  let total := totalOre expenses in
  let share := sharePerPersonOre members expenses in
  - n <= 2 * (total - n * share) < n ∧
  ∀ k m, members !! k = Some m →
    ∃ b, balances members expenses !! k = Some b ∧
      bal_user_id b = user_id m ∧
      balance_ore b
      = paid_by_user (user_id m) expenses - share
        + (if decide (2 * (total `mod` n) = n) then 1 else 0).
Proof.
  intros n total share.
  assert (0 < n) as Hn by (unfold n; lia).
  split.
  - unfold share. rewrite sharePerPersonOre_ratio. fold n total.
    pose proof (Z.div_mod (2 * total + n) (2 * n) ltac:(lia)).
    pose proof (Z.mod_pos_bound (2 * total + n) (2 * n) ltac:(lia)).
    lia.
  - intros k m Hk.
    assert (n = Z.of_nat (length members)) as ->.
    { unfold n. destruct members; [done|]. simpl length. lia. }
    by apply balance_by_share.
Qed.

(** X6 (settlements, sharePerPersonOre): when no expense is negative, no
    line of the plan of the page is more than the share per person that
    the header shows. *)
Theorem no_transfer_exceeds_share (members : list Member)
    (expenses : list Expense) :
  Forall (λ e, 0 <= amount_ore e) expenses →
  ∃ plan,
    settlements members expenses = Some plan ∧
    ∀ l, l ∈ plan →
      0 < line_amount_ore l <= sharePerPersonOre members expenses.
Proof.
  intros Hpos.
  destruct (computeSettlements_greedy (length (balances members expenses))
              (balances members expenses) (le_n _)) as (plan & Hplan & Hg & _).
  exists plan. split; [done|]. intros l Hl.
  destruct (greedy_lines _ _ _ Hg (debtors_positive _) (creditors_positive _)
              l Hl) as (d & _ & Hd & _ & _ & _ & H0 & Hle & _).
  split; [done|].
  apply debtors_of_elem in Hd as (b & Hb & _ & ->). simpl in Hle.
  apply list_elem_of_lookup in Hb as [k Hk].
  assert (is_Some (members !! k)) as [m Hm].
  { apply lookup_lt_is_Some. apply lookup_lt_Some in Hk.
    unfold balances in Hk. destruct (length members =? 0)%nat; [simpl in Hk; lia|].
    by rewrite length_fmap in Hk. }
  destruct (balance_by_share members expenses k m Hm) as (b' & Hk' & _ & Hbal).
  rewrite Hk in Hk'. injection Hk' as <-.
  pose proof (paid_by_user_bounds (user_id m) expenses Hpos).
  case_decide; lia.
Qed.

Lemma no_transfer_exceeds_share_witness :
  let members := [member_X; member_Y; member_Z] in
  let expenses := [expense_by member_X 900] in
  sharePerPersonOre members expenses = 300 ∧
  ∃ plan, settlements members expenses = Some plan ∧
          ∀ l, l ∈ plan → line_amount_ore l <= 300.
Proof.
  destruct (no_transfer_exceeds_share [member_X; member_Y; member_Z]
                                      [expense_by member_X 900])
    as (plan & Hplan & Hle).
  - apply Forall_cons. split; [vm_compute; discriminate|].
    apply Forall_nil. exact I.
  - split; [reflexivity|]. exists plan. split; [exact Hplan|].
    intros l Hl. exact (proj2 (Hle l Hl)).
Defined.

Lemma by_payer_from (m : gmap string (list Expense)) expenses u :
  default []
    (foldl (λ by_ e, <[paid_by e := default [] (by_ !! paid_by e) ++ [e]]> by_)
           m expenses !! u)
  = default [] (m !! u) ++ filter (λ e, paid_by e = u) expenses.
Proof.
  revert m. induction expenses as [|e es IH]; intros m; simpl.
  { by rewrite app_nil_r. }
  rewrite IH, filter_cons. case_decide as Hu.
  - subst u. rewrite lookup_insert_eq. simpl. by rewrite <- app_assoc.
  - by rewrite lookup_insert_ne.
Qed.

Lemma by_payer_filter expenses u :
  default [] (by_payer expenses !! u) = filter (λ e, paid_by e = u) expenses.
Proof.
  unfold by_payer. by rewrite by_payer_from, lookup_empty.
Qed.

Lemma paid_by_user_filter u expenses :
  paid_by_user u expenses = totalOre (filter (λ e, paid_by e = u) expenses).
Proof.
  rewrite totalOre_total.
  induction expenses as [|e es IH]; [done|].
  simpl. rewrite filter_cons. case_decide; simpl; lia.
Qed.

(** X7 (groupedExpenses): the row of a member lists the expenses the
    member paid, in the order of the ledger, and its total is the sum of
    the amounts it lists; over a roster without duplicates that holds
    every payer the totals of the rows add up to [totalOre]. *)
Theorem groupedExpenses_rows (members : list Member) (expenses : list Expense) :
  groupedExpenses members expenses
  = (λ m,
       let mine := filter (λ e, paid_by e = user_id m) expenses in
       {| member := m; items := mine; total_ore := totalOre mine |})
      <$> members ∧
  (NoDup (user_id <$> members) →
   Forall (λ e, paid_by e ∈ user_id <$> members) expenses →
   group_totals (groupedExpenses members expenses) = totalOre expenses).
Proof.
  assert (groupedExpenses members expenses
          = (λ m,
               let mine := filter (λ e, paid_by e = user_id m) expenses in
               {| member := m; items := mine; total_ore := totalOre mine |})
              <$> members) as Hrows.
  { unfold groupedExpenses. apply list_fmap_ext. intros _ m _. simpl.
    by rewrite by_payer_filter, totalsByUser_paid, paid_by_user_filter. }
  split; [done|]. intros Hnd Hpayers.
  rewrite Hrows, totalOre_total, <- (roster_paid members) by done.
  clear. induction members as [|m ms IH]; [done|].
  csimpl. rewrite <- IH. unfold group_totals at 1. simpl.
  by rewrite paid_by_user_filter.
Qed.

Lemma map_total_insert (m : gmap string Z) u v :
  map_total (<[u := v]> m) = map_total m - default 0 (m !! u) + v.
Proof.
  assert (∀ (m : gmap string Z) u v,
            m !! u = None → map_total (<[u := v]> m) = v + map_total m) as Hnew.
  { intros m0 u0 v0 H0. unfold map_total.
    apply (map_fold_insert_L (λ _ (v : Z) acc, v + acc)); [|done].
    intros. lia. }
  destruct (m !! u) as [v0|] eqn:Hu; simpl.
  - rewrite <- (insert_delete_eq m) at 1.
    rewrite <- (insert_delete_id m u v0) at 2 by done.
    rewrite !Hnew by apply lookup_delete_eq. lia.
  - rewrite Hnew by done. lia.
Qed.

Lemma totalsByUser_snoc expenses e :
  totalsByUser (expenses ++ [e])
  = <[paid_by e := default 0 (totalsByUser expenses !! paid_by e) + amount_ore e]>
      (totalsByUser expenses).
Proof.
  unfold totalsByUser. by rewrite foldl_snoc.
Qed.

(** X8 (totalsByUser, totalOre): the map has an entry for the users who
    paid an expense and for no one else, and its entries add up to
    [totalOre]. *)
Theorem totalsByUser_covers_total (expenses : list Expense) :
  (∀ u, is_Some (totalsByUser expenses !! u) ↔ u ∈ paid_by <$> expenses) ∧
  map_total (totalsByUser expenses) = totalOre expenses.
Proof.
  induction expenses as [|e es IH] using rev_ind.
  { split; [|done]. intros u. unfold totalsByUser. simpl.
    rewrite lookup_empty. split; [by intros []|by intros ?%elem_of_nil]. }
  destruct IH as [IH1 IH2]. rewrite totalsByUser_snoc. split.
  - intros u. rewrite fmap_app, elem_of_app, <- IH1. csimpl.
    rewrite list_elem_of_singleton.
    destruct (decide (u = paid_by e)) as [->|Hne].
    + rewrite lookup_insert_eq. split; [by right|by eexists].
    + rewrite lookup_insert_ne by done. split; [by left|by intros [?|?]].
  - rewrite map_total_insert, IH2, !totalOre_total.
    unfold ledger_total. rewrite foldr_app. simpl.
    assert (∀ z l, foldr (λ e acc, amount_ore e + acc) z l
                   = z + foldr (λ e acc, amount_ore e + acc) 0 l) as Hz.
    { intros z l. induction l; simpl; lia. }
    rewrite (Hz (amount_ore e + 0)). lia.
Qed.

Lemma memberById_from (m0 : gmap string Member) members u :
  foldl (λ m x, <[user_id x := x]> m) m0 members !! u
  = match last (filter (λ x, user_id x = u) members) with
    | Some x => Some x
    | None => m0 !! u
    end.
Proof.
  revert m0. induction members as [|x xs IH]; intros m0; [done|].
  simpl. rewrite IH, filter_cons. case_decide as Hu.
  - subst u. rewrite lookup_insert_eq.
    destruct (filter _ xs) as [|y ys] eqn:Hf; [done|].
    rewrite last_cons_cons.
    destruct (last (y :: ys)) eqn:Hlast; [done|]. by apply last_None in Hlast.
  - by rewrite lookup_insert_ne.
Qed.

(** X9 (memberById, meName): the map sends a user id to the last member of
    the roster with that id; the name of the user is never empty, it is
    the trimmed name of that member, and it is "Jag" when the user is not
    known, is not on the roster or has a blank name. *)
Theorem meName_cases (members : list Member) :
  (∀ u, memberById members !! u = last (filter (λ x, user_id x = u) members)) ∧
  (∀ userId, meName userId members ≠ "") ∧
  meName None members = "Jag" ∧
  (∀ u, u ∉ user_id <$> members → meName (Some u) members = "Jag") ∧
  (∀ u x, u ≠ "" →
     last (filter (λ x, user_id x = u) members) = Some x →
     meName (Some u) members = Js.or_else (Js.trim (display_name x)) "Jag").
Proof.
  assert (∀ u, memberById members !! u
               = last (filter (λ x, user_id x = u) members)) as Hmap.
  { intros u. unfold memberById. rewrite memberById_from, lookup_empty.
    by destruct (last _). }
  split; [done|]. repeat split.
  - intros userId. unfold meName. destruct (Env.falsy userId); [done|].
    destruct (Js.trim _); done.
  - intros u Hu. unfold meName. destruct (Env.falsy (Some u)); [done|].
    simpl. rewrite Hmap.
    destruct (filter _ members) as [|y ys] eqn:Hf; [done|].
    destruct Hu. apply list_elem_of_fmap. exists y. 
    assert (y ∈ filter (λ x, user_id x = u) members) as Hy
      by (rewrite Hf; by left).
    apply list_elem_of_filter in Hy as [Hy1 Hy2]. done.
  - intros u x Hu Hlast. unfold meName.
    destruct u as [|a u']; [done|].
    change (Env.falsy (Some (String a u'))) with false. simpl.
    by rewrite Hmap, Hlast.
Qed.

End RenderFacts.

(** ** What the optimistic actions leave alone *)

Ltac kept := split; [by (left + right)|by left].

Section ExpenseActionFacts.
Import Env.

(** X10 (addExpense): the function either leaves the ledger, the inputs and
    the remote store alone, or the household, the user, the title and the
    amount were all acceptable: the number typed is not [NaN] and not
    [<= 0].  Then it sends one insert, whose amount is
    [Math.round(num * 100)], the amount of the optimistic expense it puts
    in front of the ledger, and clears the inputs.  The message it leaves
    is none or the one about the amount. *)
Theorem addExpense_changes_only_when_valid (Number : string → float)
    (w : EconomyPage.World) (uuid now : string) :
  let w' := EconomyPage.addExpense Number uuid now w in
  let cleaned := Js.trim (EconomyPage.replace_comma (EconomyPage.amountKr w)) in
  let num := Number cleaned in
  let ore := Js.Math_round (num * 100)%float in
  (EconomyPage.msg w' = None ∨
   EconomyPage.msg w' = Some "Summa måste vara ett nummer > 0.") ∧
  ((EconomyPage.net w' = EconomyPage.net w ∧
    EconomyPage.expenses w' = EconomyPage.expenses w ∧
    EconomyPage.title_input w' = EconomyPage.title_input w ∧
    EconomyPage.amountKr w' = EconomyPage.amountKr w)
   ∨
   (∃ hid uid,
      EconomyPage.householdId w = Some hid ∧ hid ≠ "" ∧
      EconomyPage.userId w = Some uid ∧ uid ≠ "" ∧
      Js.trim (EconomyPage.title_input w) ≠ "" ∧
      cleaned ≠ "" ∧ Js.isNaN num = false ∧ (num <=? 0)%float = false ∧
      calls (EconomyPage.net w')
      = calls (EconomyPage.net w)
        ++ [EconomyPage.InsertExpense hid uid
              (Js.trim (EconomyPage.title_input w)) ore uid] ∧
      EconomyPage.expenses w'
      = {| EconomyPage.id := "temp-" +:+ uuid;
           EconomyPage.household_id := hid; EconomyPage.paid_by := uid;
           EconomyPage.title := Js.trim (EconomyPage.title_input w);
           EconomyPage.amount_ore := ore; EconomyPage.created_by := uid;
           EconomyPage.created_at := now |} :: EconomyPage.expenses w ∧
      EconomyPage.msg w' = None ∧
      EconomyPage.title_input w' = "" ∧ EconomyPage.amountKr w' = "")).
Proof.
  intros w' cleaned num ore. unfold w', EconomyPage.addExpense.
  simpl. fold cleaned. fold num. fold ore.
  unfold falsy.
  destruct (EconomyPage.householdId w) as [[|a1 hid]|] eqn:Hhid; simpl;
    [kept| |kept].
  destruct (EconomyPage.userId w) as [[|a2 uid]|] eqn:Huid; simpl;
    [kept| |kept].
  destruct (Js.trim (EconomyPage.title_input w)) as [|a3 t] eqn:Ht; simpl;
    [kept|].
  destruct cleaned as [|a4 c] eqn:Hc; simpl; [kept|].
  destruct (Js.isNaN num) eqn:Hnan; simpl; [kept|].
  destruct (num <=? 0)%float eqn:Hle; simpl; [kept|].
  split; [by left|]. right.
  eexists _, _. repeat split; done.
Qed.

(** Two calls on examples: a title that is only U+00A0 is blank, so
    nothing is sent; an amount that [Number] reads as [Infinity] (as it
    does ["1e999"]) is accepted, and the amount of the expense is
    [Infinity]. *)
Lemma addExpense_examples :
  let typed title_ amount :=
    {| EconomyPage.householdId := Some "h1"; EconomyPage.userId := Some "u1";
       EconomyPage.expenses := []; EconomyPage.title_input := title_;
       EconomyPage.amountKr := amount; EconomyPage.msg := None;
       EconomyPage.net := idle |} in
  let now := "2026-01-01T10:00:00.000Z" in
  let w1 := EconomyPage.addExpense (λ _, 12%float) "0004" now
              (typed (String "194" (String "160" "")) "12") in
  let w2 := EconomyPage.addExpense (λ _, infinity) "0004" now
              (typed "Hyra" "1e999") in
  EconomyPage.expenses w1 = [] ∧ calls (EconomyPage.net w1) = [] ∧
  EconomyPage.amount_ore <$> EconomyPage.expenses w2 = [infinity] ∧
  calls (EconomyPage.net w2)
  = [EconomyPage.InsertExpense "h1" "u1" "Hyra" infinity "u1"].
Proof. vm_compute. done. Qed.

End ExpenseActionFacts.

Section ShoppingActionFacts.
Import Env Shopping.
Variable toLowerCase : string → string.
Local Abbreviation step := (Shopping.step toLowerCase).
Local Abbreviation norm := (Shopping.norm toLowerCase).
Local Abbreviation moveToPantry := (Shopping.moveToPantry toLowerCase).

Lemma filter_none_checked (l : list ShoppingItem) :
  filter (λ s, checked s = true) l = [] →
  filter (λ x, checked x = false) l = l.
Proof.
  induction l as [|x l IH]; [done|].
  rewrite !filter_cons. destruct (checked x); simpl; [done|].
  intros H. by rewrite IH.
Qed.

(** X11 (clearChecked): with a household, the list keeps the unchecked
    items and nothing else.  Without a checked item nothing is sent;
    otherwise one delete names the ids of the checked items, and its
    failure puts the list back and sets the message. *)
Theorem clearChecked_removes_checked (w : World) :
  falsy (householdId (page w)) = false →
  let checkedIds := id <$> filter (λ s, checked s = true) (shopping (page w)) in
  let w1 := clearChecked w in
  let req := next_request (net w) in
  shopping (page w1) = filter (λ x, checked x = false) (shopping (page w)) ∧
  Forall (λ x, checked x = false) (shopping (page w1)) ∧
  pantry (page w1) = pantry (page w) ∧
  (checkedIds = [] →
   net w1 = net w ∧ shopping (page w1) = shopping (page w)) ∧
  (checkedIds ≠ [] →
   calls (net w1) = calls (net w) ++ [DeleteShoppingIn checkedIds] ∧
   (∀ message,
      let w2 := step (Written req (Failed message)) w1 in
      shopping (page w2) = shopping (page w) ∧
      msg (page w2) = Some message) ∧
   (let w2 := step (Written req (Succeeded ())) w1 in
    shopping (page w2) = shopping (page w1) ∧ msg (page w2) = None)).
Proof.
  intros Hhid checkedIds w1 req.
  assert (Hlist : shopping (page w1)
                  = filter (λ x, checked x = false) (shopping (page w))).
  { unfold w1, clearChecked. simpl. rewrite Hhid.
    destruct (id <$> filter _ _) eqn:Hids; [|done].
    simpl. symmetry. apply filter_none_checked.
    by apply fmap_nil_inv in Hids. }
  split; [done|]. split.
  { rewrite Hlist. apply Forall_forall. by intros x [? _]%list_elem_of_filter. }
  split.
  { unfold w1, clearChecked. simpl. rewrite Hhid.
    by destruct (id <$> filter _ _). }
  split.
  - intros Hnone. split; [|rewrite Hlist; apply filter_none_checked;
                           by apply fmap_nil_inv in Hnone].
    unfold w1, clearChecked. simpl. rewrite Hhid.
    fold checkedIds. by rewrite Hnone.
  - intros Hsome.
    assert (Hw1 : w1 = on_net (await (DeleteShoppingIn checkedIds)
                                     (ClearChecked_k (shopping (page w))))
                         (setShopping (filter (λ x, checked x = false))
                                      (setMsg None w))).
    { unfold w1, clearChecked. simpl. rewrite Hhid. fold checkedIds.
      by destruct checkedIds. }
    clearbody w1. subst w1.
    assert (Hawait : awaiting (net (on_net (await (DeleteShoppingIn checkedIds)
                                     (ClearChecked_k (shopping (page w))))
                         (setShopping (filter (λ x, checked x = false))
                                      (setMsg None w)))) !! req
                     = Some (ClearChecked_k (shopping (page w)))).
    { apply lookup_insert_eq. }
    split; [done|]. split.
    + intros message w2. unfold w2, step. by rewrite Hawait.
    + unfold step. by rewrite Hawait.
Qed.

Lemma step_written w call k f r :
  written k = Some f →
  step (Written (next_request (net w)) r) (on_net (await call k) w)
  = f r (on_net (resume (next_request (net w))) (on_net (await call k) w)).
Proof.
  intros Hf. unfold step. simpl. rewrite lookup_insert_eq. simpl. by rewrite Hf.
Qed.

(** X12 (moveToPantry): with a household, a user and a name, the item
    leaves the shopping list at once and the local pantry is never touched.
    When the pantry has the normalised name already only the delete is
    sent.  Otherwise the insert is sent first: its success sends the
    delete, its failure puts the list back and sends nothing more; a
    failure of the delete puts the list back and sends nothing that would
    take the pantry row away again. *)
Theorem moveToPantry_insert_then_delete (w : World) (item : ShoppingItem) :
  falsy (householdId (page w)) = false →
  falsy (userId (page w)) = false →
  falsy (Some (Js.trim (text item))) = false →
  let name := Js.trim (text item) in
  let known := norm name ∈ (λ p, norm (p_name p)) <$> pantry (page w) in
  let insert := InsertPantry (default "" (householdId (page w))) name None None
                             (default "" (userId (page w))) in
  let delete := DeleteShopping (id item) in
  let w1 := moveToPantry item w in
  let req := next_request (net w) in
  shopping (page w1) = filter (λ x, id x ≠ id item) (shopping (page w)) ∧
  pantry (page w1) = pantry (page w) ∧
  (known →
   calls (net w1) = calls (net w) ++ [delete] ∧
   ∀ message,
     let w2 := step (Written req (Failed message)) w1 in
     shopping (page w2) = shopping (page w) ∧ msg (page w2) = Some message ∧
     calls (net w2) = calls (net w1)) ∧
  (¬ known →
   calls (net w1) = calls (net w) ++ [insert] ∧
   (∀ message,
      let w2 := step (Written req (Failed message)) w1 in
      shopping (page w2) = shopping (page w) ∧ msg (page w2) = Some message ∧
      calls (net w2) = calls (net w1) ∧ awaiting (net w2) !! req = None) ∧
   (let w2 := step (Written req (Succeeded ())) w1 in
    calls (net w2) = calls (net w) ++ [insert; delete] ∧
    shopping (page w2) = shopping (page w1) ∧
    pantry (page w2) = pantry (page w) ∧
    ∀ message,
      let w3 := step (Written (S req) (Failed message)) w2 in
      shopping (page w3) = shopping (page w) ∧ msg (page w3) = Some message ∧
      pantry (page w3) = pantry (page w) ∧
      calls (net w3) = calls (net w2))).
Proof.
  intros Hhid Huid Hname name known insert delete w1 req.
  pose (w0 := setShopping (filter (λ x, id x ≠ id item)) (setMsg None w)).
  pose (snapshot := shopping (page w)).
  destruct (decide known) as [Hk|Hk].
  - assert (w1 = on_net (await delete (MoveDeleted_k snapshot)) w0) as Hw1.
    { unfold w1, moveToPantry. simpl. rewrite Hhid, Huid, Hname. simpl.
      fold name. by rewrite bool_decide_eq_true_2. }
    clearbody w1. subst w1.
    split; [done|]. split; [done|]. split; [|done]. intros _.
    split; [done|]. intros message w2.
    assert (w2 = restore_shopping snapshot (Failed message)
                   (on_net (resume req)
                      (on_net (await delete (MoveDeleted_k snapshot)) w0)))
      as -> by exact (step_written w0 _ (MoveDeleted_k snapshot) _ _ eq_refl).
    done.
  - assert (w1 = on_net (await insert (MoveInserted_k item snapshot)) w0)
      as Hw1.
    { unfold w1, moveToPantry. simpl. rewrite Hhid, Huid, Hname. simpl.
      fold name. by rewrite bool_decide_eq_false_2. }
    clearbody w1. subst w1.
    split; [done|]. split; [done|]. split; [done|]. intros _.
    split; [done|]. split.
    + intros message w2.
      assert (w2 = moveToPantry_inserted item snapshot (Failed message)
                     (on_net (resume req)
                        (on_net (await insert (MoveInserted_k item snapshot))
                                w0)))
        as -> by exact (step_written w0 _ (MoveInserted_k item snapshot) _ _
                                     eq_refl).
      repeat split; try done. apply lookup_delete_eq.
    + intros w2.
      pose (w2' := on_net (resume req)
                     (on_net (await insert (MoveInserted_k item snapshot)) w0)).
      assert (w2 = on_net (await delete (MoveDeleted_k snapshot)) w2') as Hw2
        by exact (step_written w0 _ (MoveInserted_k item snapshot) _ _ eq_refl).
      clearbody w2. subst w2.
      split; [simpl; by rewrite <- app_assoc|]. split; [done|]. split; [done|].
      intros message w3.
      assert (w3 = restore_shopping snapshot (Failed message)
                     (on_net (resume (S req))
                        (on_net (await delete (MoveDeleted_k snapshot)) w2')))
        as -> by exact (step_written w2' _ (MoveDeleted_k snapshot) _ _ eq_refl).
      done.
Qed.

Lemma step_pantry_inserted w call tempId r :
  step (PantryInserted (next_request (net w)) r)
       (on_net (await call (AddPantry_k tempId)) w)
  = addPantry_resume tempId r
      (on_net (resume (next_request (net w)))
              (on_net (await call (AddPantry_k tempId)) w)).
Proof.
  unfold step. simpl. by rewrite lookup_insert_eq.
Qed.

Lemma filter_fresh_id (l : list PantryItem) tempId :
  tempId ∉ p_id <$> l → filter (λ x, p_id x ≠ tempId) l = l.
Proof.
  induction l as [|x l IH]; [done|]. rewrite fmap_cons.
  intros [Hx Hl]%not_elem_of_cons.
  rewrite filter_cons, decide_True by done. by rewrite IH.
Qed.

Lemma replace_fresh_id (l : list PantryItem) tempId data :
  tempId ∉ p_id <$> l →
  (λ x, if decide (p_id x = tempId) then data else x) <$> l = l.
Proof.
  induction l as [|x l IH]; [done|]. rewrite fmap_cons.
  intros [Hx Hl]%not_elem_of_cons. csimpl.
  rewrite decide_False by done. by rewrite IH.
Qed.

(** X13 (addPantry): with a name, a household and a user.  A quantity that
    is typed and is not a number sets the message and changes nothing
    else.  Otherwise an optimistic item with a temporary id goes to the
    end of the pantry, with no quantity when the field is blank and no
    unit when that field is blank; one insert with the same values is
    sent and the inputs are reset.  When the temporary id is new to the
    list, a failure of the insert gives the earlier pantry back and a
    success puts the stored row in the place of the optimistic one. *)
Theorem addPantry_optimistic (w : World) (uuid : string) (number : float) :
  falsy (Some (Js.trim (pantryName (page w)))) = false →
  falsy (householdId (page w)) = false →
  falsy (userId (page w)) = false →
  let blank := falsy (Some (Js.trim (pantryQty (page w)))) in
  let tempId := "temp-" +:+ uuid in
  let w1 := addPantry uuid number w in
  let req := next_request (net w) in
  (blank = false → Js.isNaN number = true →
   msg (page w1) = Some "Mängd måste vara ett nummer." ∧
   pantry (page w1) = pantry (page w) ∧ net w1 = net w ∧
   pantryName (page w1) = pantryName (page w) ∧
   pantryQty (page w1) = pantryQty (page w) ∧
   pantryUnit (page w1) = pantryUnit (page w)) ∧
  (blank = true ∨ Js.isNaN number = false →
   ∃ optimistic,
     pantry (page w1) = pantry (page w) ++ [optimistic] ∧
     p_id optimistic = tempId ∧
     p_name optimistic = Js.trim (pantryName (page w)) ∧
     p_qty optimistic = (if blank then None else Some number) ∧
     p_unit optimistic
     = (if falsy (Some (Js.trim (pantryUnit (page w)))) then None
        else Some (Js.trim (pantryUnit (page w)))) ∧
     calls (net w1)
     = calls (net w)
       ++ [InsertPantry (default "" (householdId (page w)))
             (p_name optimistic) (p_qty optimistic) (p_unit optimistic)
             (default "" (userId (page w)))] ∧
     msg (page w1) = None ∧
     pantryName (page w1) = "" ∧ pantryQty (page w1) = "" ∧
     pantryUnit (page w1) = "st" ∧
     (tempId ∉ p_id <$> pantry (page w) →
      (∀ message,
         let w2 := step (PantryInserted req (Failed message)) w1 in
         pantry (page w2) = pantry (page w) ∧ msg (page w2) = Some message) ∧
      (∀ data,
         let w2 := step (PantryInserted req (Succeeded data)) w1 in
         pantry (page w2) = pantry (page w) ++ [data]))).
Proof.
  intros Hname Hhid Huid blank tempId w1 req. split.
  - intros Hblank Hnan. unfold w1, addPantry. simpl.
    rewrite Hname, Hhid, Huid. fold blank. rewrite Hblank, Hnan. done.
  - intros Hok.
    set (unit_ := if falsy (Some (Js.trim (pantryUnit (page w))))
                  then None else Some (Js.trim (pantryUnit (page w)))).
    set (optimistic := {| p_id := tempId;
                          p_name := Js.trim (pantryName (page w));
                          p_qty := if blank then None else Some number;
                          p_unit := unit_ |}).
    set (call := InsertPantry (default "" (householdId (page w)))
                   (p_name optimistic) (p_qty optimistic) (p_unit optimistic)
                   (default "" (userId (page w)))).
    pose (w0 := setPantryUnit "st"
                  (setPantryQty ""
                     (setPantryName ""
                        (setPantry (λ prev, prev ++ [optimistic])
                                   (setMsg None w))))).
    assert (w1 = on_net (await call (AddPantry_k tempId)) w0) as Hw1.
    { unfold w1, addPantry. simpl. rewrite Hname, Hhid, Huid. fold blank.
      assert (negb blank && Js.isNaN number = false) as ->; [|done].
      destruct Hok as [-> | ->]; [done|]. by rewrite andb_false_r. }
    clearbody w1. subst w1.
    exists optimistic.
    do 10 (split; [done|]). intros Hfresh. split.
    + intros message w2.
      assert (w2 = addPantry_resume tempId (Failed message)
                     (on_net (resume req)
                        (on_net (await call (AddPantry_k tempId)) w0)))
        as -> by exact (step_pantry_inserted w0 _ _ _).
      simpl. rewrite filter_app, filter_fresh_id by done.
      rewrite filter_cons, decide_False by (simpl; tauto). by rewrite app_nil_r.
    + intros data w2.
      assert (w2 = addPantry_resume tempId (Succeeded data)
                     (on_net (resume req)
                        (on_net (await call (AddPantry_k tempId)) w0)))
        as -> by exact (step_pantry_inserted w0 _ _ _).
      simpl. rewrite fmap_app, replace_fresh_id by done.
      csimpl. by rewrite decide_True.
Qed.

(** X14 (removePantry): the item leaves the pantry at once and one delete
    is sent; its failure puts the pantry back and sets the message.  The
    timers of the page are left as they are: an update of the item that is
    pending still fires and is sent after the delete. *)
Theorem removePantry_keeps_timers (w : World) (item : PantryItem) :
  let w1 := removePantry item w in
  let req := next_request (net w) in
  pantry (page w1) = filter (λ x, p_id x ≠ p_id item) (pantry (page w)) ∧
  shopping (page w1) = shopping (page w) ∧
  calls (net w1) = calls (net w) ++ [DeletePantry (p_id item)] ∧
  (∀ message,
     let w2 := step (Written req (Failed message)) w1 in
     pantry (page w2) = pantry (page w) ∧ msg (page w2) = Some message) ∧
  (let w2 := step (Written req (Succeeded ())) w1 in
   pantry (page w2) = pantry (page w1) ∧ msg (page w2) = None) ∧
  timers w1 = timers w ∧
  pantryTimers (page w1) = pantryTimers (page w) ∧
  (∀ h patch,
     pending (timers w) !! h = Some (p_id item, patch) →
     calls (net (step (Timeout h) w1))
     = calls (net w) ++ [DeletePantry (p_id item); UpdatePantry (p_id item) patch]).
Proof.
  intros w1 req.
  assert (awaiting (net w1) !! req = Some (RemovePantry_k (pantry (page w))))
    as Hawait by apply lookup_insert_eq.
  do 3 (split; [done|]). split.
  { intros message w2. unfold w2, step. by rewrite Hawait. }
  split.
  { unfold step. by rewrite Hawait. }
  do 2 (split; [done|]).
  - intros h patch Hp. unfold step, timeout.
    change (timers w1) with (timers w). rewrite Hp. simpl.
    by rewrite <- app_assoc.
Qed.

Lemma toggle_twice (l : list ShoppingItem) i :
  (λ x, if decide (id x = i) then with_checked x (negb (checked x)) else x)
    <$> ((λ x, if decide (id x = i) then with_checked x (negb (checked x)) else x)
           <$> l)
  = l.
Proof.
  rewrite <- list_fmap_compose. rewrite <- (list_fmap_id l) at 2.
  apply list_fmap_ext. intros _ x _. simpl.
  destruct (decide (id x = i)) as [Hx|Hx]; simpl.
  - rewrite decide_True by done. destruct x as [i' t c]. unfold with_checked.
    simpl. by rewrite negb_involutive.
  - by rewrite decide_False.
Qed.

(** X15 (toggleShopping): for an item of a list without duplicate ids, the
    value sent to the store is the value the item shows afterwards, and
    the ids of the list are unchanged.  A second call with the same item
    brings the list back but sends the same value again. *)
Theorem toggleShopping_shows_what_it_sends (w : World) (item : ShoppingItem) :
  item ∈ shopping (page w) →
  NoDup (id <$> shopping (page w)) →
  let sent := negb (checked item) in
  let w1 := toggleShopping item w in
  let w2 := toggleShopping item w1 in
  calls (net w1) = calls (net w) ++ [UpdateShoppingChecked (id item) sent] ∧
  (∀ x, x ∈ shopping (page w1) → id x = id item →
        x = with_checked item sent) ∧
  with_checked item sent ∈ shopping (page w1) ∧
  id <$> shopping (page w1) = id <$> shopping (page w) ∧
  shopping (page w2) = shopping (page w) ∧
  calls (net w2)
  = calls (net w)
    ++ [UpdateShoppingChecked (id item) sent;
        UpdateShoppingChecked (id item) sent].
Proof.
  intros Hitem Hnd sent w1 w2.
  assert (∀ x, x ∈ shopping (page w) → id x = id item → x = item) as Hsame.
  { intros x Hx Hid.
    apply list_elem_of_lookup in Hx as [k1 Hk1].
    apply list_elem_of_lookup in Hitem as [k2 Hk2].
    assert (k1 = k2) as ->; [|congruence].
    apply (NoDup_lookup _ _ _ (id item) Hnd);
      rewrite list_lookup_fmap; [rewrite Hk1|rewrite Hk2]; simpl; congruence. }
  split; [done|]. split; [|split; [|split; [|split]]].
  - intros x Hx Hid. simpl in Hx.
    apply list_elem_of_fmap in Hx as (y & -> & Hy).
    case_decide as Hy'; simpl in Hid; [|done].
    by rewrite (Hsame y Hy Hy').
  - simpl. apply list_elem_of_fmap. exists item. by rewrite decide_True.
  - simpl. rewrite <- list_fmap_compose. apply list_fmap_ext.
    intros _ x _. simpl. by case_decide.
  - simpl. apply toggle_twice.
  - simpl. by rewrite <- app_assoc.
Qed.

End ShoppingActionFacts.
Section ShoppingActionExamples.
Import Env Shopping.

Lemma clearChecked_removes_checked_witness :
  let w1 := clearChecked listed_ABC in
  falsy (householdId (page listed_ABC)) = false ∧
  shopping (page w1) = [item_A; item_C] ∧
  calls (net w1) = [SelectShopping "h1"; DeleteShoppingIn ["b"]].
Proof.
  destruct (clearChecked_removes_checked lower_ascii listed_ABC eq_refl)
    as (Hlist & _ & _ & _ & Hsome).
  split; [reflexivity|]. split; [exact Hlist|].
  destruct Hsome as [Hcalls _]; [discriminate|]. exact Hcalls.
Defined.

Lemma moveToPantry_insert_then_delete_witness :
  let w1 := moveToPantry lower_ascii item_A listed_ABC in
  shopping (page w1) = [item_B; item_C] ∧
  calls (net w1)
  = [SelectShopping "h1"; InsertPantry "h1" "mjölk" None None "u1"].
Proof.
  destruct (moveToPantry_insert_then_delete lower_ascii listed_ABC item_A
              eq_refl eq_refl eq_refl) as (Hlist & _ & _ & Hnew).
  split; [exact Hlist|].
  destruct Hnew as [Hcalls _]; [|exact Hcalls].
  vm_compute. intros H. inversion H.
Defined.

Lemma addPantry_optimistic_witness :
  let w1 := addPantry "0002" 2%float rice_typed in
  pantry (page w1)
  = [ pasta;
      {| p_id := "temp-0002"; p_name := "Ris"; p_qty := Some 2%float;
         p_unit := None |} ] ∧
  pantry (page (step lower_ascii (PantryInserted 1 (Failed "denied")) w1))
  = [pasta].
Proof.
  destruct (addPantry_optimistic lower_ascii rice_typed "0002" 2%float
              eq_refl eq_refl eq_refl) as [_ Hok].
  destruct Hok as (optimistic & Hlist & Hid & Hn & Hq & Hu & _ & _ & _ & _ & _
                   & Hreply); [by right|].
  split.
  - rewrite Hlist. destruct optimistic as [i n q u]. simpl in *.
    rewrite Hid, Hn, Hq, Hu. reflexivity.
  - destruct Hreply as [Hfail _].
    + vm_compute. intros H. inversion H; subst.
      match goal with H : _ ∈ [] |- _ => inversion H end.
    + exact (proj1 (Hfail "denied")).
Defined.

Lemma toggleShopping_shows_what_it_sends_witness :
  let w1 := toggleShopping item_B listed_ABC in
  item_B ∈ shopping (page listed_ABC) ∧
  calls (net w1)
  = [SelectShopping "h1"; UpdateShoppingChecked "b" false] ∧
  with_checked item_B false ∈ shopping (page w1).
Proof.
  assert (item_B ∈ shopping (page listed_ABC)) as Hin
    by (apply list_elem_of_further, list_elem_of_here).
  split; [exact Hin|].
  destruct (toggleShopping_shows_what_it_sends listed_ABC item_B Hin)
    as (Hcalls & _ & Hshown & _).
  - vm_compute. apply (bool_decide_unpack _). vm_compute. exact I.
  - split; [exact Hcalls|exact Hshown].
Defined.

(** [moveToPantry] with case tables that take Ö to ö: the pantry has
    ["mjölk"], so for the item ["MJÖLK"] only the delete is sent. *)
Lemma moveToPantry_known_name :
  let toLowerCase s := if decide (s = "MJÖLK") then "mjölk" else lower_ascii s in
  let item := {| id := "a"; text := " MJÖLK"; checked := false |} in
  let w := run toLowerCase
             [ LoadPantry "h1";
               PantryRead 0 (Succeeded [ {| p_id := "p1"; p_name := "mjölk";
                                            p_qty := None; p_unit := None |} ]);
               LoadShopping "h1"; ShoppingRead 1 (Succeeded [item]) ]
             (mounted "h1" "u1") in
  calls (net (moveToPantry toLowerCase item w))
  = calls (net w) ++ [DeleteShopping "a"].
Proof. vm_compute. done. Qed.

End ShoppingActionExamples.


(** ** The todos and the events of TasksEventsPage *)

Section ChronologyFacts.
Import TasksEvents.
Variable time_value : string → Z.

Lemma sort_insert_chronological x l :
  chronological time_value l →
  chronological time_value (Js.sort_insert (by_start time_value) x l).
Proof.
  unfold chronological.
  induction 1 as [|y l Hl IH Hy]; simpl; [by repeat constructor|].
  case (Z.leb_spec _ 0); intros Hxy; unfold by_start in Hxy.
  - constructor; [by constructor|].
    constructor; [unfold earlier; lia|].
    eapply Forall_impl; [exact Hy|]. unfold earlier. intros z Hz. lia.
  - constructor; [done|].
    rewrite (sort_insert_perm _ x l). constructor; [unfold earlier; lia|done].
Qed.

Lemma sort_chronological l :
  chronological time_value (Js.sort (by_start time_value) l).
Proof.
  induction l as [|x l IH]; [constructor|].
  rewrite sort_cons. by apply sort_insert_chronological.
Qed.

Lemma sort_insert_first x l :
  Forall (earlier time_value x) l → Js.sort_insert (by_start time_value) x l = x :: l.
Proof.
  destruct 1 as [|y l Hy _]; [done|]. simpl.
  case (Z.leb_spec _ 0); [done|]. intros Hlt. unfold by_start in Hlt.
  unfold earlier in Hy. lia.
Qed.

(** Sorting a chronological list changes nothing. *)
Lemma sort_chronological_id l :
  chronological time_value l → Js.sort (by_start time_value) l = l.
Proof.
  induction 1 as [|x l Hl IH Hx]; [done|].
  rewrite sort_cons, IH. by apply sort_insert_first.
Qed.

Lemma filter_chronological (P : EventRow → Prop) `{!∀ x, Decision (P x)} l :
  chronological time_value l → chronological time_value (filter P l).
Proof.
  induction 1 as [|x l Hl IH Hx]; [constructor|].
  rewrite filter_cons. case_decide; [|done].
  constructor; [done|]. rewrite Forall_forall in Hx. apply Forall_forall.
  intros y [_ Hy]%list_elem_of_filter. by apply Hx.
Qed.

(** The sort is stable: it commutes with leaving elements out. *)
Lemma filter_sort_insert (P : EventRow → Prop) `{!∀ x, Decision (P x)} x l :
  chronological time_value l →
  filter P (Js.sort_insert (by_start time_value) x l)
  = if decide (P x)
    then Js.sort_insert (by_start time_value) x (filter P l)
    else filter P l.
Proof.
  induction 1 as [|y l Hl IH Hy]; simpl.
  { rewrite filter_cons. by case_decide. }
  case (Z.leb_spec _ 0); intros Hxy; unfold by_start in Hxy.
  - rewrite filter_cons. case_decide as Hx; [|done].
    rewrite sort_insert_first; [done|].
    apply Forall_forall. intros z [_ Hz]%list_elem_of_filter.
    apply elem_of_cons in Hz as [->|Hz]; [unfold earlier; lia|].
    rewrite Forall_forall in Hy. specialize (Hy z Hz).
    unfold earlier in *. lia.
  - rewrite filter_cons, IH. rewrite (filter_cons _ y).
    case_decide as Hx; case_decide as Hy'; try done.
    simpl. case (Z.leb_spec _ 0); [|done]. intros Hle. unfold by_start in Hle. lia.
Qed.

Lemma filter_sort (P : EventRow → Prop) `{!∀ x, Decision (P x)} l :
  filter P (Js.sort (by_start time_value) l)
  = Js.sort (by_start time_value) (filter P l).
Proof.
  induction l as [|x l IH]; [done|].
  rewrite sort_cons, filter_sort_insert by apply sort_chronological.
  rewrite filter_cons, IH. by case_decide.
Qed.

End ChronologyFacts.

Section TasksPageFacts.
Import Env TasksPage.
Variable time_value : string → Z.
Variable fromLocalInputValue : string → option string.

Lemma events_ok_ext w w' :
  events w' = events w → awaiting (net w') = awaiting (net w) →
  events_ok time_value w → events_ok time_value w'.
Proof.
  intros He Ha [H1 H2]. split; [by rewrite He|]. intros req s. rewrite Ha.
  apply H2.
Qed.

Lemma events_ok_await w call k :
  events_ok time_value w →
  (∀ s, k = RemoveEvent_k s → chronological time_value s) →
  events_ok time_value (on_net (await call k) w).
Proof.
  intros [H1 H2] Hk. split; [done|]. intros req s. simpl.
  intros [[_ ->]|[_ Hold]]%lookup_insert_Some; [by apply Hk|].
  by apply (H2 req).
Qed.

Lemma events_ok_resume w req :
  events_ok time_value w → events_ok time_value (on_net (resume req) w).
Proof.
  intros [H1 H2]. split; [done|]. intros req' s. simpl.
  intros [_ Hold]%lookup_delete_Some. by apply (H2 req').
Qed.

Lemma events_ok_setEvents w f :
  events_ok time_value w → chronological time_value (f (events w)) →
  events_ok time_value (setEvents f w).
Proof.
  intros [H1 H2] Hf. split; [done|]. apply H2.
Qed.

Lemma step_events_ok e w :
  reads_chronological time_value e →
  events_ok time_value w →
  events_ok time_value (step time_value fromLocalInputValue e w).
Proof.
  intros He Hw. destruct e; simpl.
  - by apply (events_ok_ext w).
  - by apply (events_ok_ext w).
  - by apply (events_ok_ext w).
  - by apply (events_ok_ext w).
  - unfold addTodo.
    destruct (falsy _ || falsy _); [by apply (events_ok_ext w)|].
    destruct (falsy _); [by apply (events_ok_ext w)|].
    apply events_ok_await; [by apply (events_ok_ext w)|done].
  - apply events_ok_await; [by apply (events_ok_ext w)|done].
  - apply events_ok_await; [by apply (events_ok_ext w)|done].
  - unfold clearDoneTodos.
    destruct (id <$> _); [by apply (events_ok_ext w)|].
    apply events_ok_await; [by apply (events_ok_ext w)|done].
  - unfold addEvent.
    destruct (falsy _ || falsy _); [by apply (events_ok_ext w)|].
    destruct (falsy _); [by apply (events_ok_ext w)|].
    destruct (falsy _); [by apply (events_ok_ext w)|].
    destruct (fromLocalInputValue _); [|by apply (events_ok_ext w)].
    apply events_ok_await; [|done].
    split; [apply sort_chronological|apply Hw].
  - apply events_ok_await.
    + apply events_ok_setEvents; [by apply (events_ok_ext w)|].
      apply filter_chronological, Hw.
    + intros s [= <-]. apply Hw.
  - apply events_ok_await; [done|done].
  - apply events_ok_await; [done|done].
  - apply events_ok_await; [by apply events_ok_await|done].
  - destruct (awaiting (net w) !! req) as [k|] eqn:Hk; [|done]. simpl.
    pose proof (events_ok_resume w req Hw) as Hw'.
    destruct k; simpl; try done; destruct r; simpl; try done.
    apply (events_ok_setEvents (setMsg (Some message) (on_net (resume req) w))
             (λ _, snapshot)); [done|].
    destruct Hw as [_ Hs]. by apply (Hs req).
  - destruct (awaiting (net w) !! req) as [[]|]; try done.
    pose proof (events_ok_resume w req Hw) as Hw'. by destruct r.
  - destruct (awaiting (net w) !! req) as [[]|]; try done.
    pose proof (events_ok_resume w req Hw) as Hw'.
    destruct r; simpl.
    + apply events_ok_setEvents; [done|].
      apply filter_chronological, Hw.
    + apply events_ok_setEvents; [done|]. apply sort_chronological.
  - destruct (awaiting (net w) !! req) as [[]|]; try done.
    pose proof (events_ok_resume w req Hw) as Hw'. by destruct r.
  - destruct (awaiting (net w) !! req) as [[]|]; try done.
    pose proof (events_ok_resume w req Hw) as Hw'.
    destruct r; simpl; [done|]. by apply events_ok_setEvents.
Qed.

Lemma run_events_ok es w :
  Forall (reads_chronological time_value) es →
  events_ok time_value w →
  events_ok time_value (run time_value fromLocalInputValue es w).
Proof.
  intros Hes. revert w. induction Hes as [|e es He _ IH]; intros w Hw; [done|].
  simpl. apply IH. by apply step_events_ok.
Qed.

End TasksPageFacts.

Section TasksPageClaims.
Import Env TasksPage.

(** X16 (loadEvents, addEvent, removeEvent): as long as the reads of the
    events that succeed return them in the order of the start times, the
    events of the page are in that order after every step of [TasksPage]:
    whichever todos and events the user adds, toggles and removes, and
    whichever replies arrive or fail.  The debounced edits are the matter
    of the next statement. *)
Theorem events_stay_chronological (time_value : string → Z)
    (fromLocalInputValue : string → option string)
    (es : list Event) (hid uid : string) :
  Forall (reads_chronological time_value) es →
  chronological time_value
    (events (run time_value fromLocalInputValue es (mounted hid uid))).
Proof.
  intros Hes. apply (run_events_ok time_value fromLocalInputValue es); [done|].
  split; [constructor|]. intros req s. simpl. by rewrite lookup_empty.
Qed.

Lemma events_stay_chronological_witness :
  let es := [ LoadEvents "h1"; EventsRead 0 (Succeeded [dentist; concert]);
              TypeEventTitle "Middag"; TypeEventStartsAt "2026-03-15T12:00";
              AddEvent "0003"; RemoveEvent dentist;
              Written 2 (Failed "denied") ] in
  Forall (reads_chronological month_day) es ∧
  TasksEvents.id <$> events (run month_day iso_of es (mounted "h1" "u1"))
  = ["e1"; "temp-0003"; "e2"] ∧
  chronological month_day (events (run month_day iso_of es (mounted "h1" "u1"))).
Proof.
  assert (Forall (reads_chronological month_day)
            [ LoadEvents "h1"; EventsRead 0 (Succeeded [dentist; concert]);
              TypeEventTitle "Middag"; TypeEventStartsAt "2026-03-15T12:00";
              AddEvent "0003"; RemoveEvent dentist;
              Written 2 (Failed "denied") ]) as Hes.
  { repeat (apply Forall_cons; split; [try exact I|]); [|apply Forall_nil; exact I].
    repeat constructor; vm_compute; discriminate. }
  split; [exact Hes|]. split; [reflexivity|].
  exact (events_stay_chronological month_day iso_of _ "h1" "u1" Hes).
Defined.

End TasksPageClaims.

Section EventListFacts.
Import Env.

(** X17 (scheduleEventPatch): the debounced edits keep the events in the
    order of the start times: after any steps of edits, timers and replies
    on a list that was in that order, the list is in that order, and an
    edit puts it in that order whatever it was. *)
Theorem edits_keep_events_chronological (time_value : string → Z)
    (es : list TasksEvents.Event) (rows : list TasksEvents.EventRow) :
  chronological time_value rows →
  chronological time_value
    (TasksEvents.events (TasksEvents.run time_value es (TasksEvents.mounted rows))) ∧
  ∀ w id_ patch,
    chronological time_value
      (TasksEvents.events (TasksEvents.scheduleEventPatch time_value id_ patch w)).
Proof.
  intros Hrows.
  assert (∀ w id_ patch,
            chronological time_value
              (TasksEvents.events
                 (TasksEvents.scheduleEventPatch time_value id_ patch w)))
    as Hedit.
  { intros w id_ patch. unfold TasksEvents.scheduleEventPatch.
    destruct (debounce _ _ _ _). simpl. apply sort_chronological. }
  split; [|done].
  generalize (TasksEvents.mounted rows), (Hrows : chronological time_value
    (TasksEvents.events (TasksEvents.mounted rows))).
  clear Hrows. induction es as [|e es IH]; intros w Hw; [done|].
  simpl. apply IH. destruct e; simpl.
  - apply Hedit.
  - unfold TasksEvents.timeout. by destruct (pending _ !! h) as [[]|].
  - destruct (awaiting _ !! req) as [[]|]; [|done]. by destruct r.
Qed.

Lemma edits_keep_events_chronological_witness :
  let patch := {| TasksEvents.set_id := None; TasksEvents.set_title := None;
                  TasksEvents.set_starts_at := Some "2026-05-02T09:00:00.000Z";
                  TasksEvents.set_notes := None |} in
  let w := TasksEvents.run month_day [TasksEvents.ScheduleEventPatch "e1" patch]
                           (TasksEvents.mounted [dentist; concert]) in
  chronological month_day [dentist; concert] ∧
  TasksEvents.id <$> TasksEvents.events w = ["e2"; "e1"] ∧
  chronological month_day (TasksEvents.events w).
Proof.
  assert (chronological month_day [dentist; concert]) as Hrows
    by (repeat constructor; vm_compute; discriminate).
  split; [exact Hrows|]. split; [reflexivity|].
  exact (proj1 (edits_keep_events_chronological month_day
                  [TasksEvents.ScheduleEventPatch "e1" _] _ Hrows)).
Defined.

End EventListFacts.

Section EventActionFacts.
Import Env TasksPage.
Variable time_value : string → Z.
Variable fromLocalInputValue : string → option string.

Lemma step_event_inserted w call tempId r :
  step time_value fromLocalInputValue
       (EventInserted (next_request (net w)) r)
       (on_net (await call (AddEvent_k tempId)) w)
  = addEvent_resume time_value tempId r
      (on_net (resume (next_request (net w)))
              (on_net (await call (AddEvent_k tempId)) w)).
Proof.
  unfold step. simpl. by rewrite lookup_insert_eq.
Qed.

Lemma filter_fresh_event (l : list TasksEvents.EventRow) tempId :
  tempId ∉ TasksEvents.id <$> l →
  filter (λ x, TasksEvents.id x ≠ tempId) l = l.
Proof.
  induction l as [|x l IH]; [done|]. rewrite fmap_cons.
  intros [Hx Hl]%not_elem_of_cons.
  rewrite filter_cons, decide_True by done. by rewrite IH.
Qed.

Lemma replace_fresh_event (l : list TasksEvents.EventRow) tempId data :
  tempId ∉ TasksEvents.id <$> l →
  (λ x, if decide (TasksEvents.id x = tempId) then data else x) <$> l = l.
Proof.
  induction l as [|x l IH]; [done|]. rewrite fmap_cons.
  intros [Hx Hl]%not_elem_of_cons. csimpl.
  rewrite decide_False by done. by rewrite IH.
Qed.

(** X18 (addEvent): with a household, a user, a title and a valid start.
    The optimistic event is sorted into the list: the list is a
    permutation of the one before with the new event and is in the order
    of the start times; one insert is sent, the message is reset and the
    inputs are cleared.  A failure of the insert takes out the events with
    the temporary id and sets the message; a success leaves a list in the
    order of the start times.  When the temporary id is new to the list,
    the failure leaves a permutation of the list there was and the success
    a permutation of that list with the stored row.  When moreover the
    list was in the order of the start times, the failure leaves exactly
    the list there was and the success leaves the other events in the
    order they had. *)
Theorem addEvent_sorts_and_rolls_back (w : World) (uuid starts_at_ : string) :
  falsy (householdId w) = false →
  falsy (userId w) = false →
  falsy (Some (Js.trim (eventTitle w))) = false →
  falsy (Some (Js.trim (eventStartsAt w))) = false →
  fromLocalInputValue (eventStartsAt w) = Some starts_at_ →
  let tempId := "temp-" +:+ uuid in
  let notes_ := if falsy (Some (Js.trim (eventNotes w))) then None
                else Some (Js.trim (eventNotes w)) in
  let optimistic :=
    {| TasksEvents.id := tempId; TasksEvents.title := Js.trim (eventTitle w);
       TasksEvents.starts_at := starts_at_; TasksEvents.notes := notes_ |} in
  let w1 := addEvent time_value fromLocalInputValue uuid w in
  let req := next_request (net w) in
  let failed message :=
    step time_value fromLocalInputValue (EventInserted req (Failed message)) w1 in
  let succeeded data :=
    step time_value fromLocalInputValue (EventInserted req (Succeeded data)) w1 in
  events w1 ≡ₚ events w ++ [optimistic] ∧
  chronological time_value (events w1) ∧
  calls (net w1)
  = calls (net w)
    ++ [InsertEvent (default "" (householdId w)) (Js.trim (eventTitle w))
          starts_at_ notes_ (default "" (userId w))] ∧
  msg w1 = None ∧
  eventTitle w1 = "" ∧ eventStartsAt w1 = "" ∧ eventNotes w1 = "" ∧
  (∀ message,
     events (failed message)
     = filter (λ x, TasksEvents.id x ≠ tempId) (events w1) ∧
     msg (failed message) = Some message ∧
     calls (net (failed message)) = calls (net w1)) ∧
  (∀ data,
     chronological time_value (events (succeeded data)) ∧
     msg (succeeded data) = None ∧
     calls (net (succeeded data)) = calls (net w1)) ∧
  (tempId ∉ TasksEvents.id <$> events w →
   (∀ message, events (failed message) ≡ₚ events w) ∧
   (∀ data, events (succeeded data) ≡ₚ events w ++ [data])) ∧
  (tempId ∉ TasksEvents.id <$> events w →
   chronological time_value (events w) →
   filter (λ x, TasksEvents.id x ≠ tempId) (events w1) = events w ∧
   (∀ message, events (failed message) = events w) ∧
   (∀ data,
      filter (λ x, TasksEvents.id x ≠ TasksEvents.id data)
             (events (succeeded data))
      = filter (λ x, TasksEvents.id x ≠ TasksEvents.id data) (events w))).
Proof.
  intros Hhid Huid Htitle Hstart Hiso tempId notes_ optimistic w1 req
    failed succeeded.
  set (call := InsertEvent (default "" (householdId w)) (Js.trim (eventTitle w))
                 starts_at_ notes_ (default "" (userId w))).
  pose (sorted := Js.sort (TasksEvents.by_start time_value)
                          (events w ++ [optimistic])).
  pose (w0 := setEventNotes ""
                (setEventStartsAt ""
                   (setEventTitle ""
                      (setEvents (λ _, sorted) (setMsg None w))))).
  assert (w1 = on_net (await call (AddEvent_k tempId)) w0) as Hw1.
  { unfold w1, addEvent. simpl. rewrite Hhid, Huid, Htitle, Hstart, Hiso. done. }
  clearbody w1. subst w1.
  assert (∀ message,
            failed message
            = addEvent_resume time_value tempId (Failed message)
                (on_net (resume req)
                   (on_net (await call (AddEvent_k tempId)) w0))) as Hfailed
    by (intros message; exact (step_event_inserted w0 _ _ _)).
  assert (∀ data,
            succeeded data
            = addEvent_resume time_value tempId (Succeeded data)
                (on_net (resume req)
                   (on_net (await call (AddEvent_k tempId)) w0))) as Hsucceeded
    by (intros data; exact (step_event_inserted w0 _ _ _)).
  clearbody failed succeeded.
  assert (tempId ∉ TasksEvents.id <$> events w →
          filter (λ x, TasksEvents.id x ≠ tempId) sorted ≡ₚ events w)
    as Hperm.
  { intros Hfresh. unfold sorted. rewrite sort_perm.
    rewrite filter_app, filter_fresh_event by done.
    rewrite filter_cons, decide_False by (simpl; tauto).
    by rewrite filter_nil, app_nil_r. }
  assert (tempId ∉ TasksEvents.id <$> events w →
          chronological time_value (events w) →
          filter (λ x, TasksEvents.id x ≠ tempId) sorted = events w) as Hback.
  { intros Hfresh Hsorted.
    unfold sorted. rewrite filter_sort, filter_app, filter_fresh_event by done.
    rewrite filter_cons, decide_False by (simpl; tauto).
    rewrite app_nil_r. by apply sort_chronological_id. }
  split; [apply sort_perm|]. split; [apply sort_chronological|].
  do 5 (split; [done|]).
  split; [by intros message; rewrite Hfailed|].
  split.
  { intros data. rewrite Hsucceeded. split; [apply sort_chronological|done]. }
  split.
  - intros Hfresh. split.
    + intros message. rewrite Hfailed. by apply Hperm.
    + intros data. rewrite Hsucceeded. simpl.
      rewrite sort_perm. unfold sorted.
      rewrite (fmap_Permutation _ _ _ (sort_perm _ _)).
      rewrite fmap_app, replace_fresh_event by done. csimpl.
      by rewrite decide_True.
  - intros Hfresh Hsorted. split; [by apply Hback|]. split.
    + intros message. rewrite Hfailed. by apply Hback.
    + intros data. rewrite Hsucceeded. simpl.
      assert (∀ l : list TasksEvents.EventRow,
                filter (λ x, TasksEvents.id x ≠ TasksEvents.id data)
                  ((λ x, if decide (TasksEvents.id x = tempId) then data else x)
                     <$> l)
                = filter (λ x, TasksEvents.id x ≠ TasksEvents.id data)
                    (filter (λ x, TasksEvents.id x ≠ tempId) l)) as Hrepl.
      { induction l as [|x l IH]; [done|]. csimpl.
        rewrite !filter_cons, IH.
        destruct (decide (TasksEvents.id x = tempId)) as [Hx|Hx].
        - rewrite decide_False by (intros H; by apply H).
          by rewrite decide_False by (intros H; by apply H).
        - by rewrite (decide_True (P := TasksEvents.id x ≠ tempId)),
                     filter_cons by done. }
      rewrite filter_sort, Hrepl, Hback by done.
      rewrite <- filter_sort. by rewrite sort_chronological_id.
Qed.

(** X19 (addEvent): what stops the function.  An insert is sent exactly
    when there are a household, a user, a title, a start that is not blank
    and a start that is a valid date ([toISOString] does not throw).
    Otherwise no event is added, no call is sent and no input is cleared;
    the message is the one about the date when only the start is blank
    (household, user and title are there), and is reset otherwise. *)
Theorem addEvent_stops_early (w : World) (uuid : string) :
  let w1 := addEvent time_value fromLocalInputValue uuid w in
  let ready := negb (falsy (householdId w) || falsy (userId w)
                     || falsy (Some (Js.trim (eventTitle w)))) in
  let dated := negb (falsy (Some (Js.trim (eventStartsAt w)))) in
  let valid := bool_decide (is_Some (fromLocalInputValue (eventStartsAt w))) in
  (length (calls (net w1)) = S (length (calls (net w)))
   ↔ ready && dated && valid = true) ∧
  (ready && dated && valid = false →
   events w1 = events w ∧ net w1 = net w ∧ eventTitle w1 = eventTitle w ∧
   eventStartsAt w1 = eventStartsAt w ∧ eventNotes w1 = eventNotes w ∧
   msg w1 = (if ready && negb dated
             then Some "Välj datum & tid för evenemanget." else None)).
Proof.
  intros w1 ready dated valid. unfold w1, ready, dated, valid, addEvent. simpl.
  assert (∀ n : nat, n = S n ↔ false = true) as Hsame
    by (intros n; split; [lia|done]).
  destruct (falsy (householdId w)); simpl; [by split|].
  destruct (falsy (userId w)); simpl; [by split|].
  destruct (falsy (Some (Js.trim (eventTitle w)))); simpl; [by split|].
  destruct (falsy (Some (Js.trim (eventStartsAt w)))); simpl; [by split|].
  destruct (fromLocalInputValue (eventStartsAt w)) as [starts_at_|]; simpl.
  - split; [|done]. rewrite length_app. simpl. split; [done|lia].
  - by split.
Qed.

(** X20 (upcomingEventsCount): in a list in the order of the start times
    the events counted are the last ones of the list. *)
Theorem upcoming_events_are_last (now : Z) (l : list TasksEvents.EventRow) :
  chronological time_value l →
  let n := upcomingEventsCount time_value now l in
  (n ≤ length l)%nat ∧
  filter (λ e, now <= time_value (TasksEvents.starts_at e)) l
  = drop (length l - n) l.
Proof.
  intros Hl n. unfold n, upcomingEventsCount. clear n.
  induction Hl as [|x l Hl [IH1 IH2] Hx]; [done|].
  rewrite filter_cons. case_decide as Hnow.
  - assert (filter (λ e, now <= time_value (TasksEvents.starts_at e)) l = l)
      as ->.
    { clear IH1 IH2 Hl. induction l as [|y l IH]; [done|].
      inversion Hx as [|? ? Hy Hx']; subst.
      rewrite filter_cons, decide_True by (unfold earlier in Hy; lia).
      by rewrite IH. }
    simpl. split; [lia|]. by rewrite Nat.sub_diag.
  - split; [simpl; lia|].
    set (f := filter _ l) in *. simpl length.
    replace (S (length l) - length f)%nat with (S (length l - length f))
      by lia.
    exact IH2.
Qed.

End EventActionFacts.

Section EventActionExamples.
Import Env TasksPage.

Lemma addEvent_sorts_and_rolls_back_witness :
  TasksEvents.id <$> events (addEvent month_day iso_of "0003" dinner_typed)
  = ["e1"; "temp-0003"; "e2"] ∧
  events (step month_day iso_of (EventInserted 1 (Failed "denied"))
               (addEvent month_day iso_of "0003" dinner_typed))
  = [dentist; concert].
Proof.
  assert (chronological month_day (events dinner_typed)) as Hsorted
    by (repeat constructor; vm_compute; discriminate).
  assert ("temp-0003" ∉ TasksEvents.id <$> events dinner_typed) as Hfresh.
  { apply (bool_decide_unpack _). vm_compute. exact I. }
  destruct (addEvent_sorts_and_rolls_back month_day iso_of dinner_typed "0003"
              "2026-03-15T11:00:00.000Z" eq_refl eq_refl eq_refl eq_refl eq_refl)
    as (_ & _ & _ & _ & _ & _ & _ & _ & _ & _ & Hexact).
  destruct (Hexact Hfresh Hsorted) as (_ & Hfail & _).
  split; [reflexivity|]. exact (Hfail "denied").
Defined.

Lemma upcoming_events_are_last_witness :
  chronological month_day [dentist; concert] ∧
  upcomingEventsCount month_day 315 [dentist; concert] = 1%nat ∧
  filter (λ e, 315 <= month_day (TasksEvents.starts_at e)) [dentist; concert]
  = [concert].
Proof.
  assert (chronological month_day [dentist; concert]) as Hl
    by (repeat constructor; vm_compute; discriminate).
  split; [exact Hl|]. split; [reflexivity|].
  exact (proj2 (upcoming_events_are_last month_day 315 [dentist; concert] Hl)).
Defined.

End EventActionExamples.

Section TodoActionFacts.
Import Env TasksPage.
Variable time_value : string → Z.
Variable fromLocalInputValue : string → option string.

Lemma step_todo_inserted w call tempId r :
  step time_value fromLocalInputValue
       (TodoInserted (next_request (net w)) r)
       (on_net (await call (AddTodo_k tempId)) w)
  = addTodo_resume tempId r
      (on_net (resume (next_request (net w)))
              (on_net (await call (AddTodo_k tempId)) w)).
Proof.
  unfold step. simpl. by rewrite lookup_insert_eq.
Qed.

Lemma step_todo_written w req k f r :
  awaiting (net w) !! req = Some k → written k = Some f →
  step time_value fromLocalInputValue (Written req r) w
  = f r (on_net (resume req) w).
Proof.
  intros Hk Hf. unfold step. rewrite Hk. simpl. by rewrite Hf.
Qed.

Lemma filter_fresh_todo (l : list Todo) tempId :
  tempId ∉ id <$> l → filter (λ x, id x ≠ tempId) l = l.
Proof.
  induction l as [|x l IH]; [done|]. rewrite fmap_cons.
  intros [Hx Hl]%not_elem_of_cons.
  rewrite filter_cons, decide_True by done. by rewrite IH.
Qed.

Lemma replace_fresh_todo (l : list Todo) i (f : Todo → Todo) :
  i ∉ id <$> l → (λ x, if decide (id x = i) then f x else x) <$> l = l.
Proof.
  induction l as [|x l IH]; [done|]. rewrite fmap_cons.
  intros [Hx Hl]%not_elem_of_cons. csimpl.
  rewrite decide_False by done. by rewrite IH.
Qed.

(** X21 (addTodo, openTodosCount): with a household, a user and a title,
    the optimistic todo goes to the front of the list, open, so the count
    of open todos grows by one; one insert is sent and the input is
    cleared.  When the temporary id is new to the list, a failure of the
    insert gives the earlier list back and a success puts the stored row
    at the front. *)
Theorem addTodo_optimistic (w : World) (uuid : string) :
  falsy (householdId w) = false →
  falsy (userId w) = false →
  falsy (Some (Js.trim (todoTitle w))) = false →
  let tempId := "temp-" +:+ uuid in
  let optimistic :=
    {| id := tempId; title := Js.trim (todoTitle w); done := false |} in
  let w1 := addTodo uuid w in
  let req := next_request (net w) in
  todos w1 = optimistic :: todos w ∧
  openTodosCount (todos w1) = S (openTodosCount (todos w)) ∧
  todoTitle w1 = "" ∧
  calls (net w1)
  = calls (net w)
    ++ [InsertTodo (default "" (householdId w)) (Js.trim (todoTitle w))
                   (default "" (userId w))] ∧
  (tempId ∉ id <$> todos w →
   (∀ message,
      let w2 := step time_value fromLocalInputValue
                     (TodoInserted req (Failed message)) w1 in
      todos w2 = todos w ∧ msg w2 = Some message) ∧
   (∀ data,
      let w2 := step time_value fromLocalInputValue
                     (TodoInserted req (Succeeded data)) w1 in
      todos w2 = data :: todos w)).
Proof.
  intros Hhid Huid Htitle tempId optimistic w1 req.
  set (call := InsertTodo (default "" (householdId w)) (Js.trim (todoTitle w))
                          (default "" (userId w))).
  pose (w0 := setTodoTitle ""
                (setTodos (λ prev, optimistic :: prev) (setMsg None w))).
  assert (w1 = on_net (await call (AddTodo_k tempId)) w0) as Hw1.
  { unfold w1, addTodo. simpl. by rewrite Hhid, Huid, Htitle. }
  clearbody w1. subst w1.
  do 4 (split; [done|]). intros Hfresh. split.
  - intros message w2.
    assert (w2 = addTodo_resume tempId (Failed message)
                   (on_net (resume req)
                      (on_net (await call (AddTodo_k tempId)) w0)))
      as -> by exact (step_todo_inserted w0 _ _ _).
    simpl. rewrite filter_cons, decide_False by (simpl; tauto).
    by rewrite filter_fresh_todo.
  - intros data w2.
    assert (w2 = addTodo_resume tempId (Succeeded data)
                   (on_net (resume req)
                      (on_net (await call (AddTodo_k tempId)) w0)))
      as -> by exact (step_todo_inserted w0 _ _ _).
    simpl. rewrite decide_True by done.
    by rewrite (replace_fresh_todo _ _ (λ _, data)).
Qed.

Lemma same_todo (l : list Todo) t x :
  NoDup (id <$> l) → t ∈ l → x ∈ l → id x = id t → x = t.
Proof.
  intros Hnd Ht Hx Hid.
  apply list_elem_of_lookup in Hx as [k1 Hk1].
  apply list_elem_of_lookup in Ht as [k2 Hk2].
  assert (k1 = k2) as ->; [|congruence].
  apply (NoDup_lookup _ _ _ (id t) Hnd);
    rewrite list_lookup_fmap; [rewrite Hk1|rewrite Hk2]; simpl; congruence.
Qed.

Lemma open_count_toggle (l : list Todo) t :
  NoDup (id <$> l) → t ∈ l →
  (openTodosCount
     ((λ x, if decide (id x = id t) then with_done x (negb (done t)) else x)
        <$> l)
   + (if done t then 0 else 1)
   = openTodosCount l + (if done t then 1 else 0))%nat.
Proof.
  unfold openTodosCount.
  induction l as [|x l IH]; intros Hnd Ht; [by apply elem_of_nil in Ht|].
  rewrite fmap_cons in Hnd. apply NoDup_cons in Hnd as [Hx Hnd].
  rewrite fmap_cons.
  apply elem_of_cons in Ht as [->|Ht].
  - rewrite (decide_True (P := id x = id x)) by done.
    rewrite (replace_fresh_todo l (id x) (λ y, with_done y (negb (done x))))
      by done.
    rewrite !filter_cons. simpl. destruct (done x); simpl; lia.
  - assert (id x ≠ id t) as Hne.
    { intros Heq. apply Hx. rewrite Heq. apply list_elem_of_fmap. by exists t. }
    rewrite (decide_False (P := id x = id t)) by done. specialize (IH Hnd Ht).
    rewrite !filter_cons. case_decide; simpl; lia.
Qed.

(** X22 (toggleTodo, openTodosCount): for a todo of a list without
    duplicate ids.  The value sent is the value the todo shows afterwards,
    with a completion time exactly when it becomes done, and the count of
    open todos moves by one.  A failure of the update gives the earlier
    list back; a second call with the same todo changes nothing more in
    the list. *)
Theorem toggleTodo_counts (w : World) (now : string) (t : Todo) :
  t ∈ todos w →
  NoDup (id <$> todos w) →
  let next := negb (done t) in
  let w1 := toggleTodo now t w in
  let req := next_request (net w) in
  calls (net w1)
  = calls (net w)
    ++ [UpdateTodo (id t) next (if next then Some now else None)] ∧
  with_done t next ∈ todos w1 ∧
  (∀ x, x ∈ todos w1 → id x = id t → x = with_done t next) ∧
  (openTodosCount (todos w1) + (if done t then 0 else 1)
   = openTodosCount (todos w) + (if done t then 1 else 0))%nat ∧
  (∀ message,
     let w2 := step time_value fromLocalInputValue
                    (Written req (Failed message)) w1 in
     todos w2 = todos w ∧ msg w2 = Some message) ∧
  todos (toggleTodo now t w1) = todos w1.
Proof.
  intros Ht Hnd next w1 req.
  split; [done|]. split; [|split; [|split; [|split]]].
  - simpl. apply list_elem_of_fmap. exists t. by rewrite decide_True.
  - intros x Hx Hid. simpl in Hx.
    apply list_elem_of_fmap in Hx as (y & -> & Hy).
    case_decide as Hy'; simpl in Hid; [|done].
    by rewrite (same_todo _ t y Hnd Ht Hy Hy').
  - by apply open_count_toggle.
  - intros message w2.
    assert (w2 = toggleTodo_resume t (Failed message)
                   (on_net (resume req) w1))
      as -> by (unfold w2; apply step_todo_written with (k := ToggleTodo_k t);
             [apply lookup_insert_eq|done]).
    split; [|done]. simpl. rewrite <- list_fmap_compose.
    rewrite <- (list_fmap_id (todos w)) at 2.
    apply list_fmap_ext. intros _ x Hx%list_elem_of_lookup_2. simpl.
    destruct (decide (id x = id t)) as [Hid|Hid]; simpl.
    + rewrite decide_True by done.
      rewrite (same_todo _ t x Hnd Ht Hx Hid). by destruct t.
    + by rewrite decide_False.
  - simpl. rewrite <- list_fmap_compose. apply list_fmap_ext.
    intros _ x _. simpl.
    destruct (decide (id x = id t)) as [Hid|Hid]; simpl.
    + by rewrite decide_True.
    + by rewrite decide_False.
Qed.

Lemma filter_none_done (l : list Todo) :
  filter (λ t, done t = true) l = [] → filter (λ t, done t = false) l = l.
Proof.
  induction l as [|x l IH]; [done|].
  rewrite !filter_cons. destruct (done x); simpl; [done|].
  intros H. by rewrite IH.
Qed.

Lemma filter_open_idemp (l : list Todo) :
  filter (λ t, done t = false) (filter (λ t, done t = false) l)
  = filter (λ t, done t = false) l.
Proof.
  induction l as [|x l IH]; [done|].
  rewrite filter_cons. case_decide as Hx; [|done].
  by rewrite filter_cons, decide_True, IH.
Qed.

(** X23 (clearDoneTodos, openTodosCount): the list keeps the open todos
    and nothing else, so the count of open todos is unchanged; no
    household is asked for.  Without a done todo nothing is sent;
    otherwise one delete names the ids of the done todos, and its failure
    puts the list back and sets the message. *)
Theorem clearDoneTodos_keeps_open (w : World) :
  let doneIds := id <$> filter (λ t, done t = true) (todos w) in
  let w1 := clearDoneTodos w in
  let req := next_request (net w) in
  todos w1 = filter (λ t, done t = false) (todos w) ∧
  openTodosCount (todos w1) = openTodosCount (todos w) ∧
  openTodosCount (todos w1) = length (todos w1) ∧
  events w1 = events w ∧
  (doneIds = [] → net w1 = net w ∧ todos w1 = todos w) ∧
  (doneIds ≠ [] →
   calls (net w1) = calls (net w) ++ [DeleteTodosIn doneIds] ∧
   ∀ message,
     let w2 := step time_value fromLocalInputValue
                    (Written req (Failed message)) w1 in
     todos w2 = todos w ∧ msg w2 = Some message).
Proof.
  intros doneIds w1 req.
  assert (Hlist : todos w1 = filter (λ t, done t = false) (todos w)).
  { unfold w1, clearDoneTodos. simpl.
    destruct (id <$> filter _ _) eqn:Hids; [|done].
    simpl. symmetry. apply filter_none_done. by apply fmap_nil_inv in Hids. }
  split; [done|]. split.
  { rewrite Hlist. unfold openTodosCount. by rewrite filter_open_idemp. }
  split.
  { rewrite Hlist. unfold openTodosCount. by rewrite filter_open_idemp. }
  split.
  { unfold w1, clearDoneTodos. simpl. by destruct (id <$> filter _ _). }
  split.
  - intros Hnone. split; [|rewrite Hlist; apply filter_none_done;
                           by apply fmap_nil_inv in Hnone].
    unfold w1, clearDoneTodos. simpl. fold doneIds. by rewrite Hnone.
  - intros Hsome.
    pose (w0 := setTodos (filter (λ t, done t = false)) (setMsg None w)).
    assert (w1 = on_net (await (DeleteTodosIn doneIds)
                               (ClearDoneTodos_k (todos w))) w0) as Hw1.
    { unfold w1, clearDoneTodos. simpl. fold doneIds. by destruct doneIds. }
    clearbody w1. subst w1. split; [done|]. intros message w2.
    by assert (w2 = restore_todos (todos w) (Failed message)
                   (on_net (resume req)
                      (on_net (await (DeleteTodosIn doneIds)
                                     (ClearDoneTodos_k (todos w))) w0)))
      as -> by (unfold w2; apply step_todo_written with (k := ClearDoneTodos_k (todos w));
             [apply lookup_insert_eq|done]).
Qed.

(** X24 (removeTodo, removeEvent): the row leaves its list at once, the
    other list is untouched and one delete is sent; a failure of the
    delete puts back the list the handler saw and sets the message, a
    success changes nothing more. *)
Theorem remove_rolls_back (w : World) :
  (∀ t,
     let w1 := removeTodo t w in
     let req := next_request (net w) in
     todos w1 = filter (λ x, id x ≠ id t) (todos w) ∧
     events w1 = events w ∧
     calls (net w1) = calls (net w) ++ [DeleteTodo (id t)] ∧
     (∀ message,
        let w2 := step time_value fromLocalInputValue
                       (Written req (Failed message)) w1 in
        todos w2 = todos w ∧ msg w2 = Some message) ∧
     (let w2 := step time_value fromLocalInputValue
                     (Written req (Succeeded ())) w1 in
      todos w2 = todos w1 ∧ msg w2 = None)) ∧
  (∀ e,
     let w1 := removeEvent e w in
     let req := next_request (net w) in
     events w1
     = filter (λ x, TasksEvents.id x ≠ TasksEvents.id e) (events w) ∧
     todos w1 = todos w ∧
     calls (net w1) = calls (net w) ++ [DeleteEvent (TasksEvents.id e)] ∧
     (∀ message,
        let w2 := step time_value fromLocalInputValue
                       (Written req (Failed message)) w1 in
        events w2 = events w ∧ msg w2 = Some message) ∧
     (let w2 := step time_value fromLocalInputValue
                     (Written req (Succeeded ())) w1 in
      events w2 = events w1 ∧ msg w2 = None)).
Proof.
  split.
  - intros t w1 req. do 3 (split; [done|]). split.
    + intros message w2.
      by assert (w2 = restore_todos (todos w) (Failed message)
                        (on_net (resume req) w1))
        as -> by (unfold w2; apply step_todo_written with (k := RemoveTodo_k (todos w));
             [apply lookup_insert_eq|done]).
    + intros w2.
      by assert (w2 = restore_todos (todos w) (Succeeded ())
                        (on_net (resume req) w1))
        as -> by (unfold w2; apply step_todo_written with (k := RemoveTodo_k (todos w));
             [apply lookup_insert_eq|done]).
  - intros e w1 req. do 3 (split; [done|]). split.
    + intros message w2.
      by assert (w2 = removeEvent_resume (events w) (Failed message)
                        (on_net (resume req) w1))
        as -> by (unfold w2; apply step_todo_written with (k := RemoveEvent_k (events w));
             [apply lookup_insert_eq|done]).
    + intros w2.
      by assert (w2 = removeEvent_resume (events w) (Succeeded ())
                        (on_net (resume req) w1))
        as -> by (unfold w2; apply step_todo_written with (k := RemoveEvent_k (events w));
             [apply lookup_insert_eq|done]).
Qed.

End TodoActionFacts.

Section TodoActionExamples.
Import Env TasksPage.

Lemma addTodo_optimistic_witness :
  let w1 := addTodo "0004" todos_listed in
  todos w1
  = [ {| id := "temp-0004"; title := "Handla"; done := false |};
      todo_A; todo_B ] ∧
  openTodosCount (todos w1) = 2%nat ∧
  todos (step month_day iso_of (TodoInserted 1 (Failed "denied")) w1)
  = [todo_A; todo_B].
Proof.
  destruct (addTodo_optimistic month_day iso_of todos_listed "0004"
              eq_refl eq_refl eq_refl) as (Hlist & Hcount & _ & _ & Hreply).
  split; [exact Hlist|]. split; [exact Hcount|].
  destruct Hreply as [Hfail _].
  - apply (bool_decide_unpack _). vm_compute. exact I.
  - exact (proj1 (Hfail "denied")).
Defined.

Lemma toggleTodo_counts_witness :
  let w1 := toggleTodo "2026-02-01T08:00:00.000Z" todo_A todos_listed in
  todo_A ∈ todos todos_listed ∧
  calls (net w1)
  = [ SelectTodos "h1";
      UpdateTodo "t1" true (Some "2026-02-01T08:00:00.000Z") ] ∧
  openTodosCount (todos todos_listed) = 1%nat ∧
  openTodosCount (todos w1) = 0%nat.
Proof.
  assert (todo_A ∈ todos todos_listed) as Hin by apply list_elem_of_here.
  assert (NoDup (id <$> todos todos_listed)) as Hnd
    by (apply (bool_decide_unpack _); vm_compute; exact I).
  destruct (toggleTodo_counts month_day iso_of todos_listed
              "2026-02-01T08:00:00.000Z" todo_A Hin Hnd)
    as (Hcalls & _).
  split; [exact Hin|]. split; [exact Hcalls|]. split; reflexivity.
Defined.

End TodoActionExamples.

Section LoadAllFacts.
Import Env TasksPage.
Variable time_value : string → Z.
Variable fromLocalInputValue : string → option string.

Lemma step_todos_read w req r :
  awaiting (net w) !! req = Some LoadTodos_k →
  step time_value fromLocalInputValue (TodosRead req r) w
  = loadTodos_resume r (on_net (resume req) w).
Proof.
  intros Hk. unfold step. by rewrite Hk.
Qed.

Lemma step_events_read w req r :
  awaiting (net w) !! req = Some LoadEvents_k →
  step time_value fromLocalInputValue (EventsRead req r) w
  = loadEvents_resume r (on_net (resume req) w).
Proof.
  intros Hk. unfold step. by rewrite Hk.
Qed.

(** X25 (loadAll, loadTodos, loadEvents): both reads are sent before a
    reply is awaited, the todos first, and the two replies may arrive in
    either order: the lists and the pending requests are the same
    afterwards.  The message is the same too unless both reads fail, when
    it is the message of the reply that came last. *)
Theorem loadAll_replies_commute (w : World) (hid : string)
    (r1 : Reply (list Todo)) (r2 : Reply (list TasksEvents.EventRow)) :
  let w1 := loadAll hid w in
  let req := next_request (net w) in
  let todos_first :=
    run time_value fromLocalInputValue
        [TodosRead req r1; EventsRead (S req) r2] w1 in
  let events_first :=
    run time_value fromLocalInputValue
        [EventsRead (S req) r2; TodosRead req r1] w1 in
  calls (net w1) = calls (net w) ++ [SelectTodos hid; SelectEvents hid] ∧
  todos w1 = todos w ∧ events w1 = events w ∧
  todos todos_first = todos events_first ∧
  events todos_first = events events_first ∧
  todos todos_first
  = match r1 with Succeeded data => data | Failed _ => todos w end ∧
  events todos_first
  = match r2 with Succeeded data => data | Failed _ => events w end ∧
  awaiting (net todos_first) = awaiting (net events_first) ∧
  match r1, r2 with
  | Failed m1, Failed m2 =>
      msg todos_first = Some m2 ∧ msg events_first = Some m1
  | Failed m, Succeeded _ | Succeeded _, Failed m =>
      msg todos_first = Some m ∧ msg events_first = Some m
  | Succeeded _, Succeeded _ =>
      msg todos_first = msg w ∧ msg events_first = msg w
  end.
Proof.
  intros w1 req todos_first events_first.
  assert (req ≠ S req) as Hne by lia.
  assert (awaiting (net w1) !! req = Some LoadTodos_k) as Ht.
  { simpl. by rewrite lookup_insert_ne, lookup_insert_eq. }
  assert (awaiting (net w1) !! S req = Some LoadEvents_k) as He.
  { simpl. by rewrite lookup_insert_eq. }
  assert (todos_first
          = loadEvents_resume r2
              (on_net (resume (S req))
                 (loadTodos_resume r1 (on_net (resume req) w1)))) as Htf.
  { unfold todos_first, run, foldl.
    rewrite (step_todos_read w1 req r1 Ht).
    apply step_events_read.
    destruct r1; simpl; by rewrite lookup_delete_ne, lookup_insert_eq. }
  assert (events_first
          = loadTodos_resume r1
              (on_net (resume req)
                 (loadEvents_resume r2 (on_net (resume (S req)) w1)))) as Hef.
  { unfold events_first, run, foldl.
    rewrite (step_events_read w1 (S req) r2 He).
    apply step_todos_read.
    destruct r2; simpl;
      by rewrite lookup_delete_ne, lookup_insert_ne, lookup_insert_eq. }
  clearbody todos_first events_first. subst todos_first events_first.
  split; [simpl; by rewrite <- app_assoc|]. do 2 (split; [done|]).
  destruct r1 as [m1|d1], r2 as [m2|d2]; simpl;
    repeat split; try done; apply delete_delete.
Qed.

End LoadAllFacts.

(** ** The todos of TodosPage *)

Section TodosPageFacts.
Import Env TodosPage.

Lemma step_todos e w :
  todos (step e w)
  = match e with
    | TodosRead req (Succeeded data) =>
        match awaiting (net w) !! req with
        | Some LoadTodos_k => data
        | _ => todos w
        end
    | _ => todos w
    end.
Proof.
  destruct e; simpl; try done.
  - unfold addTodo. simpl. by destruct (falsy _ || falsy _ || falsy _).
  - destruct (awaiting (net w) !! req) as [[]|]; try done.
    + by destruct r.
    + destruct r; simpl; [done|]. by destruct (falsy _).
  - destruct (awaiting (net w) !! req) as [[]|]; destruct r; done.
Qed.

(** X26 (TodosPage: addTodo, toggleTodo, setAssigned, removeTodo,
    loadTodos): the page shows no optimistic state.  After any steps the
    list of todos is the data of the last read that was delivered, or the
    list at the start; a step that is not such a read leaves the list as
    it is. *)
Theorem todos_are_the_last_read (es : list Event) (w : World) :
  todos (run es w) = last_read (todos w) (delivered_reads es w) ∧
  ∀ e, delivered_reads [e] w = [] → todos (step e w) = todos w.
Proof.
  split.
  - revert w. induction es as [|e es IH]; intros w; [done|].
    simpl. rewrite IH, step_todos. unfold last_read.
    destruct e; simpl; try done.
    destruct r; simpl; try done.
    destruct (awaiting (net w) !! req) as [[]|]; simpl; try done.
    rewrite last_cons. by destruct (last _).
  - intros e He. rewrite step_todos. simpl in He.
    destruct e; try done. destruct r; try done.
    by destruct (awaiting (net w) !! req) as [[]|].
Qed.

(** X27 (TodosPage: addTodo, toggleTodo, setAssigned, removeTodo): a write
    is followed by one read of the household it was called for when it
    succeeds, and by none when it fails; a failure sets the message.
    [addTodo] sends nothing without a title, a household or a user, and
    clears its inputs only after the insert succeeded. *)
Theorem writes_reload (w : World) :
  (∀ e call,
     match e with
     | ToggleTodo now todo =>
         call = UpdateDone (id todo) (negb (done todo))
                           (if negb (done todo) then Some now else None)
     | SetAssigned todo assigned => call = UpdateAssigned (id todo) assigned
     | RemoveTodo todo => call = DeleteTodo (id todo)
     | _ => False
     end →
     let w1 := step e w in
     let req := next_request (net w) in
     calls (net w1) = calls (net w) ++ [call] ∧
     (∀ message,
        let w2 := step (Written req (Failed message)) w1 in
        calls (net w2) = calls (net w1) ∧ msg w2 = Some message) ∧
     (let w2 := step (Written req (Succeeded ())) w1 in
      calls (net w2)
      = calls (net w1)
        ++ (if falsy (householdId w) then []
            else [SelectTodos (default "" (householdId w))]))) ∧
  (let w1 := addTodo w in
   let req := next_request (net w) in
   let t := Js.trim (title_input w) in
   (falsy (Some t) || falsy (householdId w) || falsy (userId w) = true →
    w1 = setMsg None w) ∧
   (falsy (Some t) || falsy (householdId w) || falsy (userId w) = false →
    calls (net w1)
    = calls (net w)
      ++ [InsertTodo (default "" (householdId w)) t
            (if falsy (Some (assignee w)) then None else Some (assignee w))
            (default "" (userId w))] ∧
    title_input w1 = title_input w ∧ assignee w1 = assignee w ∧
    (∀ message,
       let w2 := step (Written req (Failed message)) w1 in
       calls (net w2) = calls (net w1) ∧ msg w2 = Some message ∧
       title_input w2 = title_input w) ∧
    (let w2 := step (Written req (Succeeded ())) w1 in
     calls (net w2)
     = calls (net w1) ++ [SelectTodos (default "" (householdId w))] ∧
     title_input w2 = "" ∧ assignee w2 = ""))).
Proof.
  split.
  - intros e call He w1 req.
    assert (w1 = on_net (await call (Write_k (householdId w))) (setMsg None w))
      as Hw1 by (destruct e; try done; by subst call).
    clearbody w1. subst w1. split; [done|]. split.
    + intros message w2. unfold w2, step. simpl.
      by rewrite lookup_insert_eq.
    + unfold step. simpl. rewrite lookup_insert_eq. simpl.
      by destruct (falsy (householdId w)); simpl; rewrite ?app_nil_r.
  - intros w1 req t. split.
    + intros Hno. unfold w1, addTodo. simpl. fold t. by rewrite Hno.
    + intros Hok.
      assert (w1 = on_net
                     (await (InsertTodo (default "" (householdId w)) t
                               (if falsy (Some (assignee w)) then None
                                else Some (assignee w))
                               (default "" (userId w)))
                            (AddTodo_k (default "" (householdId w))))
                     (setMsg None w)) as Hw1.
      { unfold w1, addTodo. simpl. fold t. by rewrite Hok. }
      clearbody w1. subst w1. do 3 (split; [done|]). split.
      * intros message w2. unfold w2, step. simpl.
        by rewrite lookup_insert_eq.
      * unfold step. simpl. by rewrite lookup_insert_eq.
Qed.

End TodosPageFacts.

Section TodosViewFacts.
Import Env TodosPage.

Lemma find_unique (ms : list Economy.Member) m :
  NoDup (Economy.user_id <$> ms) → m ∈ ms →
  find (is_user (Some (Economy.user_id m))) ms = Some m.
Proof.
  induction ms as [|x ms IH]; intros Hnd Hm; [by apply elem_of_nil in Hm|].
  rewrite fmap_cons in Hnd. apply NoDup_cons in Hnd as [Hx Hnd]. simpl.
  unfold is_user at 1. case_bool_decide as Heq.
  - apply elem_of_cons in Hm as [->|Hm]; [done|].
    destruct Hx. injection Heq as ->. apply list_elem_of_fmap. by exists m.
  - apply elem_of_cons in Hm as [->|Hm]; [done|]. by apply IH.
Qed.

Lemma myName_nonempty w : myName w ≠ "".
Proof.
  unfold myName. destruct (Js.trim _) as [|a s] eqn:Hdn; done.
Qed.

(** X28 (TodosPage: myName, memberLabel, labelForUserId): a label is never
    empty and is "Oassignad" for no assignee; over a roster without
    duplicate ids the label of the id of a member is the label of the
    member. *)
Theorem labels_agree (w : World) :
  (∀ uid, labelForUserId w uid ≠ "") ∧
  (∀ m, memberLabel w m ≠ "") ∧
  labelForUserId w None = "Oassignad" ∧
  (NoDup (Economy.user_id <$> members w) →
   ∀ m, m ∈ members w → Economy.user_id m ≠ "" →
     labelForUserId w (Some (Economy.user_id m)) = memberLabel w m).
Proof.
  split; [|split; [|split; [done|]]].
  - intros uid. unfold labelForUserId. destruct (falsy uid); [done|].
    destruct (Js.trim _) as [|a s]; simpl; [|done].
    case_bool_decide; [apply myName_nonempty|done].
  - intros m. unfold memberLabel. destruct (is_user _ m); [apply myName_nonempty|].
    by destruct (Js.trim _).
  - intros Hnd m Hm Hid. unfold labelForUserId, memberLabel.
    destruct (Economy.user_id m) as [|a u] eqn:Hu; [done|].
    change (falsy (Some (String a u))) with false. cbv iota.
    rewrite <- Hu, (find_unique _ _ Hnd Hm). simpl.
    unfold is_user at 1.
    destruct (Js.trim (Economy.display_name m)) as [|b dn] eqn:Hdn; simpl.
    + by case_bool_decide.
    + case_bool_decide as Hme; [|done].
      unfold myName. rewrite <- Hme, (find_unique _ _ Hnd Hm). simpl.
      by rewrite Hdn.
Qed.

(** X29 (TodosPage: visibleTodos): what is visible is part of the todos,
    in their order.  Without a user the filter is ignored; with one,
    "mine" keeps the todos assigned to the user and "unassigned" the ones
    assigned to nobody, and no todo is in both. *)
Theorem visibleTodos_filters (w : World) :
  sublist (visibleTodos w) (todos w) ∧
  (falsy (userId w) = true → visibleTodos w = todos w) ∧
  (falsy (userId w) = false →
   visibleTodos (setFilter all w) = todos w ∧
   (∀ t, t ∈ visibleTodos (setFilter mine w)
         ↔ t ∈ todos w ∧ assigned_to t = userId w) ∧
   (∀ t, t ∈ visibleTodos (setFilter unassigned w)
         ↔ t ∈ todos w ∧ assigned_to t = None) ∧
   (∀ t, t ∈ visibleTodos (setFilter mine w) →
         t ∉ visibleTodos (setFilter unassigned w))).
Proof.
  split; [|split].
  - unfold visibleTodos. destruct (falsy _); [done|].
    destruct (filter_ w); [done|apply sublist_filter..].
  - intros Hno. unfold visibleTodos. by rewrite Hno.
  - intros Huser. unfold visibleTodos. simpl. rewrite Huser.
    split; [done|]. split; [|split].
    + intros t. rewrite list_elem_of_filter. tauto.
    + intros t. rewrite list_elem_of_filter. tauto.
    + intros t [Hmine _]%list_elem_of_filter [Hnone _]%list_elem_of_filter.
      rewrite Hnone in Hmine. by rewrite <- Hmine in Huser.
Qed.

End TodosViewFacts.

(** ** The settlement card of OverviewPage *)

Section OverviewFacts.
Variable N : string → string → Prop.

Lemma filter_agree {A B} (R : A → B → Prop) (P : A → Prop) (Q : B → Prop)
    `{!∀ a, Decision (P a)} `{!∀ b, Decision (Q b)} l1 l2 :
  (∀ a b, R a b → (P a ↔ Q b)) →
  Forall2 R l1 l2 → Forall2 R (filter P l1) (filter Q l2).
Proof.
  intros HPQ. induction 1 as [|a b l1 l2 Hab _ IH]; [constructor|].
  rewrite !filter_cons. pose proof (HPQ a b Hab).
  do 2 case_decide; try tauto. by constructor.
Qed.

Lemma sort_insert_agree {A B} (R : A → B → Prop) cmp1 cmp2 x y l1 l2 :
  (∀ a b a' b', R a b → R a' b' → cmp1 a a' = cmp2 b b') →
  R x y → Forall2 R l1 l2 →
  Forall2 R (Js.sort_insert cmp1 x l1) (Js.sort_insert cmp2 y l2).
Proof.
  intros Hcmp Hxy. induction 1 as [|a b l1 l2 Hab Hl IH]; simpl.
  { by repeat constructor. }
  rewrite (Hcmp x y a b) by done.
  destruct (cmp2 y b <=? 0); by repeat constructor.
Qed.

Lemma sort_agree {A B} (R : A → B → Prop) cmp1 cmp2 l1 l2 :
  (∀ a b a' b', R a b → R a' b' → cmp1 a a' = cmp2 b b') →
  Forall2 R l1 l2 → Forall2 R (Js.sort cmp1 l1) (Js.sort cmp2 l2).
Proof.
  intros Hcmp. induction 1 as [|a b l1 l2 Hab _ IH]; [constructor|].
  rewrite !sort_cons. by apply sort_insert_agree.
Qed.

Lemma by_balance_desc_agree a b a' b' :
  balances_agree N a b → balances_agree N a' b' →
  Overview.by_balance_desc a a' = Economy.by_balance_desc b b'.
Proof.
  intros [_ H1] [_ H2]. unfold Overview.by_balance_desc, Economy.by_balance_desc.
  by rewrite H1, H2.
Qed.

Lemma loop_init_agree bs1 bs2 :
  Forall2 (balances_agree N) bs1 bs2 →
  loops_agree N (Overview.loop_init bs1) (Economy.loop_init bs2).
Proof.
  intros Hbs. repeat split; simpl; [| |constructor].
  - apply sort_agree; [apply by_balance_desc_agree|].
    apply Forall2_fmap.
    eapply Forall2_impl;
      [apply (filter_agree (balances_agree N)); [|done]|].
    + intros a b [_ Hab]. by rewrite Hab.
    + intros a b [Hn Hab]. split; simpl; [done|]. by rewrite Hab.
  - apply sort_agree; [apply by_balance_desc_agree|].
    apply Forall2_fmap.
    eapply Forall2_impl;
      [apply (filter_agree (balances_agree N)); [|done]|].
    + intros a b [_ Hab]. by rewrite Hab.
    + intros a b [Hn Hab]. split; simpl; done.
Qed.

Lemma loop_body_agree st1 st2 :
  loops_agree N st1 st2 →
  option_Forall2 (loops_agree N)
    (Overview.loop_body st1) (Economy.loop_body st2).
Proof.
  intros (Hd & Hc & Hl & Hi & Hj).
  unfold Overview.loop_body, Economy.loop_body. rewrite Hi, Hj.
  destruct (Overview.debtors st1 !! Economy.i st2) as [d1|] eqn:Hd1.
  - destruct (Forall2_lookup_l _ _ _ _ _ Hd Hd1) as (d2 & -> & [Hdn Hdb]).
    destruct (Overview.creditors st1 !! Economy.j st2) as [c1|] eqn:Hc1.
    + destruct (Forall2_lookup_l _ _ _ _ _ Hc Hc1) as (c2 & -> & [Hcn Hcb]).
      constructor. rewrite Hdb, Hcb.
      split; [|split; [|split; [|split]]]; simpl.

      * apply Forall2_insert; [done|]. by split.
      * apply Forall2_insert; [done|]. by split.
      * destruct (0 <? _); [|done]. apply Forall2_app; [done|].
        by repeat constructor.
      * done.
      * done.
    + assert (Economy.creditors st2 !! Economy.j st2 = None) as ->.
      { apply lookup_ge_None. rewrite <- (Forall2_length _ _ _ Hc).
        by apply lookup_ge_None. }
      constructor.
  - assert (Economy.debtors st2 !! Economy.i st2 = None) as ->.
    { apply lookup_ge_None. rewrite <- (Forall2_length _ _ _ Hd).
      by apply lookup_ge_None. }
    constructor.
Qed.

Lemma while_loop_agree fuel st1 st2 :
  loops_agree N st1 st2 →
  option_Forall2 (loops_agree N)
    (Overview.while_loop fuel st1) (Economy.while_loop fuel st2).
Proof.
  revert st1 st2. induction fuel as [|fuel IH]; intros st1 st2 Hst; simpl;
    destruct (loop_body_agree st1 st2 Hst); try by constructor.
  by apply IH.
Qed.

Lemma computeSettlements_agree fuel bs1 bs2 :
  Forall2 (balances_agree N) bs1 bs2 →
  option_Forall2 (Forall2 (lines_agree N))
    (Overview.computeSettlements fuel bs1)
    (Economy.computeSettlements fuel bs2).
Proof.
  intros Hbs. unfold Overview.computeSettlements, Economy.computeSettlements.
  destruct (while_loop_agree fuel _ _ (loop_init_agree _ _ Hbs))
    as [st1 st2 (_ & _ & Hl & _)|]; by constructor.
Qed.

Lemma totalOre_selected z expenses :
  foldl (λ sum e, sum + Overview.amount_ore e) z (selected <$> expenses)
  = foldl (λ sum e, sum + Economy.amount_ore e) z expenses.
Proof.
  revert z. induction expenses as [|e es IH]; intros z; [done|]. apply IH.
Qed.

Lemma totalsByUser_selected (m : gmap string Z) expenses :
  foldl (λ map e,
           <[Overview.paid_by e
             := default 0 (map !! Overview.paid_by e) + Overview.amount_ore e]>
             map)
        m (selected <$> expenses)
  = foldl (λ map e,
             <[Economy.paid_by e
               := default 0 (map !! Economy.paid_by e) + Economy.amount_ore e]>
               map)
          m expenses.
Proof.
  revert m. induction expenses as [|e es IH]; intros m; [done|]. apply IH.
Qed.

Lemma balances_agree_pages members expenses :
  Forall (λ m, N (Overview.shown_name m) (Economy.shown_name m)) members →
  Forall2 (balances_agree N)
    (Overview.balances members (selected <$> expenses))
    (Economy.balances members expenses).
Proof.
  intros Hnames. unfold Overview.balances, Economy.balances.
  destruct (length members =? 0)%nat; [constructor|].
  apply Forall2_fmap, Forall_Forall2_diag.
  eapply Forall_impl; [exact Hnames|]. intros m Hm. split; [done|]. simpl.
  unfold Overview.totalOre, Overview.totalsByUser,
    Economy.totalOre, Economy.totalsByUser.
  by rewrite totalOre_selected, totalsByUser_selected.
Qed.

End OverviewFacts.

Section OverviewClaims.
Import Economy.

Lemma lines_agree_eq (l1 l2 : list Line) :
  Forall2 (lines_agree eq) l1 l2 → l1 = l2.
Proof.
  induction 1 as [|a b l1 l2 (Hf & Ht & Ha) _ IH]; [done|].
  destruct a, b. simpl in *. by subst.
Qed.

Lemma lines_agree_amounts N (l1 l2 : list Line) :
  Forall2 (lines_agree N) l1 l2 →
  line_amount_ore <$> l1 = line_amount_ore <$> l2.
Proof.
  induction 1 as [|a b l1 l2 (Hf & Ht & Ha) _ IH]; [done|].
  csimpl. by rewrite Ha, IH.
Qed.

(** X30 (OverviewPage: roundOre, computeSettlements, totalOre,
    totalsByUser, balances, settlements): for the same members and
    expenses, the settlement card of the overview shows the first four
    lines of the plan of the economy page: as many lines as the plan has,
    up to four, with the same amounts in the same order, and the same
    lines when no display name has white space around it. *)
Theorem overview_shows_first_lines (members : list Member)
    (expenses : list Expense) :
  ∃ plan shown,
    Economy.settlements members expenses = Some plan ∧
    Overview.settlements members (selected <$> expenses) = Some shown ∧
    length shown = (length plan `min` 4)%nat ∧
    line_amount_ore <$> shown = take 4 (line_amount_ore <$> plan) ∧
    (Forall (λ m, Js.trim (display_name m) = display_name m) members →
     shown = take 4 plan).
Proof.
  destruct (computeSettlements_greedy (length (balances members expenses))
              (balances members expenses) (le_n _)) as (plan & Hplan & _).
  assert (∀ N,
            Forall (λ m, N (Overview.shown_name m) (shown_name m)) members →
            ∃ shown,
              Overview.settlements members (selected <$> expenses) = Some shown ∧
              Forall2 (lines_agree N) shown (take 4 plan)) as Hshown.
  { intros N HN.
    pose proof (balances_agree_pages N members expenses HN) as Hbs.
    pose proof (computeSettlements_agree N
                  (length (Overview.balances members (selected <$> expenses)))
                  _ _ Hbs) as Hsim.
    rewrite (Forall2_length _ _ _ Hbs), Hplan in Hsim.
    inversion Hsim as [full plan' Hfull Hov Heq|]; subst.
    exists (take 4 full). unfold Overview.settlements.
    rewrite (Forall2_length _ _ _ Hbs), <- Hov. split; [done|].
    by apply Forall2_take. }
  destruct (Hshown (λ _ _, True)) as (shown & Hov & Hagree).
  { by apply Forall_forall. }
  exists plan, shown. split; [done|]. split; [done|]. split; [|split].
  - rewrite (Forall2_length _ _ _ Hagree), length_take. lia.
  - rewrite (lines_agree_amounts _ _ _ Hagree). by rewrite fmap_take.
  - intros Htrim.
    destruct (Hshown eq) as (shown' & Hov' & Hagree').
    { eapply Forall_impl; [exact Htrim|]. intros m Hm.
      unfold Overview.shown_name, shown_name. by rewrite Hm. }
    rewrite Hov in Hov'. injection Hov' as <-. by apply lines_agree_eq.
Qed.

End OverviewClaims.
